(** * nonebot-plugin-resolver2: the Bilibili download coordinator and the
      filter store, embedded from the Python sources

    Sources embedded here:
    - [nonebot_plugin_resolver2/matchers/bilibili.py]: the rate/dedup table
      ([should_process_video], [mark_as_processed]), the per-key
      [processing_locks], [parse_video_id_from_text],
      [download_and_send_video], [handle_non_video_content], the rules of
      the two matchers, the two message handlers and the command [bm];
    - [nonebot_plugin_resolver2/matchers/filter.py] in its two generations:
      the rules, the persistence functions and the command handlers.

    Conventions.
    - A Python [int] is a [Z]; a [str] is a [string] (the texts that matter
      here are ASCII: regex classes [\d] and [\s] are the ASCII ones).
      [int] of a string of digits has no bound on the number of digits,
      where CPython refuses more than 4300: statements that depend on it
      carry the bound as a hypothesis.
    - A reading of [time.time()] is a rational number [Q]: every finite
      double is a rational, and two readings of the epoch clock are within
      a factor of two of each other, so that their difference is exact in
      double precision.
    - Module-level dictionaries are [gmap]s threaded explicitly.
    - A coroutine is a tree of effects ([Host.Task]); [Loop.exec] runs one
      coroutine alone against a world that answers its calls, [Loop.step]
      interleaves several at their suspension points. Cancellation of a
      task is not modelled. *)

From Stdlib Require Import ZArith QArith Lqa String Ascii List Bool Lia.
From stdpp Require Import gmap strings list fin_maps pretty.

Local Open Scope Z_scope.

(** ** Rate/dedup table (bilibili.py, lines 78-108) *)

Module Dedup.

(** [tuple[int, str]]: (group_id, video_id). *)
Abbreviation ResourceKey := (Z * string)%type.

(** [RATE_LIMIT_SECONDS = 300]. *)
Definition RATE_LIMIT_SECONDS : Q := 300 # 1.

(** [a < b] and [a > b] on clock readings, as booleans. *)
Definition Qlt_bool (a b : Q) : bool := negb (Qle_bool b a).
Definition Qgt_bool (a b : Q) : bool := Qlt_bool b a.

(** [[k for k, t in last_processed.items()
       if current_time - t > RATE_LIMIT_SECONDS]] *)
Definition expired_keys (current_time : Q) (last_processed : gmap ResourceKey Q)
  : list ResourceKey :=
  (filter (fun kt => Qgt_bool (current_time - kt.2) RATE_LIMIT_SECONDS = true)
          (map_to_list last_processed)).*1.

(** [for k in expired_keys: del last_processed[k]] *)
Definition delete_all (ks : list ResourceKey) (last_processed : gmap ResourceKey Q)
  : gmap ResourceKey Q :=
  foldl (fun m k => delete k m) last_processed ks.

(** [should_process_video(group_id, video_id)]: the clock reading taken by
    [time.time()] is the first argument, the dictionary [last_processed] is
    passed in and the swept dictionary is returned next to the answer. *)
Definition should_process_video (current_time : Q) (group_id : Z) (video_id : string)
    (last_processed : gmap ResourceKey Q) : bool * gmap ResourceKey Q :=
  let key := (group_id, video_id) in
  let last_processed := delete_all (expired_keys current_time last_processed) last_processed in
  match last_processed !! key with
  | Some t =>
      let time_since_last := (current_time - t)%Q in
      if Qlt_bool time_since_last RATE_LIMIT_SECONDS
      then (false, last_processed)
      else (true, last_processed)
  | None => (true, last_processed)
  end.

(** [mark_as_processed(group_id, video_id)]:
    [last_processed[key] = time.time()]. *)
Definition mark_as_processed (current_time : Q) (group_id : Z) (video_id : string)
    (last_processed : gmap ResourceKey Q) : gmap ResourceKey Q :=
  let key := (group_id, video_id) in
  <[key := current_time]> last_processed.

End Dedup.

(** ** Python strings and the [re] patterns of bilibili.py *)

Module Py.

Local Open Scope string_scope.

(** [sub in s] for strings. *)
Fixpoint contains (sub s : string) : bool :=
  if String.prefix sub s then true
  else match s with
       | EmptyString => false
       | String _ s' => contains sub s'
       end.

(** [s.endswith(suffix)]. *)
Definition endswith (s suffix : string) : bool :=
  let n := String.length s in
  let m := String.length suffix in
  (m <=? n)%nat && String.eqb (String.substring (n - m) m s) suffix.

Definition is_digit (c : ascii) : bool :=
  let n := nat_of_ascii c in (48 <=? n)%nat && (n <=? 57)%nat.
Definition is_lower (c : ascii) : bool :=
  let n := nat_of_ascii c in (97 <=? n)%nat && (n <=? 122)%nat.
Definition is_upper (c : ascii) : bool :=
  let n := nat_of_ascii c in (65 <=? n)%nat && (n <=? 90)%nat.
(** [\s] on the ASCII range: tab, line feed, vertical tab, form feed,
    carriage return, the separators 0x1c-0x1f and the space. *)
Definition is_space (c : ascii) : bool :=
  let n := nat_of_ascii c in
  ((9 <=? n)%nat && (n <=? 13)%nat) || ((28 <=? n)%nat && (n <=? 32)%nat).

(** [int(s)] on a string of decimal digits; [None] stands for the
    [ValueError] of any other string. *)
Fixpoint int_acc (acc : Z) (s : string) : option Z :=
  match s with
  | EmptyString => Some acc
  | String c s' =>
      if is_digit c
      then int_acc (10 * acc + Z.of_nat (nat_of_ascii c - 48)) s'
      else None
  end.
Definition int (s : string) : option Z :=
  match s with
  | EmptyString => None
  | _ => int_acc 0 s
  end.

(** The fragment of regular expressions used by the module: repetition is
    only ever applied to a character class. *)
Inductive regex : Type :=
| Lit (s : string)
| Rep (cls : ascii -> bool) (min : nat) (max : option nat)
| Seq (r1 r2 : regex)
| Alt (r1 r2 : regex)
| Opt (r : regex)
| Group (i : nat) (r : regex).

(** Groups 1 and 2 of a match; [None] is a group that did not take part. *)
Record caps : Type := { cap1 : option string; cap2 : option string }.

Definition set_cap (i : nat) (v : string) (c : caps) : caps :=
  match i with
  | 1%nat => {| cap1 := Some v; cap2 := cap2 c |}
  | 2%nat => {| cap1 := cap1 c; cap2 := Some v |}
  | _ => c
  end.

(** The text consumed between the input [s] and its remainder [rest]. *)
Definition consumed (s rest : string) : string :=
  String.substring 0 (String.length s - String.length rest) s.

Definition more_allowed (max : option nat) : bool :=
  match max with
  | Some O => false
  | _ => true
  end.

(** The rest of [s] after the literal [l], if [s] starts with it. *)
Fixpoint strip_prefix (l s : string) : option string :=
  match l with
  | EmptyString => Some s
  | String a l' =>
      match s with
      | String b s' => if Ascii.eqb a b then strip_prefix l' s' else None
      | EmptyString => None
      end
  end.

(** Greedy [cls{min,max}] with backtracking into the continuation [k]. *)
Fixpoint rep {R} (cls : ascii -> bool) (min : nat) (max : option nat)
    (s : string) (k : string -> option R) : option R :=
  let stop := if (min =? 0)%nat then k s else None in
  match s with
  | String a s' =>
      if cls a && more_allowed max
      then match rep cls (Nat.pred min) (Nat.pred <$> max) s' k with
           | Some r => Some r
           | None => stop
           end
      else stop
  | EmptyString => stop
  end.

(** Backtracking matcher anchored at the start of [s]; [k] receives the
    remaining input and the groups captured so far. *)
Fixpoint match_re {R} (r : regex) (s : string) (c : caps)
    (k : string -> caps -> option R) : option R :=
  match r with
  | Lit l =>
      match strip_prefix l s with
      | Some rest => k rest c
      | None => None
      end
  | Rep cls min max => rep cls min max s (fun rest => k rest c)
  | Seq r1 r2 => match_re r1 s c (fun rest c' => match_re r2 rest c' k)
  | Alt r1 r2 =>
      match match_re r1 s c k with
      | Some x => Some x
      | None => match_re r2 s c k
      end
  | Opt r1 =>
      match match_re r1 s c k with
      | Some x => Some x
      | None => k s c
      end
  | Group i r1 =>
      match_re r1 s c (fun rest c' => k rest (set_cap i (consumed s rest) c'))
  end.

(** A match object: [group(0)], [group(1)], [group(2)]. *)
Record Match : Type := { group0 : string; group1 : option string; group2 : option string }.

Definition match_here (r : regex) (s : string) : option Match :=
  match_re r s {| cap1 := None; cap2 := None |}
    (fun rest c => Some {| group0 := consumed s rest; group1 := cap1 c; group2 := cap2 c |}).

(** [pattern.search(s)]: the leftmost match. *)
Fixpoint search (r : regex) (s : string) : option Match :=
  match match_here r s with
  | Some m => Some m
  | None => match s with
            | EmptyString => None
            | String _ s' => search r s'
            end
  end.

(** [str(x)] of a group: [str(None)] is the text "None". *)
Definition str (g : option string) : string := default "None" g.

(** Every character of [s] is in the class [cls]. *)
Fixpoint all_in (cls : ascii -> bool) (s : string) : bool :=
  match s with
  | EmptyString => true
  | String a s' => cls a && all_in cls s'
  end.

(** What a pattern denotes: [matches r s rest c c'] when [r] matches the
    text between [s] and its remainder [rest], and the groups [c] before
    the match are [c'] after it. *)
Fixpoint matches (r : regex) (s rest : string) (c c' : caps) : Prop :=
  match r with
  | Lit l => s = l +:+ rest /\ c' = c
  | Rep cls min max =>
      exists pre, s = pre +:+ rest /\ all_in cls pre = true /\
        (min <= String.length pre)%nat /\
        (forall m, max = Some m -> (String.length pre <= m)%nat) /\ c' = c
  | Seq r1 r2 => exists mid c1, matches r1 s mid c c1 /\ matches r2 mid rest c1 c'
  | Alt r1 r2 => matches r1 s rest c c' \/ matches r2 s rest c c'
  | Opt r1 => matches r1 s rest c c' \/ (rest = s /\ c' = c)
  | Group i r1 =>
      exists c1, matches r1 s rest c c1 /\ c' = set_cap i (consumed s rest) c1
  end.

(** [s.strip()]: [s] without the whitespace at its two ends. *)
Fixpoint lstrip (s : string) : string :=
  match s with
  | String a s' => if is_space a then lstrip s' else s
  | EmptyString => EmptyString
  end.

Fixpoint rstrip (s : string) : string :=
  match s with
  | String a s' =>
      match rstrip s' with
      | EmptyString => if is_space a then EmptyString else String a EmptyString
      | r => String a r
      end
  | EmptyString => EmptyString
  end.

Definition strip (s : string) : string := rstrip (lstrip s).

End Py.

(** ** The host runtime, the external coroutines and the task monad *)

Module Host.

Import Dedup.

(** The OneBot message events the handlers distinguish with [isinstance]. *)
Inductive MessageEvent : Type :=
| GroupMessageEvent (group_id : Z) (user_id : Z)
| PrivateMessageEvent (user_id : Z).

(** The names imported from [..config]. *)
Record Config : Type := {
  DURATION_MAXIMUM : Z;
  NICKNAME : string;
  plugin_cache_dir : string
}.

(** Exceptions that reach the handlers. [ActionFailed] carries
    [e.info.get("message")]; [None] is an [info] without that entry. *)
Inductive Exn : Type :=
| ActionFailed (message : option string)
| FinishedException
| KeyError
| ValueError
| RuntimeError
| AttributeError
| TypeError
| ValidationError
| OtherException (name : string).

(** The fields of the parser's video description that the module reads.
    A missing [audio_url] is the empty string (both are falsy). *)
Record VideoInfo : Type := {
  title : string;
  cover_url : string;
  display_info : string;
  ai_summary : string;
  video_duration : Z;
  video_url : string;
  audio_url : string
}.

Inductive Segment : Type :=
| Text (s : string)
| ImgSeg (path : string)
| VideoSeg (path : string).

Inductive MatcherName : Type := bilibili | bilibili_auto_download.

(** [parser.parse_video_info(avid=...)] or [(bvid=...)]. *)
Inductive VideoRef : Type := avid (n : Z) | bvid (s : string).

(** The awaited coroutines that live outside the module: each is a
    suspension point whose outcome (a value or an exception) is decided
    by the environment. [gather_download_file_by_stream] is the
    [asyncio.gather] of the two stream downloads. *)
Inductive Ext : Type -> Type :=
| get_redirect_url (url : string) : Ext string
| handle_non_video_content (url : string) : Ext bool
| send (m : MatcherName) (msg : Segment) : Ext unit
| send_segments (segs : list Segment) : Ext unit
| parse_video_info (v : VideoRef) (page_num : Z) : Ext VideoInfo
| download_img (url : string) : Ext string
| gather_download_file_by_stream (video : string * string) (audio : string * string)
    : Ext (string * string)
| merge_av (v_path a_path output_path : string) : Ext unit
| download_video (url video_name : string) : Ext string
| encode_video_to_h264 (video_path : string) : Ext string.

(** A coroutine of the module as a tree of its effects: awaited external
    coroutines, the file-system test, the two functions over the global
    [last_processed] (each reads [time.time()]), and the operations on the
    [asyncio.Lock] stored in [processing_locks] under a key. *)
Inductive Task (A : Type) : Type :=
| Ret (a : A)
| Throw (e : Exn)
| Await {X : Type} (op : Ext X) (k : X + Exn -> Task A)
| PathExists (path : string) (k : bool -> Task A)
| ShouldProcessVideo (group_id : Z) (video_id : string) (k : bool -> Task A)
| MarkAsProcessed (group_id : Z) (video_id : string) (k : Task A)
| LockLocked (key : ResourceKey) (k : bool -> Task A)
| LockAcquire (key : ResourceKey) (k : Task A)
| LockRelease (key : ResourceKey) (k : bool -> Task A).

Arguments Ret {A} a.
Arguments Throw {A} e.
Arguments Await {A X} op k.
Arguments PathExists {A} path k.
Arguments ShouldProcessVideo {A} group_id video_id k.
Arguments MarkAsProcessed {A} group_id video_id k.
Arguments LockLocked {A} key k.
Arguments LockAcquire {A} key k.
Arguments LockRelease {A} key k.

Fixpoint bind {A B} (t : Task A) (f : A -> Task B) : Task B :=
  match t with
  | Ret a => f a
  | Throw e => Throw e
  | Await op k => Await op (fun r => bind (k r) f)
  | PathExists p k => PathExists p (fun b => bind (k b) f)
  | ShouldProcessVideo g v k => ShouldProcessVideo g v (fun b => bind (k b) f)
  | MarkAsProcessed g v k => MarkAsProcessed g v (bind k f)
  | LockLocked key k => LockLocked key (fun b => bind (k b) f)
  | LockAcquire key k => LockAcquire key (bind k f)
  | LockRelease key k => LockRelease key (fun b => bind (k b) f)
  end.

(** [try: t  except Exception as e: h e] (the handler decides what it
    catches and re-raises the rest). *)
Fixpoint try_except {A} (t : Task A) (h : Exn -> Task A) : Task A :=
  match t with
  | Ret a => Ret a
  | Throw e => h e
  | Await op k => Await op (fun r => try_except (k r) h)
  | PathExists p k => PathExists p (fun b => try_except (k b) h)
  | ShouldProcessVideo g v k => ShouldProcessVideo g v (fun b => try_except (k b) h)
  | MarkAsProcessed g v k => MarkAsProcessed g v (try_except k h)
  | LockLocked key k => LockLocked key (fun b => try_except (k b) h)
  | LockAcquire key k => LockAcquire key (try_except k h)
  | LockRelease key k => LockRelease key (fun b => try_except (k b) h)
  end.

(** [try: t  finally: fin]: [fin] runs on return and on exception. *)
Fixpoint try_finally {A} (t : Task A) (fin : Task unit) : Task A :=
  match t with
  | Ret a => bind fin (fun _ => Ret a)
  | Throw e => bind fin (fun _ => Throw e)
  | Await op k => Await op (fun r => try_finally (k r) fin)
  | PathExists p k => PathExists p (fun b => try_finally (k b) fin)
  | ShouldProcessVideo g v k => ShouldProcessVideo g v (fun b => try_finally (k b) fin)
  | MarkAsProcessed g v k => MarkAsProcessed g v (try_finally k fin)
  | LockLocked key k => LockLocked key (fun b => try_finally (k b) fin)
  | LockAcquire key k => LockAcquire key (try_finally k fin)
  | LockRelease key k => LockRelease key (fun b => try_finally (k b) fin)
  end.

(** [await op]: the value, or the exception raised in the caller. *)
Definition await {X} (op : Ext X) : Task X :=
  Await op (fun r => match r with inl x => Ret x | inr e => Throw e end).

Definition should_process_video (group_id : Z) (video_id : string) : Task bool :=
  ShouldProcessVideo group_id video_id Ret.

Definition mark_as_processed (group_id : Z) (video_id : string) : Task unit :=
  MarkAsProcessed group_id video_id (Ret tt).

(** [lock.release()]: the node answers whether the lock was held;
    releasing a lock that is not held raises [RuntimeError]. *)
Definition lock_release (key : ResourceKey) : Task unit :=
  LockRelease key (fun was_held => if was_held then Ret tt else Throw RuntimeError).

(** [async with processing_locks[key]: body]: acquire on entry
    ([__aenter__]), release on every exit ([__aexit__]). *)
Definition async_with_lock {A} (key : ResourceKey) (body : Task A) : Task A :=
  LockAcquire key (try_finally body (lock_release key)).

(** The monad structure, for stdpp's [x ← t; k] and [t ;; k]. *)
#[global] Instance task_ret : MRet Task := fun A a => Ret a.
#[global] Instance task_bind : MBind Task := fun A B f t => bind t f.

End Host.

(** ** matchers/bilibili.py *)

Module Bilibili.

Import Dedup Host.
Local Open Scope string_scope.

(** [[1-9a-zA-Z]] *)
Definition bv_char (c : ascii) : bool :=
  let n := nat_of_ascii c in
  ((49 <=? n)%nat && (n <=? 57)%nat) || Py.is_lower c || Py.is_upper c.

(** [[A-Za-z\d\._?%&+\-=/#]] *)
Definition url_char (c : ascii) : bool :=
  Py.is_upper c || Py.is_lower c || Py.is_digit c
  || bool_decide (c ∈ ["."; "_"; "?"; "%"; "&"; "+"; "-"; "="; "/"; "#"]%char).

Definition empty_groups : Py.regex :=
  Py.Seq (Py.Group 1 (Py.Lit "")) (Py.Group 2 (Py.Lit "")).

(** [(?:\s)?(\d{1,3})?] *)
Definition page_suffix : Py.regex :=
  Py.Seq (Py.Opt (Py.Rep Py.is_space 1 (Some 1%nat)))
         (Py.Opt (Py.Group 2 (Py.Rep Py.is_digit 1 (Some 3%nat)))).

(** The entries of the dictionary [PATTERNS], then the dictionary in its
    order. *)

(** [(BV[1-9a-zA-Z]{10})(?:\s)?(\d{1,3})?] *)
Definition pattern_BV : Py.regex :=
  Py.Seq (Py.Group 1 (Py.Seq (Py.Lit "BV") (Py.Rep bv_char 10 (Some 10%nat)))) page_suffix.

(** [av(\d{6,})(?:\s)?(\d{1,3})?] *)
Definition pattern_av : Py.regex :=
  Py.Seq (Py.Lit "av") (Py.Seq (Py.Group 1 (Py.Rep Py.is_digit 6 None)) page_suffix).

(** [/(BV[1-9a-zA-Z]{10})()] *)
Definition pattern_slash_BV : Py.regex :=
  Py.Seq (Py.Lit "/")
    (Py.Seq (Py.Group 1 (Py.Seq (Py.Lit "BV") (Py.Rep bv_char 10 (Some 10%nat))))
            (Py.Group 2 (Py.Lit ""))).

(** [/av(\d{6,})()] *)
Definition pattern_slash_av : Py.regex :=
  Py.Seq (Py.Lit "/av")
    (Py.Seq (Py.Group 1 (Py.Rep Py.is_digit 6 None)) (Py.Group 2 (Py.Lit ""))).

(** [https?://b23\.tv/[A-Za-z\d\._?%&+\-=/#]+()()] *)
Definition pattern_b23 : Py.regex :=
  Py.Seq (Py.Lit "http") (Py.Seq (Py.Opt (Py.Lit "s"))
    (Py.Seq (Py.Lit "://b23.tv/") (Py.Seq (Py.Rep url_char 1 None) empty_groups))).

(** [https?://bili2233\.cn/[A-Za-z\d\._?%&+\-=/#]+()()] *)
Definition pattern_bili2233 : Py.regex :=
  Py.Seq (Py.Lit "http") (Py.Seq (Py.Opt (Py.Lit "s"))
    (Py.Seq (Py.Lit "://bili2233.cn/") (Py.Seq (Py.Rep url_char 1 None) empty_groups))).

(** [https?://(?:space|www|live|m|t)?\.?bilibili\.com/[A-Za-z\d\._?%&+\-=/#]+()()] *)
Definition pattern_bilibili : Py.regex :=
  Py.Seq (Py.Lit "http") (Py.Seq (Py.Opt (Py.Lit "s"))
    (Py.Seq (Py.Lit "://")
    (Py.Seq (Py.Opt (Py.Alt (Py.Lit "space") (Py.Alt (Py.Lit "www")
               (Py.Alt (Py.Lit "live") (Py.Alt (Py.Lit "m") (Py.Lit "t"))))))
    (Py.Seq (Py.Opt (Py.Lit "."))
    (Py.Seq (Py.Lit "bilibili.com/")
    (Py.Seq (Py.Rep url_char 1 None) empty_groups)))))).

Definition PATTERNS : list (string * Py.regex) :=
  [ ("BV", pattern_BV);
    ("av", pattern_av);
    ("/BV", pattern_slash_BV);
    ("/av", pattern_slash_av);
    ("b23", pattern_b23);
    ("bili2233", pattern_bili2233);
    ("bilibili", pattern_bilibili) ].

(** [PATTERNS[keyword]]: [None] is the [KeyError]. *)
Definition PATTERNS_get (keyword : string) : option Py.regex :=
  snd <$> List.find (fun kv => String.eqb (fst kv) keyword) PATTERNS.

(** [(?:&|\?)p=(\d{1,3})] *)
Definition page_param : Py.regex :=
  Py.Seq (Py.Alt (Py.Lit "&") (Py.Lit "?"))
    (Py.Seq (Py.Lit "p=") (Py.Group 1 (Py.Rep Py.is_digit 1 (Some 3%nat)))).

(** [next((i for i in ("/BV", "/av") if i in url), None)] *)
Definition find_id_type (url : string) : option string :=
  List.find (fun i => Py.contains i url) ["/BV"; "/av"].

(** [int(s)], raising [ValueError] where Python does. *)
Definition int_or_raise (s : string) : Task Z :=
  match Py.int s with
  | Some n => Ret n
  | None => Throw ValueError
  end.

(** The block "链接中是否包含BV，av号" of [parse_video_id_from_text]: the
    id and type after the re-scan of [url], from those of the keyword
    match. *)
Definition rescan_url (keyword url video_id : string) : string * string :=
  let video_type := "BV" in
  match find_id_type url with
  | Some id_type =>
      match PATTERNS_get id_type ≫= fun pattern => Py.search pattern url with
      | Some matched =>
          (Py.str (Py.group1 matched), if Py.contains "av" id_type then "av" else "BV")
      | None => (video_id, video_type)
      end
  | None =>
      if bool_decide (keyword ∈ ["av"; "/av"]) then (video_id, "av")
      else (video_id, video_type)
  end.

(** [page_num = int(page_num) if page_num else 1], then the [p=] query
    parameter of [url] if there is one. *)
Definition parse_page_num (url : string) (page_num : option string) : Task Z :=
  page_num ← match page_num with
             | None | Some "" => Ret 1
             | Some s => int_or_raise s
             end;
  match (if String.eqb url "" then None else Py.search page_param url) with
  | Some matched => int_or_raise (Py.str (Py.group1 matched))
  | None => Ret page_num
  end.

(** [parse_video_id_from_text(text, keyword)]:
    [Some (url, video_id, page_num, video_type)] or [None]. *)
Definition parse_video_id_from_text (text keyword : string)
  : Task (option (string * string * Z * string)) :=
  match PATTERNS_get keyword with
  | None => Throw KeyError
  | Some pattern =>
  match Py.search pattern text with
  | None => Ret None
  | Some matched =>
      let url := Py.group0 matched in
      let video_id := Py.str (Py.group1 matched) in
      let page_num := Py.group2 matched in
      (* 短链重定向 *)
      url ← (if bool_decide (keyword ∈ ["b23"; "bili2233"])
             then
               let b23url := url in
               url ← await (get_redirect_url url);
               if String.eqb url b23url then Ret None else Ret (Some url)
             else Ret (Some url));
      match url with
      | None => Ret None
      | Some url =>
          let '(video_id, video_type) := rescan_url keyword url video_id in
          page_num ← parse_page_num url page_num;
          Ret (Some (url, video_id, page_num, video_type))
      end
  end
  end.

(** The two shapes of a video identifier: "BV" and ten characters of
    [[1-9a-zA-Z]], or six decimal digits and more. *)
Definition is_bvid (s : string) : bool :=
  String.prefix "BV" s && (String.length s =? 12)%nat
  && Py.all_in bv_char (String.substring 2 10 s).

Definition is_avid (s : string) : bool :=
  (6 <=? String.length s)%nat && Py.all_in Py.is_digit s.

(** What the groups of a match of the patterns can be: a BV identifier,
    an av number, and the page number, a group that did not take part,
    an empty group or one to three digits. *)
Definition bv_id (g : option string) : Prop :=
  exists id, g = Some id /\ is_bvid id = true.
Definition av_id (g : option string) : Prop :=
  exists id, g = Some id /\ is_avid id = true.
Definition page_group (g : option string) : Prop :=
  g = None \/ g = Some "" \/
  exists d, g = Some d /\ (1 <= String.length d <= 3)%nat /\ Py.all_in Py.is_digit d = true.

Definition no_slash (c : ascii) : bool := negb (Ascii.eqb c "/").

(** What [parse_video_id_from_text] returns for a keyword of the two
    matchers. *)
Definition parsed_reference (keyword : string) (res : option (string * string * Z * string))
  : Prop :=
  match res with
  | None => True
  | Some (url, video_id, page_num, video_type) =>
      0 <= page_num <= 999 /\
      ((video_type = "av" /\ is_avid video_id = true) \/
       (video_type = "BV" /\ (video_id = "" \/ is_bvid video_id = true))) /\
      (forall m, Py.search page_param url = Some m ->
         Py.int (Py.str (Py.group1 m)) = Some page_num) /\
      (keyword ∈ ["b23"; "bili2233"; "bilibili"] ->
         (Py.search page_param url = None -> page_num = 1) /\
         (find_id_type url = None -> video_id = "")) /\
      (keyword ∈ ["BV"; "av"] -> video_type = keyword /\ video_id <> "")
  end.

Section Handlers.

Variable cfg : Config.

(** The [try ... except ActionFailed] around the upload in
    [download_and_send_video]. *)
Definition send_video (matcher : MatcherName) (video_path : string) : Task unit :=
  try_except (await (send matcher (VideoSeg video_path)))
    (fun e =>
       match e with
       | ActionFailed info_message =>
           let message := default "" info_message in
           (* 无缩略图错误 *)
           if negb (Py.endswith message ".png'") then Throw e
           else
             (* 重新编码为 h264 *)
             h264_video_path ← await (encode_video_to_h264 video_path);
             await (send matcher (VideoSeg h264_video_path))
       | _ => Throw e
       end).

(** [download_and_send_video(matcher, video_info, video_id, page_num)] *)
Definition download_and_send_video (matcher : MatcherName) (video_info : VideoInfo)
    (video_id : string) (page_num : Z) : Task bool :=
  if (DURATION_MAXIMUM cfg <? video_duration video_info)%Z then Ret false
  else
    let file_name := video_id +:+ "-" +:+ pretty page_num in
    let video_path := plugin_cache_dir cfg +:+ "/" +:+ file_name +:+ ".mp4" in
    cached ← PathExists video_path Ret;
    video_path ←
      (if negb cached then
         (* 下载视频和音频 *)
         if negb (String.eqb (audio_url video_info) "") then
           '(v_path, a_path) ← await (gather_download_file_by_stream
                (video_url video_info, file_name +:+ "-video.m4s")
                (audio_url video_info, file_name +:+ "-audio.m4s"));
           await (merge_av v_path a_path video_path);;
           Ret video_path
         else
           await (download_video (video_url video_info) (file_name +:+ ".mp4"))
       else Ret video_path);
    (* 发送视频 *)
    send_video matcher video_path;;
    Ret true.

(** [group_id = event.group_id if isinstance(event, GroupMessageEvent) else 0] *)
Definition group_id_of (event : MessageEvent) : Z :=
  match event with
  | GroupMessageEvent group_id _ => group_id
  | PrivateMessageEvent _ => 0
  end.

(** The local function [is_processing] of the [bilibili] handler. *)
Definition is_processing (group_id : Z) (video_id : string) : Task bool :=
  LockLocked (group_id, video_id) Ret.

(** [parser.parse_video_info(avid=int(video_id), ...)] for type "av",
    [(bvid=video_id, ...)] otherwise. *)
Definition get_video_info (video_type video_id : string) (page_num : Z) : Task VideoInfo :=
  if String.eqb video_type "av"
  then n ← int_or_raise video_id; await (parse_video_info (avid n) page_num)
  else await (parse_video_info (bvid video_id) page_num).

Definition pub_prefix : string := NICKNAME cfg +:+ "解析 | 哔哩哔哩 - ".

(** The body of the [async with] of the [bilibili] handler. *)
Definition bilibili_guarded (keyword video_id : string) (page_num : Z)
    (video_type : string) (group_id : Z) : Task unit :=
  (* 双重检查 *)
  ok ← should_process_video group_id video_id;
  if negb ok then Ret tt
  else
    (* 标记开始处理 *)
    mark_as_processed group_id video_id;;
    (* 构建链接 *)
    let need_join_link := negb (String.eqb keyword "bilibili") in
    let join_link :=
      if need_join_link then
        let url_id := if String.eqb video_type "av" then "av" +:+ video_id else video_id in
        " https://www.bilibili.com/video/" +:+ url_id
      else "" in
    await (send bilibili (Text (pub_prefix +:+ "视频" +:+ join_link)));;
    (* 获取视频信息 *)
    video_info ← get_video_info video_type video_id page_num;
    (* 发送视频信息 *)
    cover ← await (download_img (cover_url video_info));
    let segs := [Text (title video_info); ImgSeg cover;
                 Text (display_info video_info); Text (ai_summary video_info)] in
    let segs :=
      if (DURATION_MAXIMUM cfg <? video_duration video_info)%Z
      then List.app segs [Text ("⚠️ 当前视频时长 " +:+ pretty (video_duration video_info `div` 60)
                          +:+ " 分钟, 超过管理员设置的最长时间 "
                          +:+ pretty (DURATION_MAXIMUM cfg `div` 60) +:+ " 分钟!")]
      else segs in
    await (send_segments segs);;
    (* 下载并发送视频 *)
    download_and_send_video bilibili video_info video_id page_num;;
    Ret tt.

(** The [bilibili] handler from the parsed reference on (a video:
    [video_id] is not empty). *)
Definition bilibili_video (event : MessageEvent) (keyword video_id : string)
    (page_num : Z) (video_type : string) : Task unit :=
  (* 获取群组ID *)
  let group_id := group_id_of event in
  (* 检查是否应该处理 *)
  ok ← should_process_video group_id video_id;
  if negb ok then Ret tt
  else
    (* 如果正在处理，则直接返回 *)
    processing ← is_processing group_id video_id;
    if (processing : bool) then Ret tt
    else
      (* 使用处理锁 *)
      async_with_lock (group_id, video_id)
        (bilibili_guarded keyword video_id page_num video_type group_id).

(** [@bilibili.handle()]: 完整的B站解析处理. The decorator
    [handle_exception] wraps the coroutine from outside and is not part
    of this body. *)
Definition bilibili_handle (event : MessageEvent) (text keyword : string) : Task unit :=
  parsed_result ← parse_video_id_from_text text keyword;
  match parsed_result with
  | None => Ret tt
  | Some (url, video_id, page_num, video_type) =>
      if String.eqb video_id "" then
        (* 如果不是视频，处理其他内容: both branches end in [finish()] *)
        await (handle_non_video_content url);;
        Throw FinishedException
      else bilibili_video event keyword video_id page_num video_type
  end.

(** The body of the [async with] of the [bilibili_auto_download] handler. *)
Definition auto_download_guarded (video_id : string) (page_num : Z)
    (video_type : string) (group_id : Z) : Task unit :=
  (* 双重检查 *)
  ok ← should_process_video group_id video_id;
  if negb ok then Ret tt
  else
    (* 标记开始处理 *)
    mark_as_processed group_id video_id;;
    (* 获取视频信息 *)
    video_info ← get_video_info video_type video_id page_num;
    (* 下载并发送视频 *)
    download_and_send_video bilibili_auto_download video_info video_id page_num;;
    Ret tt.

(** The [bilibili_auto_download] handler from the parsed reference on. *)
Definition auto_download_video (event : MessageEvent) (video_id : string)
    (page_num : Z) (video_type : string) : Task unit :=
  (* 获取群组ID *)
  let group_id := group_id_of event in
  (* 检查是否应该处理 *)
  ok ← should_process_video group_id video_id;
  if negb ok then Ret tt
  else
    (* 使用处理锁 *)
    async_with_lock (group_id, video_id)
      (auto_download_guarded video_id page_num video_type group_id).

(** [@bilibili_auto_download.handle()]: 仅下载视频，不进行完整解析. *)
Definition bilibili_auto_download_handle (event : MessageEvent) (text keyword : string)
  : Task unit :=
  parsed_result ← parse_video_id_from_text text keyword;
  match parsed_result with
  | None => Ret tt
  | Some (url, video_id, page_num, video_type) =>
      (* 如果不是视频链接，忽略 *)
      if String.eqb video_id "" then Ret tt
      else auto_download_video event video_id page_num video_type
  end.

End Handlers.

(** Either handler from the parsed reference on. *)
Definition video_flow (cfg : Config) (auto : bool) (event : MessageEvent)
    (keyword video_id : string) (page_num : Z) (video_type : string) : Task unit :=
  if auto then auto_download_video cfg event video_id page_num video_type
  else bilibili_video cfg event keyword video_id page_num video_type.

(** An incoming message that triggers one of the two matchers. *)
Record Invocation : Type := {
  matcher : MatcherName;
  event : MessageEvent;
  text : string;
  keyword : string
}.

(** The coroutine the host starts for it. *)
Definition handler_task (cfg : Config) (i : Invocation) : Task unit :=
  match matcher i with
  | bilibili => bilibili_handle cfg (event i) (text i) (keyword i)
  | bilibili_auto_download =>
      bilibili_auto_download_handle cfg (event i) (text i) (keyword i)
  end.

End Bilibili.

(** ** The event loop: [asyncio.Lock], one task run alone, and the
       interleaving of several tasks *)

Module Loop.

Import Dedup Host.

(** An [asyncio.Lock]: [_locked] and the queue [_waiters] of futures, each
    with the task that awaits it and whether its result has been set. *)
Record Lock : Type := { locked : bool; waiters : list (nat * bool) }.

(** The module globals. *)
Record Shared : Type := {
  last_processed : gmap ResourceKey Q;
  processing_locks : gmap ResourceKey Lock
}.

Definition new_lock : Lock := {| locked := false; waiters := [] |}.

(** [processing_locks[key]] on the [defaultdict]. *)
Definition get_lock (key : ResourceKey) (locks : gmap ResourceKey Lock) : Lock :=
  default new_lock (locks !! key).

(** [lock is not None and lock.locked()] for [processing_locks.get(key)]. *)
Definition is_locked (key : ResourceKey) (locks : gmap ResourceKey Lock) : bool :=
  match locks !! key with
  | Some lk => locked lk
  | None => false
  end.

(** [Lock._wake_up_first]: set the result of the first waiter's future
    if it is not done. *)
Definition wake_up_first (ws : list (nat * bool)) : list (nat * bool) :=
  match ws with
  | (tid, _) :: rest => (tid, true) :: rest
  | [] => []
  end.

(** The future of task [tid] in the queue, if any. *)
Definition waiting (tid : nat) (lk : Lock) : option bool :=
  snd <$> List.find (fun w => Nat.eqb (fst w) tid) (waiters lk).

(** The fast path of [Lock.acquire]: the lock is free and nobody queues. *)
Definition can_take (lk : Lock) : bool :=
  negb (locked lk) && match waiters lk with [] => true | _ => false end.

Definition take (lk : Lock) : Lock := {| locked := true; waiters := waiters lk |}.

(** The slow path of [Lock.acquire]: append a future and suspend. *)
Definition enqueue (tid : nat) (lk : Lock) : Lock :=
  {| locked := locked lk; waiters := waiters lk ++ [(tid, false)] |}.

(** The end of [Lock.acquire] once the future is done: leave the queue and
    take the lock. *)
Definition dequeue_and_take (tid : nat) (lk : Lock) : Lock :=
  {| locked := true;
     waiters := List.filter (fun w => negb (Nat.eqb (fst w) tid)) (waiters lk) |}.

(** [Lock.release] on a held lock. *)
Definition release (lk : Lock) : Lock :=
  {| locked := false; waiters := wake_up_first (waiters lk) |}.

Definition set_lock (key : ResourceKey) (lk : Lock) (sh : Shared) : Shared :=
  {| last_processed := last_processed sh;
     processing_locks := <[key := lk]> (processing_locks sh) |}.

Definition set_last_processed (lp : gmap ResourceKey Q) (sh : Shared) : Shared :=
  {| last_processed := lp; processing_locks := processing_locks sh |}.

(** *** One task run alone *)

(** What the world answers: the reply to the awaited coroutine, the clock
    and the file system, each asked at a position of the run. *)
Record Env : Type := {
  answer : forall X, Ext X -> nat -> X + Exn;
  time_time : nat -> Q;
  path_exists : string -> nat -> bool
}.

Inductive Event : Type :=
| Called {X : Type} (op : Ext X) (reply : X + Exn)
| Tested (path : string) (found : bool)
| Checked (key : ResourceKey) (now : Q) (ok : bool)
| Marked (key : ResourceKey) (now : Q)
| Probed (key : ResourceKey) (held : bool)
| Acquired (key : ResourceKey)
| Released (key : ResourceKey).

Inductive Outcome (A : Type) : Type :=
| Returned (a : A)
| Raised (e : Exn)
| Blocked (key : ResourceKey).
Arguments Returned {A} a.
Arguments Raised {A} e.
Arguments Blocked {A} key.

Record Run (A : Type) : Type := {
  trace : list Event;
  final : Shared;
  outcome : Outcome A
}.
Arguments trace {A} r.
Arguments final {A} r.
Arguments outcome {A} r.

Definition log {A} (e : Event) (r : Run A) : Run A :=
  {| trace := e :: trace r; final := final r; outcome := outcome r |}.

(** [exec env t n sh]: the task [t] run to its end as the only task of the
    loop, from the globals [sh]; [n] is the number of events so far. *)
Fixpoint exec {A} (env : Env) (t : Task A) (n : nat) (sh : Shared) : Run A :=
  match t with
  | Ret a => {| trace := []; final := sh; outcome := Returned a |}
  | Throw e => {| trace := []; final := sh; outcome := Raised e |}
  | Await op k =>
      let r := answer env _ op n in
      log (Called op r) (exec env (k r) (S n) sh)
  | PathExists p k =>
      let b := path_exists env p n in
      log (Tested p b) (exec env (k b) (S n) sh)
  | ShouldProcessVideo g v k =>
      let now := time_time env n in
      let '(ok, lp) := Dedup.should_process_video now g v (last_processed sh) in
      log (Checked (g, v) now ok) (exec env (k ok) (S n) (set_last_processed lp sh))
  | MarkAsProcessed g v k =>
      let now := time_time env n in
      let lp := Dedup.mark_as_processed now g v (last_processed sh) in
      log (Marked (g, v) now) (exec env k (S n) (set_last_processed lp sh))
  | LockLocked key k =>
      let b := is_locked key (processing_locks sh) in
      log (Probed key b) (exec env (k b) (S n) sh)
  | LockAcquire key k =>
      let lk := get_lock key (processing_locks sh) in
      if can_take lk
      then log (Acquired key) (exec env k (S n) (set_lock key (take lk) sh))
      else {| trace := []; final := set_lock key (enqueue 0 lk) sh; outcome := Blocked key |}
  | LockRelease key k =>
      let lk := get_lock key (processing_locks sh) in
      if locked lk
      then log (Released key) (exec env (k true) (S n) (set_lock key (release lk) sh))
      else exec env (k false) n sh
  end.

(** *** Several tasks interleaved *)

(** The tasks of the loop by number, and the task that is running between
    two suspension points, if any. *)
Record System : Type := {
  shared : Shared;
  pool : list (Task unit);
  running : option nat
}.

(** One scheduling decision: the task that runs its next effect, and what
    the world answers to it. *)
Record Label : Type := {
  who : nat;
  reply : forall X, Ext X -> X + Exn;
  now : Q;
  on_disk : string -> bool
}.

(** The next effect of task [tid]: the rest of the task and the globals
    after it; [None] when the task has finished or still waits in the
    queue of a lock. *)
Definition fire (l : Label) (tid : nat) (t : Task unit) (sh : Shared)
  : option (Task unit * Shared) :=
  match t with
  | Ret _ | Throw _ => None
  | Await op k => Some (k (reply l _ op), sh)
  | PathExists p k => Some (k (on_disk l p), sh)
  | ShouldProcessVideo g v k =>
      let '(ok, lp) := Dedup.should_process_video (now l) g v (last_processed sh) in
      Some (k ok, set_last_processed lp sh)
  | MarkAsProcessed g v k =>
      Some (k, set_last_processed
                 (Dedup.mark_as_processed (now l) g v (last_processed sh)) sh)
  | LockLocked key k => Some (k (is_locked key (processing_locks sh)), sh)
  | LockAcquire key k =>
      let lk := get_lock key (processing_locks sh) in
      match waiting tid lk with
      | Some true => Some (k, set_lock key (dequeue_and_take tid lk) sh)
      | Some false => None
      | None =>
          if can_take lk
          then Some (k, set_lock key (take lk) sh)
          else Some (LockAcquire key k, set_lock key (enqueue tid lk) sh)
      end
  | LockRelease key k =>
      let lk := get_lock key (processing_locks sh) in
      if locked lk
      then Some (k true, set_lock key (release lk) sh)
      else Some (k false, sh)
  end.

(** A task gives the loop back when it has finished, when it awaits an
    external coroutine, or when it waits in the queue of a lock. *)
Definition suspended (tid : nat) (t : Task unit) (sh : Shared) : bool :=
  match t with
  | Ret _ | Throw _ => true
  | Await _ _ => true
  | LockAcquire key _ =>
      bool_decide (is_Some (waiting tid (get_lock key (processing_locks sh))))
  | _ => false
  end.

Definition may_run (tid : nat) (r : option nat) : bool :=
  match r with
  | None => true
  | Some tid' => Nat.eqb tid tid'
  end.

(** One step of the loop; a decision that is not enabled changes nothing. *)
Definition step (s : System) (l : Label) : System :=
  if may_run (who l) (running s) then
    match pool s !! who l with
    | Some t =>
        match fire l (who l) t (shared s) with
        | Some (t', sh') =>
            {| shared := sh';
               pool := <[who l := t']> (pool s);
               running := if suspended (who l) t' sh' then None else Some (who l) |}
        | None => s
        end
    | None => s
    end
  else s.

Definition run (s : System) (schedule : list Label) : System :=
  foldl step s schedule.

(** The loop before any task has run: no lock exists yet. *)
Definition start (lp : gmap ResourceKey Q) (tasks : list (Task unit)) : System :=
  {| shared := {| last_processed := lp; processing_locks := ∅ |};
     pool := tasks;
     running := None |}.

Definition finished (t : Task unit) : bool :=
  match t with
  | Ret _ | Throw _ => true
  | _ => false
  end.

(** The run of [t ≫= f] is the run of [t] followed by the run of [f]. *)
Definition then_run {A B} (r : Run A) (f : A -> nat -> Shared -> Run B) (n : nat) : Run B :=
  match outcome r with
  | Returned a =>
      let r2 := f a (n + length (trace r))%nat (final r) in
      {| trace := trace r ++ trace r2; final := final r2; outcome := outcome r2 |}
  | Raised e => {| trace := trace r; final := final r; outcome := Raised e |}
  | Blocked k => {| trace := trace r; final := final r; outcome := Blocked k |}
  end.

(** The run of [try: t finally: fin]. *)
Definition finally_run {A} (r : Run A) (fin : nat -> Shared -> Run unit) (n : nat) : Run A :=
  match outcome r with
  | Blocked k => {| trace := trace r; final := final r; outcome := Blocked k |}
  | o =>
      let r2 := fin (n + length (trace r))%nat (final r) in
      {| trace := trace r ++ trace r2; final := final r2;
         outcome := match outcome r2 with
                    | Returned _ => o
                    | Raised e => Raised e
                    | Blocked k => Blocked k
                    end |}
  end.

(** *** Observations on runs and on tasks *)

(** The events that reach the outside world. *)
Definition is_io (e : Event) : bool :=
  match e with
  | Called _ _ | Tested _ _ => true
  | _ => false
  end.

(** A download of media: the two streams together, or the whole video. *)
Definition is_download (e : Event) : bool :=
  match e with
  | Called (gather_download_file_by_stream _ _) _ => true
  | Called (download_video _ _) _ => true
  | _ => false
  end.

(** A task that only awaits external coroutines and tests files: it
    touches neither the dedup table nor a lock. *)
Fixpoint io_only {A} (t : Task A) : Prop :=
  match t with
  | Ret _ | Throw _ => True
  | Await _ k => forall r, io_only (k r)
  | PathExists _ k => forall b, io_only (k b)
  | _ => False
  end.

(** [bracketed held t]: on every path of [t], whatever the world answers,
    the lock operations are well nested around at most one lock: with
    [held = Some key] the task is inside the guarded section of [key] and
    releases [key] before it ends; with [held = None] it holds no lock,
    and ends holding none. *)
Fixpoint bracketed {A} (held : option ResourceKey) (t : Task A) : Prop :=
  match t with
  | Ret _ | Throw _ => held = None
  | Await _ k => forall r, bracketed held (k r)
  | PathExists _ k => forall b, bracketed held (k b)
  | ShouldProcessVideo _ _ k => forall b, bracketed held (k b)
  | MarkAsProcessed _ _ k => bracketed held k
  | LockLocked _ k => forall b, bracketed held (k b)
  | LockAcquire key k => held = None /\ bracketed (Some key) k
  | LockRelease key k => held = Some key /\ forall b, bracketed None (k b)
  end.

(** Task [t] is inside the guarded section of [key]. *)
Definition inside (key : ResourceKey) (t : Task unit) : Prop :=
  bracketed (Some key) t.

(** The invariant of the loop, lock by lock and task by task. *)
Record lock_inv (s : System) (key : ResourceKey) : Prop := {
  (** a held lock has a task inside its section *)
  held_has_owner :
    is_locked key (processing_locks (shared s)) = true ->
    exists tid t, pool s !! tid = Some t /\ inside key t;
  (** a task inside the section holds the lock *)
  owner_holds : forall tid t,
    pool s !! tid = Some t -> inside key t ->
    is_locked key (processing_locks (shared s)) = true;
  (** at most one task is inside the section *)
  owner_unique : forall tid1 tid2 t1 t2,
    pool s !! tid1 = Some t1 -> pool s !! tid2 = Some t2 ->
    inside key t1 -> inside key t2 -> tid1 = tid2;
  (** the tasks of the queue are distinct *)
  waiters_nodup :
    NoDup (get_lock key (processing_locks (shared s))).(waiters).*1;
  (** a task of the queue is suspended in the acquisition of this lock *)
  waiters_parked : forall tid w,
    (tid, w) ∈ (get_lock key (processing_locks (shared s))).(waiters) ->
    exists k, pool s !! tid = Some (LockAcquire key k) /\ bracketed (Some key) k;
  (** a waiter is woken only while the lock is free, and only one is *)
  woken_free : forall tid,
    (tid, true) ∈ (get_lock key (processing_locks (shared s))).(waiters) ->
    is_locked key (processing_locks (shared s)) = false /\
    forall tid', (tid', true) ∈ (get_lock key (processing_locks (shared s))).(waiters) ->
                 tid' = tid
}.

Definition system_inv (s : System) : Prop :=
  (forall key, lock_inv s key) /\
  (forall tid t, pool s !! tid = Some t ->
                 bracketed None t \/ exists key, bracketed (Some key) t).

(** The redirect resolution of a short link. *)
Definition resolves_link (e : Event) : bool :=
  match e with
  | Called (get_redirect_url _) _ => true
  | _ => false
  end.

(** The run got past the lock of [key] and then past the double check. *)
Definition passes_double_check (key : ResourceKey) (r : Run unit) : Prop :=
  exists i j now, (i < j)%nat /\
    trace r !! i = Some (Acquired key) /\ trace r !! j = Some (Checked key now true).

(** The key is marked before any external work other than the redirect
    resolution, the run ends with the release of the lock, and the mark is
    still in the table at the end and suppresses the key for the window. *)
Definition marked_before_work (key : ResourceKey) (r : Run unit) : Prop :=
  exists pre t_mark work,
    trace r = pre ++ Marked key t_mark :: work ++ [Released key] /\
    Forall (fun e => is_io e = false \/ resolves_link e = true) pre /\
    Forall (fun e => is_io e = true) work /\
    last_processed (final r) !! key = Some t_mark /\
    forall now, (now - t_mark < RATE_LIMIT_SECONDS)%Q ->
      (Dedup.should_process_video now key.1 key.2 (last_processed (final r))).1 = false.

(** A run that acquires the lock of a key ends with the release of that
    lock, and leaves it free. *)
Definition releases_what_it_acquired (r : Run unit) : Prop :=
  forall key, Acquired key ∈ trace r ->
    last (trace r) = Some (Released key) /\
    is_locked key (processing_locks (final r)) = false.

(** [leaves Q E t]: every value [t] returns satisfies [Q], and every
    exception it raises is in [E] or is one that an awaited coroutine
    raised into it before. A release is followed on the side of a held
    lock: this is the side a well-bracketed task takes. *)
Fixpoint leaves {A} (Q : A -> Prop) (E : Exn -> Prop) (t : Task A) : Prop :=
  match t with
  | Ret a => Q a
  | Throw e => E e
  | Await _ k => forall r, leaves Q (fun e => E e \/ r = inr e) (k r)
  | PathExists _ k => forall b, leaves Q E (k b)
  | ShouldProcessVideo _ _ k => forall b, leaves Q E (k b)
  | MarkAsProcessed _ _ k => leaves Q E k
  | LockLocked _ k => forall b, leaves Q E (k b)
  | LockAcquire _ k => leaves Q E k
  | LockRelease _ k => leaves Q E (k true)
  end.

(** The exception [e] was raised by an awaited coroutine of the run. *)
Definition raised_upstream {A} (e : Exn) (r : Run A) : Prop :=
  exists X (op : Ext X), Called op (inr e) ∈ trace r.

(** A task without lock operations (it may ask whether a lock is held). *)
Fixpoint lock_free {A} (t : Task A) : Prop :=
  match t with
  | Ret _ | Throw _ => True
  | Await _ k => forall r, lock_free (k r)
  | PathExists _ k => forall b, lock_free (k b)
  | ShouldProcessVideo _ _ k => forall b, lock_free (k b)
  | MarkAsProcessed _ _ k => lock_free k
  | LockLocked _ k => forall b, lock_free (k b)
  | LockAcquire _ _ | LockRelease _ _ => False
  end.





(** A task that acquires a lock only right after it has asked whether the
    lock is held and has been answered no. *)
Fixpoint polite {A} (t : Task A) : Prop :=
  match t with
  | Ret _ | Throw _ => True
  | Await _ k => forall r, polite (k r)
  | PathExists _ k => forall b, polite (k b)
  | ShouldProcessVideo _ _ k => forall b, polite (k b)
  | MarkAsProcessed _ _ k => polite k
  | LockLocked key k =>
      polite (k true) /\
      match k false with
      | LockAcquire key' k' => key' = key /\ polite k'
      | _ => polite (k false)
      end
  | LockAcquire _ _ => False
  | LockRelease _ k => forall b, polite (k b)
  end.

(** Task [tid] has just seen the lock free and is still running. *)
Definition about_to_take (s : System) (tid : nat) (t : Task unit) : Prop :=
  exists key k, t = LockAcquire key k /\ polite k /\ running s = Some tid /\
    can_take (get_lock key (processing_locks (shared s))) = true.

(** The invariant of a loop of such tasks: no task ever queues. *)
Definition no_queue_inv (s : System) : Prop :=
  (forall key, waiters (get_lock key (processing_locks (shared s))) = []) /\
  (forall tid t, pool s !! tid = Some t -> polite t \/ about_to_take s tid t).

(** A task that marks a key only right after it has checked that key and
    has been answered yes. *)
Fixpoint checks_before_marks {A} (t : Task A) : Prop :=
  match t with
  | Ret _ | Throw _ => True
  | Await _ k => forall r, checks_before_marks (k r)
  | PathExists _ k => forall b, checks_before_marks (k b)
  | ShouldProcessVideo g v k =>
      checks_before_marks (k false) /\
      match k true with
      | MarkAsProcessed g' v' k' => (g', v') = (g, v) /\ checks_before_marks k'
      | _ => checks_before_marks (k true)
      end
  | MarkAsProcessed _ _ _ => False
  | LockLocked _ k => forall b, checks_before_marks (k b)
  | LockAcquire _ k => checks_before_marks k
  | LockRelease _ k => forall b, checks_before_marks (k b)
  end.

(** Task [tid] has just been answered yes at the clock reading [T] and is
    still running: its next effect is the mark. *)
Definition about_to_mark (T : Q) (s : System) (tid : nat) (t : Task unit) : Prop :=
  exists g v k, t = MarkAsProcessed g v k /\ checks_before_marks k /\
    running s = Some tid /\
    forall t0, last_processed (shared s) !! (g, v) = Some t0 ->
               (RATE_LIMIT_SECONDS <= T - t0)%Q.

(** The invariant of a loop of such tasks whose last clock reading is
    [T]: no entry of the table lies in the future. *)
Definition marks_inv (T : Q) (s : System) : Prop :=
  (forall key t0, last_processed (shared s) !! key = Some t0 -> (t0 <= T)%Q) /\
  (forall tid t, pool s !! tid = Some t ->
                 checks_before_marks t \/ about_to_mark T s tid t).

(** The entry of [key] with respect to an earlier mark at [t]: the same
    mark, a mark a window later, or no entry once the window is over. *)
Definition spaced (t T : Q) (key : ResourceKey) (s : System) : Prop :=
  match last_processed (shared s) !! key with
  | Some t' => t' = t \/ (RATE_LIMIT_SECONDS <= t' - t)%Q
  | None => (RATE_LIMIT_SECONDS < T - t)%Q
  end.

(** The clock readings of a schedule never go back from [T]. *)
Fixpoint nondecreasing (T : Q) (schedule : list Label) : Prop :=
  match schedule with
  | [] => True
  | l :: rest => (T <= now l)%Q /\ nondecreasing (now l) rest
  end.

(** The clock reading of the last decision of a schedule. *)
Definition last_time (T : Q) (schedule : list Label) : Q :=
  foldl (fun _ l => now l) T schedule.

(** A decision the loop can take: the task may run and has a next
    effect. *)
Definition enabled (s : System) (l : Label) : Prop :=
  may_run (who l) (running s) = true /\
  exists t, pool s !! who l = Some t /\ is_Some (fire l (who l) t (shared s)).

(** The invariant behind the absence of deadlock: the queue of a free lock
    starts with a woken waiter, and the running task, if any, has a next
    effect that is not a wait. *)
Definition progress_inv (s : System) : Prop :=
  (forall key,
     let lk := get_lock key (processing_locks (shared s)) in
     waiters lk <> [] ->
     locked lk = true \/ exists tid rest, waiters lk = (tid, true) :: rest) /\
  (forall tid, running s = Some tid ->
     exists t, pool s !! tid = Some t /\ suspended tid t (shared s) = false).

(** What a task is doing, for the inspection of a state. *)
Inductive Status : Type :=
| HasReturned
| HasRaised (e : Exn)
| Awaiting {X : Type} (op : Ext X)
| WaitingForLock (key : ResourceKey)
| Runnable.

Definition status (s : System) (tid : nat) : option Status :=
  (fun t =>
     match t with
     | Ret _ => HasReturned
     | Throw e => HasRaised e
     | Await op _ => Awaiting op
     | LockAcquire key _ =>
         if bool_decide (is_Some (waiting tid (get_lock key (processing_locks (shared s)))))
         then WaitingForLock key else Runnable
     | _ => Runnable
     end) <$> pool s !! tid.

End Loop.

(** ** matchers/filter.py: the filter store *)

(** JSON documents. The text of a data file is identified with the
    document it denotes: [json.dumps]/[json.loads] and pydantic's
    [model_dump_json]/[model_validate_json] are a writer and a reader of
    documents. *)
Module Json.

#[local] Unset Elimination Schemes.
Inductive value : Type :=
| Null
| Bool (b : bool)
| Int (n : Z)
| Str (s : string)
| Arr (items : list value)
| Obj (fields : list (string * value)).
#[local] Set Elimination Schemes.

Definition as_int (j : value) : option Z :=
  match j with
  | Int n => Some n
  | _ => None
  end.

(** A [list[int]] field. *)
Definition as_int_list (j : value) : option (list Z) :=
  match j with
  | Arr items => mapM as_int items
  | _ => None
  end.

(** [obj.get(name)] on the fields of an object. *)
Definition field (name : string) (fields : list (string * value)) : option value :=
  snd <$> List.find (fun kv => String.eqb (fst kv) name) fields.

End Json.

(** The newer generation: [src/nonebot_plugin_resolver2/matchers/filter.py]
    with [SourceType], [SOURCE_TYPES] and [SOURCE_ALIASES]. *)
Module Filter.

Import Host.
Local Open Scope string_scope.

(** [SourceType = Literal["bilibili", "douyin", "ytb"]] *)
Inductive SourceType : Type := bilibili | douyin | ytb.

#[global] Instance SourceType_eq_dec : EqDecision SourceType.
Proof. solve_decision. Defined.

Definition SourceType_to_nat (s : SourceType) : nat :=
  match s with bilibili => 0 | douyin => 1 | ytb => 2 end.
Definition SourceType_of_nat (n : nat) : option SourceType :=
  match n with
  | 0%nat => Some bilibili
  | 1%nat => Some douyin
  | 2%nat => Some ytb
  | _ => None
  end.

#[global] Instance SourceType_countable : Countable SourceType.
Proof.
  apply (inj_countable SourceType_to_nat SourceType_of_nat).
  intros []; reflexivity.
Defined.

Definition SOURCE_TYPES : list SourceType := [bilibili; douyin; ytb].

Definition SOURCE_ALIASES : list (SourceType * list string) :=
  [ (bilibili, ["bilibili"; "b23"; "b站"; "B站"]);
    (douyin, ["douyin"; "抖音"; "v.douyin"]);
    (ytb, ["ytb"; "油管"; "youtube"; "youtu.be"]) ].

(** The literal of a source, and the source of a literal. *)
Definition source_name (s : SourceType) : string :=
  match s with bilibili => "bilibili" | douyin => "douyin" | ytb => "ytb" end.
Definition source_of_name (n : string) : option SourceType :=
  List.find (fun s => String.eqb (source_name s) n) SOURCE_TYPES.

Record FilterItem : Type := { disabled_groups : list Z }.

(** [FilterItem()] *)
Definition FilterItem_default : FilterItem := {| disabled_groups := [] |}.

Record FilterConfig : Type := {
  filter_dict : gmap SourceType FilterItem;
  do_not_download_media_groups : list Z;
  bili_auto_download_when_disabled_groups : list Z
}.

(** [FilterConfig()]: [{k: FilterItem() for k in SOURCE_TYPES}] and two
    empty lists. *)
Definition FilterConfig_default : FilterConfig :=
  {| filter_dict := list_to_map ((fun k => (k, FilterItem_default)) <$> SOURCE_TYPES);
     do_not_download_media_groups := [];
     bili_auto_download_when_disabled_groups := [] |}.

(** The two data files of the plugin; [None] is a file that does not
    exist. *)
Record Store : Type := {
  DISABLED_GROUPS : option Json.value;
  FILTER_CONFIG_FILE : option Json.value
}.

(** The module globals [disabled_group_set] and [filter_config]. *)
Record State : Type := {
  disabled_group_set : gset Z;
  filter_config : FilterConfig
}.

(** [model_dump_json] of the two models. *)
Definition FilterItem_dump (i : FilterItem) : Json.value :=
  Json.Obj [("disabled_groups", Json.Arr (Json.Int <$> disabled_groups i))].

Definition FilterConfig_dump (c : FilterConfig) : Json.value :=
  Json.Obj
    [ ("filter_dict",
       Json.Obj ((fun kv => (source_name kv.1, FilterItem_dump kv.2))
                   <$> map_to_list (filter_dict c)));
      ("do_not_download_media_groups",
       Json.Arr (Json.Int <$> do_not_download_media_groups c));
      ("bili_auto_download_when_disabled_groups",
       Json.Arr (Json.Int <$> bili_auto_download_when_disabled_groups c)) ].

(** [model_validate_json] of the two models: a missing field takes its
    default, unknown fields are ignored, and a document of another shape
    is a validation error ([None]). Integers are accepted as JSON
    integers only. *)
Definition FilterItem_validate (j : Json.value) : option FilterItem :=
  match j with
  | Json.Obj fields =>
      match Json.field "disabled_groups" fields with
      | Some l => (fun g => {| disabled_groups := g |}) <$> Json.as_int_list l
      | None => Some FilterItem_default
      end
  | _ => None
  end.

Definition filter_dict_validate (j : Json.value) : option (gmap SourceType FilterItem) :=
  match j with
  | Json.Obj fields =>
      list_to_map <$>
        mapM (fun kv => k ← source_of_name kv.1;
                        v ← FilterItem_validate kv.2;
                        Some (k, v))
             (reverse fields)
  | _ => None
  end.

Definition int_list_field (name : string) (fields : list (string * Json.value))
  : option (list Z) :=
  match Json.field name fields with
  | Some l => Json.as_int_list l
  | None => Some []
  end.

Definition FilterConfig_validate (j : Json.value) : option FilterConfig :=
  match j with
  | Json.Obj fields =>
      d ← match Json.field "filter_dict" fields with
          | Some o => filter_dict_validate o
          | None => Some (filter_dict FilterConfig_default)
          end;
      a ← int_list_field "do_not_download_media_groups" fields;
      b ← int_list_field "bili_auto_download_when_disabled_groups" fields;
      Some {| filter_dict := d;
              do_not_download_media_groups := a;
              bili_auto_download_when_disabled_groups := b |}
  | _ => None
  end.

(** [dict.setdefault(k, v)] *)
Definition setdefault (k : SourceType) (v : FilterItem)
    (d : gmap SourceType FilterItem) : gmap SourceType FilterItem :=
  match d !! k with
  | Some _ => d
  | None => <[k := v]> d
  end.

(** [load_or_initialize_set()]: the set, or the exception of
    [set(json.loads(...))], and the store afterwards. A document that is
    not an array of integers is taken as an error. *)
Definition load_or_initialize_set (st : Store) : (Exn + gset Z) * Store :=
  let st := match DISABLED_GROUPS st with
            | None => {| DISABLED_GROUPS := Some (Json.Arr []);
                         FILTER_CONFIG_FILE := FILTER_CONFIG_FILE st |}
            | Some _ => st
            end in
  match DISABLED_GROUPS st ≫= Json.as_int_list with
  | Some l => (inr (list_to_set l), st)
  | None => (inl TypeError, st)
  end.

(** [load_filter_config()] *)
Definition load_filter_config (st : Store) : FilterConfig * Store :=
  match FILTER_CONFIG_FILE st with
  | None =>
      let config := FilterConfig_default in
      (config, {| DISABLED_GROUPS := DISABLED_GROUPS st;
                  FILTER_CONFIG_FILE := Some (FilterConfig_dump config) |})
  | Some text =>
      let config := match FilterConfig_validate text with
                    | Some config => config
                    | None => FilterConfig_default (* except Exception *)
                    end in
      let d := foldl (fun d source => setdefault source FilterItem_default d)
                     (filter_dict config) SOURCE_TYPES in
      ({| filter_dict := d;
          do_not_download_media_groups := do_not_download_media_groups config;
          bili_auto_download_when_disabled_groups :=
            bili_auto_download_when_disabled_groups config |}, st)
  end.

(** [save_disabled_groups()] *)
Definition save_disabled_groups (s : State) (st : Store) : Store :=
  {| DISABLED_GROUPS := Some (Json.Arr (Json.Int <$> elements (disabled_group_set s)));
     FILTER_CONFIG_FILE := Some (FilterConfig_dump (filter_config s)) |}.

(** [filter_config.filter_dict.get(source, FilterItem()).disabled_groups] *)
Definition disabled_groups_of (c : FilterConfig) (source : SourceType) : list Z :=
  disabled_groups (default FilterItem_default (filter_dict c !! source)).

(** [is_not_in_disabled_groups_by_source(event, source)] *)
Definition is_not_in_disabled_groups_by_source (s : State) (event : MessageEvent)
    (source : SourceType) : bool :=
  match event with
  | GroupMessageEvent group_id _ =>
      negb (bool_decide (group_id ∈ disabled_groups_of (filter_config s) source))
  | _ => true
  end.

(** The loop of [is_not_in_disabled_groups_by_source_alias] over the
    items of the alias dictionary. *)
Fixpoint alias_loop (s : State) (event : MessageEvent) (alias : string)
    (items : list (SourceType * list string)) : bool :=
  match items with
  | (source, aliases) :: rest =>
      if bool_decide (alias ∈ aliases)
      then is_not_in_disabled_groups_by_source s event source
      else alias_loop s event alias rest
  | [] => true
  end.

(** [is_not_in_disabled_groups_by_source_alias(event, alias)] *)
Definition is_not_in_disabled_groups_by_source_alias (s : State) (event : MessageEvent)
    (alias : string) : Exn + bool :=
  inr (alias_loop s event alias SOURCE_ALIASES).

(** The other rules of the module (the older generation has the same
    functions, lines 71-115). *)

(** [is_not_in_disabled_groups(event)] *)
Definition is_not_in_disabled_groups (s : State) (event : MessageEvent) : bool :=
  match event with
  | GroupMessageEvent group_id _ => negb (bool_decide (group_id ∈ disabled_group_set s))
  | _ => true
  end.

Definition is_not_in_disabled_groups_by_bilibili (s : State) (event : MessageEvent) : bool :=
  is_not_in_disabled_groups_by_source s event bilibili.

Definition is_not_in_disabled_groups_by_douyin (s : State) (event : MessageEvent) : bool :=
  is_not_in_disabled_groups_by_source s event douyin.

Definition is_not_in_disabled_groups_by_ytb (s : State) (event : MessageEvent) : bool :=
  is_not_in_disabled_groups_by_source s event ytb.

(** [is_in_bili_auto_download_when_disabled_groups(event)] *)
Definition is_in_bili_auto_download_when_disabled_groups (s : State) (event : MessageEvent)
  : bool :=
  match event with
  | GroupMessageEvent group_id _ =>
      bool_decide (group_id ∈ bili_auto_download_when_disabled_groups (filter_config s))
  | _ => true
  end.

(** [is_not_in_do_not_download_media_groups(event)] *)
Definition is_not_in_do_not_download_media_groups (s : State) (event : MessageEvent) : bool :=
  match event with
  | GroupMessageEvent group_id _ =>
      negb (bool_decide (group_id ∈ do_not_download_media_groups (filter_config s)))
  | _ => true
  end.

(** *** The command handlers *)

(** [SOURCE_ALIASES[source]] *)
Definition SOURCE_ALIASES_get (source : SourceType) : list string :=
  default [] (snd <$> List.find (fun kv => bool_decide (kv.1 = source)) SOURCE_ALIASES).

(** [l.remove(x)]: the first occurrence of [x] leaves the list. The
    handlers call it only after [x in l]. *)
Fixpoint list_remove (x : Z) (l : list Z) : list Z :=
  match l with
  | [] => []
  | y :: l' => if decide (x = y) then l' else y :: list_remove x l'
  end.

(** What the local name [target_source] of the two handlers refers to: the
    global set, or the list [disabled_groups] of the item stored in
    [filter_config.filter_dict] under a source (a reference: the handler
    changes the list in place). *)
Inductive Target : Type :=
| TheSet
| TheList (source : SourceType).

(** A handler up to its last statement [await matcher.finish(message)]:
    the message, and the globals and the files at that point. *)
Record Finished : Type := {
  message : string;
  state : State;
  store : Store
}.

Definition with_disabled_group_set (g : gset Z) (s : State) : State :=
  {| disabled_group_set := g; filter_config := filter_config s |}.

Definition with_filter_dict (d : gmap SourceType FilterItem) (s : State) : State :=
  {| disabled_group_set := disabled_group_set s;
     filter_config :=
       {| filter_dict := d;
          do_not_download_media_groups := do_not_download_media_groups (filter_config s);
          bili_auto_download_when_disabled_groups :=
            bili_auto_download_when_disabled_groups (filter_config s) |} |}.

Definition with_do_not_download_media_groups (l : list Z) (s : State) : State :=
  {| disabled_group_set := disabled_group_set s;
     filter_config :=
       {| filter_dict := filter_dict (filter_config s);
          do_not_download_media_groups := l;
          bili_auto_download_when_disabled_groups :=
            bili_auto_download_when_disabled_groups (filter_config s) |} |}.

Definition with_bili_auto_download_when_disabled_groups (l : list Z) (s : State) : State :=
  {| disabled_group_set := disabled_group_set s;
     filter_config :=
       {| filter_dict := filter_dict (filter_config s);
          do_not_download_media_groups := do_not_download_media_groups (filter_config s);
          bili_auto_download_when_disabled_groups := l |} |}.

(** [filter_config.filter_dict[source].disabled_groups]: the subscript
    raises [KeyError] for a source without an item. *)
Definition item_list (source : SourceType) (s : State) : Exn + Target :=
  match filter_dict (filter_config s) !! source with
  | Some _ => inr (TheList source)
  | None => inl KeyError
  end.

(** [gid in target_source] *)
Definition target_contains (gid : Z) (target : Target) (s : State) : bool :=
  match target with
  | TheSet => bool_decide (gid ∈ disabled_group_set s)
  | TheList source => bool_decide (gid ∈ disabled_groups_of (filter_config s) source)
  end.

(** [target_source.remove(gid)] *)
Definition target_remove (gid : Z) (target : Target) (s : State) : State :=
  match target with
  | TheSet => with_disabled_group_set (disabled_group_set s ∖ {[ gid ]}) s
  | TheList source =>
      with_filter_dict
        (<[source := {| disabled_groups :=
                          list_remove gid (disabled_groups_of (filter_config s) source) |}]>
           (filter_dict (filter_config s))) s
  end.

(** [target_source.append(gid)] for a list, [target_source.add(gid)] for
    the set. *)
Definition target_add (gid : Z) (target : Target) (s : State) : State :=
  match target with
  | TheSet => with_disabled_group_set (disabled_group_set s ∪ {[ gid ]}) s
  | TheList source =>
      with_filter_dict
        (<[source := {| disabled_groups :=
                          disabled_groups_of (filter_config s) source ++ [gid] |}]>
           (filter_dict (filter_config s))) s
  end.

(** The command "开启所有解析" (lines 129-134). *)
Definition enable_all (s : State) (st : Store) : Finished :=
  let s := with_disabled_group_set ∅ s in
  {| message := "所有解析已开启"; state := s; store := save_disabled_groups s st |}.

(** The command "关闭所有解析" (lines 137-143); [gid_list] is the list of the
    [group_id]s of [await bot.get_group_list()]. *)
Definition disable_all (gid_list : list Z) (s : State) (st : Store) : Finished :=
  let s := with_disabled_group_set (disabled_group_set s ∪ list_to_set gid_list) s in
  {| message := "所有解析已关闭"; state := s; store := save_disabled_groups s st |}.

(** The command "开启解析" (lines 146-168); [plain_text] is the text of the
    message without the command word, stripped. *)
Definition enable (gid : Z) (plain_text : string) (s : State) (st : Store)
  : Exn + Finished :=
  match (if bool_decide (plain_text ∈ SOURCE_ALIASES_get bilibili) then item_list bilibili s
         else if bool_decide (plain_text ∈ SOURCE_ALIASES_get douyin) then item_list douyin s
         else if bool_decide (plain_text ∈ SOURCE_ALIASES_get ytb) then item_list ytb s
         else inr TheSet) with
  | inl e => inl e
  | inr target_source =>
      if target_contains gid target_source s then
        let s := target_remove gid target_source s in
        inr {| message := "解析已开启"; state := s; store := save_disabled_groups s st |}
      else
        inr {| message := "解析已开启，无需重复开启"; state := s; store := st |}
  end.

(** [filter_config.filter_dict.setdefault(source, FilterItem())], then the
    list of the item. *)
Definition item_list_setdefault (source : SourceType) (s : State) : State * Target :=
  (with_filter_dict (setdefault source FilterItem_default (filter_dict (filter_config s))) s,
   TheList source).

(** The command "关闭解析" (lines 171-199). *)
Definition disable (gid : Z) (plain_text : string) (s : State) (st : Store) : Finished :=
  let '(s, target_source) :=
    if bool_decide (plain_text ∈ SOURCE_ALIASES_get bilibili) then item_list_setdefault bilibili s
    else if bool_decide (plain_text ∈ SOURCE_ALIASES_get douyin) then item_list_setdefault douyin s
    else if bool_decide (plain_text ∈ SOURCE_ALIASES_get ytb) then item_list_setdefault ytb s
    else (s, TheSet) in
  if negb (target_contains gid target_source s) then
    let s := target_add gid target_source s in
    {| message := "解析已关闭"; state := s; store := save_disabled_groups s st |}
  else
    {| message := "解析已关闭，无需重复关闭"; state := s; store := st |}.

(** The command "关闭下载解析" (lines 202-217). *)
Definition disable_download (gid : Z) (s : State) (st : Store) : Finished :=
  if bool_decide (gid ∈ do_not_download_media_groups (filter_config s)) then
    {| message := "下载已关闭, 无需重复关闭"; state := s; store := st |}
  else
    let s := with_do_not_download_media_groups
               (do_not_download_media_groups (filter_config s) ++ [gid]) s in
    {| message := "下载已关闭"; state := s; store := save_disabled_groups s st |}.

(** The command "开启下载解析" (lines 220-235). *)
Definition enable_download (gid : Z) (s : State) (st : Store) : Finished :=
  if negb (bool_decide (gid ∈ do_not_download_media_groups (filter_config s))) then
    {| message := "下载已开启, 无需重复开启"; state := s; store := st |}
  else
    let s := with_do_not_download_media_groups
               (list_remove gid (do_not_download_media_groups (filter_config s))) s in
    {| message := "下载已开启"; state := s; store := save_disabled_groups s st |}.

(** The command "开启b站自动下载" (lines 251-265). *)
Definition enable_bili_auto_download (gid : Z) (s : State) (st : Store) : Finished :=
  if bool_decide (gid ∈ bili_auto_download_when_disabled_groups (filter_config s)) then
    {| message := "b站自动下载已开启, 无需重复开启"; state := s; store := st |}
  else
    let s := with_bili_auto_download_when_disabled_groups
               (bili_auto_download_when_disabled_groups (filter_config s) ++ [gid]) s in
    {| message := "b站自动下载已开启（即使关闭b站解析也会下载视频）";
       state := s; store := save_disabled_groups s st |}.

(** The command "关闭b站自动下载" (lines 268-282). *)
Definition disable_bili_auto_download (gid : Z) (s : State) (st : Store) : Finished :=
  if negb (bool_decide (gid ∈ bili_auto_download_when_disabled_groups (filter_config s))) then
    {| message := "b站自动下载已关闭, 无需重复关闭"; state := s; store := st |}
  else
    let s := with_bili_auto_download_when_disabled_groups
               (list_remove gid (bili_auto_download_when_disabled_groups (filter_config s))) s in
    {| message := "b站自动下载已关闭"; state := s; store := save_disabled_groups s st |}.

(** The commands of the module that change the filter, each with what its
    handler reads from the event and from the bot. *)
Inductive Command : Type :=
| EnableAll
| DisableAll (gid_list : list Z)
| Enable (gid : Z) (plain_text : string)
| Disable (gid : Z) (plain_text : string)
| DisableDownload (gid : Z)
| EnableDownload (gid : Z)
| EnableBiliAutoDownload (gid : Z)
| DisableBiliAutoDownload (gid : Z).

(** The handler the host runs for a command. *)
Definition handle (c : Command) (s : State) (st : Store) : Exn + Finished :=
  match c with
  | EnableAll => inr (enable_all s st)
  | DisableAll gid_list => inr (disable_all gid_list s st)
  | Enable gid plain_text => enable gid plain_text s st
  | Disable gid plain_text => inr (disable gid plain_text s st)
  | DisableDownload gid => inr (disable_download gid s st)
  | EnableDownload gid => inr (enable_download gid s st)
  | EnableBiliAutoDownload gid => inr (enable_bili_auto_download gid s st)
  | DisableBiliAutoDownload gid => inr (disable_bili_auto_download gid s st)
  end.

(** The import of the module (lines 76-78):
    [disabled_group_set = load_or_initialize_set()], then
    [filter_config = load_filter_config()]. *)
Definition import_module (st : Store) : Exn + State * Store :=
  let '(loaded, st) := load_or_initialize_set st in
  match loaded with
  | inl e => inl e
  | inr g =>
      let '(config, st) := load_filter_config st in
      inr ({| disabled_group_set := g; filter_config := config |}, st)
  end.

(** The commands of a session handled one after the other from the
    import on; a handler that raises leaves the globals as they were at
    the raise (here: unchanged) and the session goes on. *)
Fixpoint session (cs : list Command) (s : State) (st : Store) : State * Store :=
  match cs with
  | [] => (s, st)
  | c :: cs =>
      match handle c s st with
      | inr f => session cs (state f) (store f)
      | inl _ => session cs s st
      end
  end.

(** The group of the event that triggers a command; the two commands of
    the private chat have none. *)
Definition Command_group (c : Command) : option Z :=
  match c with
  | EnableAll | DisableAll _ => None
  | Enable gid _ | Disable gid _ | DisableDownload gid | EnableDownload gid
  | EnableBiliAutoDownload gid | DisableBiliAutoDownload gid => Some gid
  end.

(** Every source has an item in [filter_config.filter_dict]. *)
Definition complete (s : State) : Prop :=
  forall source, is_Some (filter_dict (filter_config s) !! source).

(** No list of the configuration names a group twice. *)
Definition no_duplicates (s : State) : Prop :=
  (forall source, NoDup (disabled_groups_of (filter_config s) source)) /\
  NoDup (do_not_download_media_groups (filter_config s)) /\
  NoDup (bili_auto_download_when_disabled_groups (filter_config s)).

(** What the rules answer for an event. *)
Definition answers (s : State) (event : MessageEvent) : list bool :=
  [ is_not_in_disabled_groups s event;
    is_not_in_disabled_groups_by_bilibili s event;
    is_not_in_disabled_groups_by_douyin s event;
    is_not_in_disabled_groups_by_ytb s event;
    is_in_bili_auto_download_when_disabled_groups s event;
    is_not_in_do_not_download_media_groups s event ].

End Filter.

(** The older generation: [nonebot_plugin_resolver2/matchers/filter.py]
    with [source_enum] and [source_alias]; the models are the same. *)
Module FilterOld.

Import Host.
Local Open Scope string_scope.

(** What a name can denote where the module uses it: a [str] or the alias
    dictionary. *)
Inductive PyObject : Type :=
| PyStr (s : string)
| PyDict (d : list (Filter.SourceType * list string)).

(** [o.items()]: a [str] has no attribute [items]. *)
Definition items (o : PyObject) : Exn + list (Filter.SourceType * list string) :=
  match o with
  | PyDict d => inr d
  | PyStr _ => inl AttributeError
  end.

(** [x in o] for a list element [o]. *)
Definition py_in (x : PyObject) (l : list string) : bool :=
  match x with
  | PyStr s => bool_decide (s ∈ l)
  | PyDict _ => false
  end.

(** The module-level dictionary [source_alias]. *)
Definition source_alias : PyObject := PyDict Filter.SOURCE_ALIASES.

Fixpoint alias_loop (s : Filter.State) (event : MessageEvent) (source_alias : PyObject)
    (its : list (Filter.SourceType * list string)) : bool :=
  match its with
  | (source, aliases) :: rest =>
      if py_in source_alias aliases
      then Filter.is_not_in_disabled_groups_by_source s event source
      else alias_loop s event source_alias rest
  | [] => true
  end.

(** [is_not_in_disabled_groups_by_source_alias(event, source_alias)]: the
    parameter is named like the module-level dictionary, so every
    [source_alias] of the body is the parameter. *)
Definition is_not_in_disabled_groups_by_source_alias (s : Filter.State)
    (event : MessageEvent) (source_alias : string) : Exn + bool :=
  let source_alias := PyStr source_alias in
  match items source_alias with
  | inl e => inl e
  | inr its => inr (alias_loop s event source_alias its)
  end.

(** [FilterConfig.model_validate_json] of the older model: its
    [filter_dict] defaults to the empty dictionary. *)
Definition FilterConfig_validate (j : Json.value) : option Filter.FilterConfig :=
  match j with
  | Json.Obj fields =>
      d ← match Json.field "filter_dict" fields with
          | Some o => Filter.filter_dict_validate o
          | None => Some ∅
          end;
      a ← Filter.int_list_field "do_not_download_media_groups" fields;
      b ← Filter.int_list_field "bili_auto_download_when_disabled_groups" fields;
      Some {| Filter.filter_dict := d;
              Filter.do_not_download_media_groups := a;
              Filter.bili_auto_download_when_disabled_groups := b |}
  | _ => None
  end.

(** [load_filter_config()] (lines 50-54): a missing file is created with
    [json.dumps({})]; the validation error of the document is not caught. *)
Definition load_filter_config (st : Filter.Store) : (Exn + Filter.FilterConfig) * Filter.Store :=
  let st := match Filter.FILTER_CONFIG_FILE st with
            | None => {| Filter.DISABLED_GROUPS := Filter.DISABLED_GROUPS st;
                         Filter.FILTER_CONFIG_FILE := Some (Json.Obj []) |}
            | Some _ => st
            end in
  match Filter.FILTER_CONFIG_FILE st ≫= FilterConfig_validate with
  | Some config => (inr config, st)
  | None => (inl ValidationError, st)
  end.

(** The import of the older module (lines 65-67). Its
    [load_or_initialize_set] and [save_disabled_groups] are those of the
    newer one, and so are its command handlers (lines 118-274), which
    write [source_alias[...]] for [SOURCE_ALIASES[...]] and
    [if k not in d: d[k] = FilterItem()] for [d.setdefault(k, FilterItem())]. *)
Definition import_module (st : Filter.Store) : Exn + Filter.State * Filter.Store :=
  let '(loaded, st) := Filter.load_or_initialize_set st in
  match loaded with
  | inl e => inl e
  | inr g =>
      let '(loaded, st) := load_filter_config st in
      match loaded with
      | inl e => inl e
      | inr config =>
          inr ({| Filter.disabled_group_set := g; Filter.filter_config := config |}, st)
      end
  end.

End FilterOld.

(** ** matchers/bilibili.py: the rules of the two matchers (lines 34-60) *)

Module Rules.

Import Host.

(** The rule of the matcher [bilibili]:
    [is_not_in_disabled_groups_by_bilibili & r_keywords(...) &
     is_not_in_disabled_groups]. The rule [r_keywords] comes from
    [.preprocess]; [keyword_found] is its answer for the event. *)
Definition bilibili_rule (s : Filter.State) (keyword_found : bool) (event : MessageEvent)
  : bool :=
  Filter.is_not_in_disabled_groups_by_bilibili s event
  && keyword_found
  && Filter.is_not_in_disabled_groups s event.

(** [bili_auto_download_rule(event)]: B站解析关闭但开启自动下载的规则. *)
Definition bili_auto_download_rule (s : Filter.State) (event : MessageEvent) : bool :=
  negb (Filter.is_not_in_disabled_groups_by_bilibili s event)
  && Filter.is_in_bili_auto_download_when_disabled_groups s event
  && Filter.is_not_in_disabled_groups s event
  && Filter.is_not_in_do_not_download_media_groups s event.

(** The rule of the matcher [bilibili_auto_download]:
    [bili_auto_download_rule & r_keywords(...)]. *)
Definition bilibili_auto_download_rule (s : Filter.State) (keyword_found : bool)
    (event : MessageEvent) : bool :=
  bili_auto_download_rule s event && keyword_found.

End Rules.

(** ** Coroutines over an interface of awaited calls *)

Module Coro.

Import Host.

(** A coroutine as a tree of its awaited calls, over the interface [Op]
    of the coroutines it awaits. *)
Inductive Prog (Op : Type -> Type) (A : Type) : Type :=
| Done (a : A)
| Fail (e : Exn)
| Call {X : Type} (op : Op X) (k : X + Exn -> Prog Op A).
Arguments Done {Op A} a.
Arguments Fail {Op A} e.
Arguments Call {Op A X} op k.

Fixpoint bind {Op A B} (p : Prog Op A) (f : A -> Prog Op B) : Prog Op B :=
  match p with
  | Done a => f a
  | Fail e => Fail e
  | Call op k => Call op (fun r => bind (k r) f)
  end.

#[global] Instance prog_ret {Op} : MRet (Prog Op) := fun A a => Done a.
#[global] Instance prog_bind {Op} : MBind (Prog Op) := fun A B f p => bind p f.

Definition await {Op : Type -> Type} {X} (op : Op X) : Prog Op X :=
  Call op (fun r => match r with inl x => Done x | inr e => Fail e end).

(** The world of a run: what each awaited call answers, by its position
    in the run. *)
Definition World (Op : Type -> Type) : Type := forall X, Op X -> nat -> X + Exn.

Inductive Made (Op : Type -> Type) : Type :=
| Awaited {X : Type} (op : Op X) (reply : X + Exn).
Arguments Awaited {Op X} op reply.

(** The calls of a run, and how it ends. *)
Fixpoint run {Op A} (w : World Op) (p : Prog Op A) (n : nat)
  : list (Made Op) * (Exn + A) :=
  match p with
  | Done a => ([], inr a)
  | Fail e => ([], inl e)
  | Call op k =>
      let r := w _ op n in
      let '(calls, result) := run w (k r) (S n) in
      (Awaited op r :: calls, result)
  end.

(** [leaves Q E p]: every value [p] returns satisfies [Q], and every
    exception it raises is in [E] or was raised into it by a call. *)
Fixpoint leaves {Op A} (Q : A -> Prop) (E : Exn -> Prop) (p : Prog Op A) : Prop :=
  match p with
  | Done a => Q a
  | Fail e => E e
  | Call _ k => forall r, leaves Q (fun e => E e \/ r = inr e) (k r)
  end.

End Coro.

(** ** matchers/bilibili.py: [handle_non_video_content] (lines 201-279) *)

Module NonVideo.

Import Host Coro.
Local Open Scope string_scope.

(** A message: a sequence of segments. A [str] is the message of one
    text segment (CQ codes inside a text are not interpreted);
    [get_img_seg(path) + text] is an image followed by a text. *)
Abbreviation Message := (list Segment).

(** The coroutines the function awaits: the four parsers, the downloads
    and the two ways of sending. *)
Inductive Op : Type -> Type :=
| parse_opus (opus_id : Z) : Op (list string * string)
| parse_live (room_id : Z) : Op (string * string * string)
| parse_read (read_id : Z) : Op (list string * list string)
| parse_favlist (fav_id : Z) : Op (list string * list string)
| bilibili_send (message : Message) : Op unit
| download_imgs_without_raise (urls : list string) : Op (list string)
| download_img (url : string) : Op string
| send_segments (segs : list Message) : Op unit.

(** [/(\d+)], [read/cv(\d+)] and [favlist\?fid=(\d+)] *)
Definition number : Py.regex := Py.Group 1 (Py.Rep Py.is_digit 1 None).
Definition pattern_id : Py.regex := Py.Seq (Py.Lit "/") number.
Definition pattern_read : Py.regex := Py.Seq (Py.Lit "read/cv") number.
Definition pattern_favlist : Py.regex := Py.Seq (Py.Lit "favlist?fid=") number.

(** [int(matched.group(1))] *)
Definition int_group1 (matched : Py.Match) : Prog Op Z :=
  match Py.int (Py.str (Py.group1 matched)) with
  | Some n => Done n
  | None => Fail ValueError
  end.

(** [paths.pop()]: the last item and the list without it; [None] is the
    [IndexError] of an empty list. *)
Definition pop (paths : list string) : option (string * list string) :=
  match reverse paths with
  | [] => None
  | path :: rest => Some (path, reverse rest)
  end.

Definition IndexError : Exn := OtherException "IndexError".

(** The loop of the branch 专栏:
    [for text in texts: segs.append(text if text else get_img_seg(paths.pop()))]. *)
Fixpoint read_loop (texts : list string) (paths : list string) (segs : list Message)
  : Exn + list Message :=
  match texts with
  | [] => inr segs
  | text :: texts =>
      if negb (String.eqb text "") then read_loop texts paths (segs ++ [[Text text]])
      else match pop paths with
           | Some (path, paths) => read_loop texts paths (segs ++ [[ImgSeg path]])
           | None => inl IndexError
           end
  end.

(** [for path, text in zip(paths, texts): segs.append(get_img_seg(path) + text)] *)
Definition favlist_segs (paths texts : list string) : list Message :=
  (fun pt => [ImgSeg pt.1; Text pt.2]) <$> zip paths texts.

Section Handler.

Variable cfg : Config.

Definition pub_prefix : string := NICKNAME cfg +:+ "解析 | 哔哩哔哩 - ".

(** [handle_non_video_content(url)]: 处理非视频内容（动态、直播、专栏、收藏夹）. *)
Definition handle_non_video_content (url : string) : Prog Op bool :=
  (* 动态 *)
  if Py.contains "t.bilibili.com" url || Py.contains "/opus" url then
    match Py.search pattern_id url with
    | None => Done false
    | Some matched =>
        opus_id ← int_group1 matched;
        '(img_lst, text) ← await (parse_opus opus_id);
        await (bilibili_send [Text (pub_prefix +:+ "动态")]);;
        segs ← match img_lst with
               | [] => Done [[Text text]]
               | _ =>
                   paths ← await (download_imgs_without_raise img_lst);
                   Done ([Text text] :: ((fun path => [ImgSeg path]) <$> paths))
               end;
        await (send_segments segs);;
        Done true
    end
  (* 直播间 *)
  else if Py.contains "/live" url then
    match Py.search pattern_id url with
    | None => Done false
    | Some matched =>
        room_id ← int_group1 matched;
        '(title, cover, keyframe) ← await (parse_live room_id);
        if String.eqb title "" then
          await (bilibili_send [Text (pub_prefix +:+ "直播 - 未找到直播间信息")]);;
          Done true
        else
          let res : Message := [Text (pub_prefix +:+ "直播 " +:+ title)] in
          res ← (if negb (String.eqb cover "")
                 then path ← await (download_img cover); Done (List.app res [ImgSeg path])
                 else Done res);
          res ← (if negb (String.eqb keyframe "")
                 then path ← await (download_img keyframe);
                      Done (List.app (res : Message) [ImgSeg path])
                 else Done res);
          await (bilibili_send res);;
          Done true
    end
  (* 专栏 *)
  else if Py.contains "/read" url then
    match Py.search pattern_read url with
    | None => Done false
    | Some matched =>
        read_id ← int_group1 matched;
        '(texts, urls) ← await (parse_read read_id);
        await (bilibili_send [Text (pub_prefix +:+ "专栏")]);;
        paths ← await (download_imgs_without_raise urls);
        let paths := reverse paths in
        match read_loop texts paths [] with
        | inl e => Fail e
        | inr segs =>
            match segs with
            | [] => Done true
            | _ => await (send_segments segs);; Done true
            end
        end
    end
  (* 收藏夹 *)
  else if Py.contains "/favlist" url then
    match Py.search pattern_favlist url with
    | None => Done false
    | Some matched =>
        fav_id ← int_group1 matched;
        '(texts, urls) ← await (parse_favlist fav_id);
        await (bilibili_send
                 [Text (pub_prefix +:+ "收藏夹" +:+ String "010" "正在为你找出相关链接请稍等...")]);;
        paths ← await (download_imgs_without_raise urls);
        await (send_segments (favlist_segs paths texts));;
        Done true
    end
  else Done false.

End Handler.

(** The texts of an article with the downloaded images in their places:
    the i-th empty text is the i-th image. *)
Fixpoint in_order (texts paths : list string) : option (list Message) :=
  match texts with
  | [] => Some []
  | text :: texts =>
      if negb (String.eqb text "") then cons [Text text] <$> in_order texts paths
      else match paths with
           | path :: paths => cons [ImgSeg path] <$> in_order texts paths
           | [] => None
           end
  end.

(** A program that returns [False] only when it has made no call, and
    [True] only after a call. *)
Fixpoint false_is_silent (called : bool) (p : Prog Op bool) : Prop :=
  match p with
  | Done b => b = called
  | Fail _ => True
  | Call _ k => forall r, false_is_silent true (k r)
  end.

End NonVideo.

(** ** matchers/bilibili.py: the command [bm] (lines 404-433) *)

Module Music.

Import Host Coro.
Local Open Scope string_scope.

(** The coroutines the handler awaits, and the test of the cache file.
    [finish] sends its message; [send_record] and [send_file] are
    [bili_music.send] of [get_record_seg(audio_path)] and of
    [get_file_seg(audio_path)]. *)
Inductive Op : Type -> Type :=
| finish (message : string) : Op unit
| call_api_set_msg_emoji_like (message_id : Z) (emoji_id : string) : Op unit
| parse_video_info (bvid : string) (page_num : Z) : Op VideoInfo
| path_exists (path : string) : Op bool
| download_file_by_stream (url file_name : string) : Op string
| send_record (path : string) : Op unit
| send_file (path : string) : Op unit.

Definition ParseException : Exn := OtherException "ParseException".

(** [$]: the end of the text, or the newline that ends it. *)
Definition at_end (rest : string) : bool :=
  String.eqb rest "" || String.eqb rest (String "010" "").

(** [re.match(r"^(BV[1-9a-zA-Z]{10})(?:\s)?(\d{1,3})?$", text)] *)
Definition match_command (text : string) : option Py.Match :=
  Py.match_re Bilibili.pattern_BV text {| Py.cap1 := None; Py.cap2 := None |}
    (fun rest c =>
       if at_end rest
       then Some {| Py.group0 := Py.consumed text rest;
                    Py.group1 := Py.cap1 c; Py.group2 := Py.cap2 c |}
       else None).

Definition usage : string := "命令格式: bm BV1LpD3YsETa [集数](中括号表示可选)".

Section Handler.

Variable cfg : Config.
Variable NEED_UPLOAD : bool.
Variable keep_zh_en_num : string -> string.

(** The handler from the description of the video on: the audio file in
    the cache, its download and the two messages. *)
Definition send_audio (video_info : VideoInfo) : Prog Op unit :=
  if String.eqb (audio_url video_info) "" then Fail ParseException
  else
    (* 音频文件名 *)
    let video_title := keep_zh_en_num (title video_info) in
    let audio_name := video_title +:+ ".mp3" in
    let audio_path := plugin_cache_dir cfg +:+ "/" +:+ audio_name in
    (* 下载 *)
    found ← await (path_exists audio_path);
    (if (found : bool) then Done tt
     else await (download_file_by_stream (audio_url video_info) audio_name);; Done tt);;
    (* 发送音频 *)
    await (send_record audio_path);;
    (* 上传音频 *)
    if NEED_UPLOAD then await (send_file audio_path) else Done tt.

(** [p_num = int(p_num) if p_num else 1] *)
Definition page_number (p_num : option string) : Prog Op Z :=
  match p_num with
  | None | Some "" => Done 1
  | Some p_num =>
      match Py.int p_num with
      | Some n => Done n
      | None => Fail ValueError
      end
  end.

(** The handler of [bili_music]; [plain_text] is
    [args.extract_plain_text()] and [message_id] is [event.message_id].
    The decorator [handle_exception] wraps the coroutine from outside and
    is not part of this body. *)
Definition bili_music_handle (message_id : Z) (plain_text : string) : Prog Op unit :=
  let text := Py.strip plain_text in
  match match_command text with
  | None =>
      await (finish usage);;
      Fail FinishedException
  | Some matched =>
      (* 回应用户 *)
      await (call_api_set_msg_emoji_like message_id "282");;
      let bvid := Py.str (Py.group1 matched) in
      (* 处理分 p *)
      p_num ← page_number (Py.group2 matched);
      video_info ← await (parse_video_info bvid p_num);
      send_audio video_info
  end.

End Handler.

(** The arguments the command accepts: a BV identifier, then nothing, or
    one to three digits with or without one whitespace character before
    them; [page] is the number the digits write, 1 without digits. *)
Definition argument (text bvid : string) (page : Z) : Prop :=
  Bilibili.is_bvid bvid = true /\
  ((text = bvid /\ page = 1) \/
   exists sep digits,
     text = bvid +:+ sep +:+ digits /\
     (sep = "" \/ exists a, Py.is_space a = true /\ sep = String a "") /\
     (1 <= String.length digits <= 3)%nat /\
     Py.all_in Py.is_digit digits = true /\
     Py.int digits = Some page).

Definition is_download (c : Made Op) : bool :=
  match c with
  | Awaited (download_file_by_stream _ _) _ => true
  | _ => false
  end.

End Music.

(** ** A sample world, for the runs on concrete inputs *)

Module Sample.
Import Dedup Host Bilibili Loop.
Local Open Scope string_scope.

Definition cfg : Config :=
  {| DURATION_MAXIMUM := 600; NICKNAME := "bot"; plugin_cache_dir := "/cache" |}.

Definition info (duration : Z) : VideoInfo :=
  {| title := "title"; cover_url := "https://i0.hdslb.com/cover.jpg";
     display_info := "info"; ai_summary := "summary";
     video_duration := duration;
     video_url := "https://upos/video.m4s"; audio_url := "https://upos/audio.m4s" |}.

(** A world in which every external coroutine succeeds; the parser
    describes a video of the given duration. *)
Definition all_well (duration : Z) : forall X, Ext X -> X + Exn :=
  fun X op =>
    match op in Ext X return X + Exn with
    | get_redirect_url _ => inl "https://www.bilibili.com/video/BV1xx411c7mD?p=2"
    | handle_non_video_content _ => inl true
    | send _ _ => inl tt
    | send_segments _ => inl tt
    | parse_video_info _ _ => inl (info duration)
    | download_img _ => inl "/cache/cover.jpg"
    | gather_download_file_by_stream _ _ => inl ("/cache/v.m4s", "/cache/a.m4s")
    | merge_av _ _ _ => inl tt
    | download_video _ _ => inl "/cache/video.mp4"
    | encode_video_to_h264 _ => inl "/cache/h264.mp4"
    end.

(** The same world, except that the metadata fetch fails. *)
Definition fetch_fails : forall X, Ext X -> X + Exn :=
  fun X op =>
    match op in Ext X return X + Exn with
    | parse_video_info _ _ => inr (OtherException "ParseException")
    | op => all_well 0 _ op
    end.

Definition env_of (reply : forall X, Ext X -> X + Exn) (clock : nat -> Q) : Env :=
  {| answer := fun X op _ => reply X op;
     time_time := clock;
     path_exists := fun _ _ => false |}.

Definition idle : Shared := {| last_processed := ∅; processing_locks := ∅ |}.

Definition key : ResourceKey := (7, "BV1xx411c7mD").

(** Task [tid] runs its next effect at clock [t]. *)
Definition at_ (t : Z) (reply : forall X, Ext X -> X + Exn) (tid : nat) : Label :=
  {| who := tid; reply := reply; now := inject_Z t; on_disk := fun _ => false |}.

Definition group_message : MessageEvent := GroupMessageEvent 7 42.

Definition auto_invocation : Invocation :=
  {| matcher := bilibili_auto_download; event := group_message;
     text := "BV1xx411c7mD"; keyword := "BV" |}.
Definition full_invocation : Invocation :=
  {| matcher := bilibili; event := group_message;
     text := "BV1xx411c7mD"; keyword := "BV" |}.

(** Task [tid] runs [n] effects in a row at clock [t]. *)
Definition runs (n : nat) (t : Z) (reply : forall X, Ext X -> X + Exn) (tid : nat)
  : list Label :=
  replicate n (at_ t reply tid).

(** Two [bilibili_auto_download] invocations for the same key and a video
    of 500 seconds. The first checks, acquires, double-checks and marks at
    clock 1000, gets the metadata, finds no cached file and awaits the
    download of the streams. The second arrives at clock 1300, while the
    download is still going on: it checks and reaches the lock. *)
Definition second_arrives_late : list Label :=
  runs 6 1000 (all_well 500) 0 ++ runs 2 1300 (all_well 500) 1.

(** Then the download, the merge and the upload of the first end at clock
    1301 and it releases the lock; the second resumes: acquisition, double
    check, mark. *)
Definition first_leaves_second_resumes : list Label :=
  runs 4 1301 (all_well 500) 0 ++ runs 3 1301 (all_well 500) 1.

(** The same arrival times for two [bilibili] invocations: the first
    checks, probes, acquires, double-checks and marks, sends the prefix,
    the metadata and the cover, and awaits the download; the second checks
    and probes. *)
Definition second_arrives_late_full : list Label :=
  runs 10 1000 (all_well 500) 0 ++ runs 2 1300 (all_well 500) 1.

(** One [bilibili_auto_download] invocation whose metadata fetch raises:
    four effects up to the mark, the failed fetch, the release. *)
Definition fetch_raises : list Label :=
  runs 4 1000 fetch_fails 0 ++ runs 2 1001 fetch_fails 0.

(** A clock that advances one second per event from 1000. *)
Definition clock (n : nat) : Q := inject_Z (1000 + Z.of_nat n).


(** A filter state with an entry for every source, and an empty store. *)
Definition filter_state : Filter.State :=
  {| Filter.disabled_group_set := {[ 7; 8 ]};
     Filter.filter_config :=
       {| Filter.filter_dict :=
            <[Filter.bilibili := {| Filter.disabled_groups := [7; 9] |}]>
              (Filter.filter_dict Filter.FilterConfig_default);
          Filter.do_not_download_media_groups := [8];
          Filter.bili_auto_download_when_disabled_groups := [7] |} |}.

Definition no_files : Filter.Store :=
  {| Filter.DISABLED_GROUPS := None; Filter.FILTER_CONFIG_FILE := None |}.

(** The globals and the files after the first import of the newer
    module, and the globals of the older one. *)
Definition first_import : Filter.State * Filter.Store :=
  ({| Filter.disabled_group_set := ∅; Filter.filter_config := Filter.FilterConfig_default |},
   {| Filter.DISABLED_GROUPS := Some (Json.Arr []);
      Filter.FILTER_CONFIG_FILE := Some (Filter.FilterConfig_dump Filter.FilterConfig_default) |}).

Definition first_import_old : Filter.State * Filter.Store :=
  ({| Filter.disabled_group_set := ∅;
      Filter.filter_config :=
        {| Filter.filter_dict := ∅;
           Filter.do_not_download_media_groups := [];
           Filter.bili_auto_download_when_disabled_groups := [] |} |},
   {| Filter.DISABLED_GROUPS := Some (Json.Arr []);
      Filter.FILTER_CONFIG_FILE := Some (Json.Obj []) |}).

(** A session of commands in the groups 7 and 8. *)
Definition commands : list Filter.Command :=
  [ Filter.Disable 7 "b站"; Filter.EnableBiliAutoDownload 7; Filter.DisableDownload 8;
    Filter.Disable 8 ""; Filter.Enable 7 "bilibili"; Filter.EnableAll ].


End Sample.

(** * Properties *)

(** ** The rate/dedup table *)

Section DedupFacts.

Import Dedup.

Implicit Types (lp : gmap ResourceKey Q) (k : ResourceKey) (ks : list ResourceKey).

Lemma Qlt_bool_true a b : Qlt_bool a b = true <-> (a < b)%Q.
Proof.
  unfold Qlt_bool. rewrite negb_true_iff, <- not_true_iff_false, Qle_bool_iff.
  split; [apply Qnot_le_lt | apply Qlt_not_le].
Qed.

Lemma Qlt_bool_false a b : Qlt_bool a b = false <-> (b <= a)%Q.
Proof.
  unfold Qlt_bool. rewrite negb_false_iff. apply Qle_bool_iff.
Qed.

Lemma lookup_delete_all ks lp k :
  delete_all ks lp !! k = if decide (k ∈ ks) then None else lp !! k.
Proof.
  unfold delete_all. revert lp.
  induction ks as [|k' ks IH]; intros lp; cbn [foldl].
  - by rewrite decide_False by set_solver.
  - rewrite IH. destruct (decide (k ∈ ks)) as [Hin|Hnin].
    + by rewrite decide_True by set_solver.
    + destruct (decide (k = k')) as [->|Hne].
      * rewrite lookup_delete_eq. by rewrite decide_True by set_solver.
      * rewrite lookup_delete_ne by done. rewrite decide_False; [done|].
        intros [?|?]%elem_of_cons; done.
Qed.

Lemma elem_of_expired_keys now lp k :
  k ∈ expired_keys now lp <->
  exists t, lp !! k = Some t /\ Qgt_bool (now - t) RATE_LIMIT_SECONDS = true.
Proof.
  unfold expired_keys. rewrite list_elem_of_fmap. split.
  - intros [[k' t] [-> [H1 H2]%list_elem_of_filter]].
    apply elem_of_map_to_list in H2. eauto.
  - intros (t & H1 & H2). exists (k, t). split; [done|].
    apply list_elem_of_filter. split; [done | by apply elem_of_map_to_list].
Qed.

(** The sweep at the start of [should_process_video], entry by entry. *)
Lemma lookup_sweep now lp k :
  delete_all (expired_keys now lp) lp !! k =
  match lp !! k with
  | Some t => if Qgt_bool (now - t) RATE_LIMIT_SECONDS then None else Some t
  | None => None
  end.
Proof.
  rewrite lookup_delete_all. case_decide as Hk.
  - apply elem_of_expired_keys in Hk as (t & -> & ->). done.
  - destruct (lp !! k) as [t|] eqn:Hl; [|done].
    destruct (Qgt_bool (now - t) RATE_LIMIT_SECONDS) eqn:Hg; [|done].
    exfalso. apply Hk, elem_of_expired_keys. eauto.
Qed.

Lemma should_process_video_table now g v lp :
  (should_process_video now g v lp).2 = delete_all (expired_keys now lp) lp.
Proof.
  unfold should_process_video. simpl.
  destruct (delete_all _ _ !! _); [destruct (Qlt_bool _ _)|]; done.
Qed.

(** The answer of [should_process_video] from the entry of the key. *)
Lemma should_process_video_answer now g v lp :
  (should_process_video now g v lp).1 =
  match lp !! (g, v) with
  | Some t => negb (Qlt_bool (now - t) RATE_LIMIT_SECONDS)
  | None => true
  end.
Proof.
  unfold should_process_video. simpl. rewrite lookup_sweep.
  destruct (lp !! (g, v)) as [t|]; [|done].
  destruct (Qgt_bool (now - t) RATE_LIMIT_SECONDS) eqn:Hg.
  - simpl. symmetry. apply negb_true_iff, Qlt_bool_false.
    apply Qlt_bool_true in Hg. lra.
  - destruct (Qlt_bool _ _); done.
Qed.

Lemma marked_suppressed now t g v lp :
  lp !! (g, v) = Some t -> (now - t < RATE_LIMIT_SECONDS)%Q ->
  (should_process_video now g v lp).1 = false.
Proof.
  intros Hl Hlt. rewrite should_process_video_answer, Hl.
  apply negb_false_iff, Qlt_bool_true, Hlt.
Qed.

End DedupFacts.

(** ** Runs of one task *)

Section ExecFacts.

Import Dedup Host Loop.

Context (env : Env).

Lemma then_run_log {A B} e (r : Run A) (f : A -> nat -> Shared -> Run B) n :
  then_run (log e r) f n = log e (then_run r f (S n)).
Proof.
  unfold then_run, log; simpl. destruct (outcome r); simpl; try done.
  by rewrite Nat.add_succ_r.
Qed.

Lemma exec_bind {A B} (t : Task A) (f : A -> Task B) n sh :
  exec env (bind t f) n sh = then_run (exec env t n sh) (fun a => exec env (f a)) n.
Proof.
  revert n sh.
  induction t as [a|e|X op k IH|p k IH|g v k IH|g v k IH|key k IH|key k IH|key k IH];
    intros n sh; simpl.
  - unfold then_run; simpl. rewrite Nat.add_0_r. by destruct (exec env (f a) n sh).
  - done.
  - by rewrite IH, then_run_log.
  - by rewrite IH, then_run_log.
  - destruct (Dedup.should_process_video _ _ _ _) as [ok lp].
    by rewrite IH, then_run_log.
  - by rewrite IH, then_run_log.
  - by rewrite IH, then_run_log.
  - destruct (can_take _); [|done]. by rewrite IH, then_run_log.
  - destruct (locked _); [|done]. by rewrite IH, then_run_log.
Qed.

Lemma finally_run_log {A} e (r : Run A) fin n :
  finally_run (log e r) fin n = log e (finally_run r fin (S n)).
Proof.
  unfold finally_run, log; simpl.
  destruct (outcome r); simpl; try done; by rewrite Nat.add_succ_r.
Qed.

Lemma exec_mbind {A B} (t : Task A) (f : A -> Task B) n sh :
  exec env (t ≫= f) n sh = then_run (exec env t n sh) (fun a => exec env (f a)) n.
Proof. apply exec_bind. Qed.

Lemma exec_try_finally {A} (t : Task A) (fin : Task unit) n sh :
  exec env (try_finally t fin) n sh = finally_run (exec env t n sh) (exec env fin) n.
Proof.
  revert n sh.
  induction t as [a|e|X op k IH|p k IH|g v k IH|g v k IH|key k IH|key k IH|key k IH];
    intros n sh; simpl.
  - rewrite exec_bind. unfold then_run, finally_run; simpl. rewrite Nat.add_0_r.
    destruct (outcome (exec env fin n sh)); simpl; try done.
    by rewrite app_nil_r.
  - rewrite exec_bind. unfold then_run, finally_run; simpl. rewrite Nat.add_0_r.
    destruct (outcome (exec env fin n sh)); simpl; try done.
    by rewrite app_nil_r.
  - by rewrite IH, finally_run_log.
  - by rewrite IH, finally_run_log.
  - destruct (Dedup.should_process_video _ _ _ _) as [ok lp].
    by rewrite IH, finally_run_log.
  - by rewrite IH, finally_run_log.
  - by rewrite IH, finally_run_log.
  - destruct (can_take _); [|done]. by rewrite IH, finally_run_log.
  - destruct (locked _); [|done]. by rewrite IH, finally_run_log.
Qed.

(** A task of external effects leaves the globals alone, logs only
    external events, and is never blocked. *)
Lemma exec_io_only {A} (t : Task A) n sh :
  io_only t ->
  final (exec env t n sh) = sh /\
  Forall (fun e => is_io e = true) (trace (exec env t n sh)) /\
  (forall key, outcome (exec env t n sh) <> Blocked key).
Proof.
  revert n.
  induction t as [a|e|X op k IH|p k IH|g v k IH|g v k IH|key k IH|key k IH|key k IH];
    intros n Hio; simpl in *; try done.
  - destruct (IH _ (S n) (Hio (answer env X op n))) as (? & ? & ?).
    repeat split; [done | by constructor | done].
  - destruct (IH _ (S n) (Hio (path_exists env p n))) as (? & ? & ?).
    repeat split; [done | by constructor | done].
Qed.

Lemma io_only_bind {A B} (t : Task A) (f : A -> Task B) :
  io_only t -> (forall a, io_only (f a)) -> io_only (bind t f).
Proof.
  intros Ht Hf.
  induction t as [a|e|X op k IH|p k IH|g v k IH|g v k IH|key k IH|key k IH|key k IH];
    simpl in *; try done; intros; eauto.
Qed.

Lemma io_only_try_except {A} (t : Task A) (h : Exn -> Task A) :
  io_only t -> (forall e, io_only (h e)) -> io_only (try_except t h).
Proof.
  intros Ht Hh.
  induction t as [a|e|X op k IH|p k IH|g v k IH|g v k IH|key k IH|key k IH|key k IH];
    simpl in *; try done; intros; eauto.
Qed.

Lemma io_only_await {X} (op : Ext X) : io_only (await op).
Proof. intros [x|e]; exact I. Qed.

End ExecFacts.

(** ** The handlers run alone *)

Section HandlerFacts.

Import Dedup Host Bilibili Loop.

Context (cfg : Config) (env : Env).

Lemma io_only_int_or_raise s : io_only (int_or_raise s).
Proof. unfold int_or_raise. by destruct (Py.int s). Qed.

Lemma io_only_get_video_info ty v page : io_only (get_video_info ty v page).
Proof.
  unfold get_video_info. destruct (String.eqb ty "av").
  - apply io_only_bind; [apply io_only_int_or_raise | intros; apply io_only_await].
  - apply io_only_await.
Qed.

Lemma io_only_send_video m p : io_only (send_video m p).
Proof.
  unfold send_video. apply io_only_try_except; [apply io_only_await|].
  intros []; try exact I.
  destruct (negb _); [exact I|].
  apply io_only_bind; intros; apply io_only_await.
Qed.

Lemma io_only_download_and_send_video m info v page :
  io_only (download_and_send_video cfg m info v page).
Proof.
  unfold download_and_send_video. destruct (_ <? _); [exact I|].
  apply io_only_bind; [intros b; exact I|]. intros cached.
  apply io_only_bind.
  - destruct (negb cached); [|exact I].
    destruct (negb _); [|apply io_only_await].
    apply io_only_bind; [apply io_only_await|]. intros [v_path a_path].
    apply io_only_bind; [apply io_only_await|]. intros; exact I.
  - intros p. apply io_only_bind; [apply io_only_send_video|]. intros; exact I.
Qed.


(** Both guarded bodies: the double check, the mark, then external work. *)
Lemma bilibili_guarded_shape keyword v page ty g :
  exists work, io_only work /\
    bilibili_guarded cfg keyword v page ty g =
    ShouldProcessVideo g v (fun ok => if negb ok then Ret tt else MarkAsProcessed g v work).
Proof.
  eexists. split; [|reflexivity]. cbn beta.
  apply io_only_bind; [apply io_only_await|]. intros _.
  apply io_only_bind; [apply io_only_get_video_info|]. intros info.
  apply io_only_bind; [apply io_only_await|]. intros cover.
  apply io_only_bind; [apply io_only_await|]. intros _.
  apply io_only_bind; [apply io_only_download_and_send_video|]. intros; exact I.
Qed.

Lemma auto_download_guarded_shape v page ty g :
  exists work, io_only work /\
    auto_download_guarded cfg v page ty g =
    ShouldProcessVideo g v (fun ok => if negb ok then Ret tt else MarkAsProcessed g v work).
Proof.
  eexists. split; [|reflexivity]. cbn beta.
  apply io_only_bind; [apply io_only_get_video_info|]. intros info.
  apply io_only_bind; [apply io_only_download_and_send_video|]. intros; exact I.
Qed.

Lemma can_take_inv lk : can_take lk = true -> lk = new_lock.
Proof.
  destruct lk as [[] [|w ws]]; simpl; try discriminate. done.
Qed.

(** The run of a guarded section entered on a free lock. *)
Lemma exec_section g v (work : Task unit) n sh :
  io_only work ->
  can_take (get_lock (g, v) (processing_locks sh)) = true ->
  let key := (g, v) in
  let r := exec env (async_with_lock key
             (ShouldProcessVideo g v
                (fun ok => if negb ok then Ret tt else MarkAsProcessed g v work))) n sh in
  let t1 := time_time env (S n) in
  let c := Dedup.should_process_video t1 g v (last_processed sh) in
  let released := <[key := new_lock]> (processing_locks sh) in
  if c.1 then
    let t2 := time_time env (S (S n)) in
    let lp2 := Dedup.mark_as_processed t2 g v c.2 in
    exists w, Forall (fun e => is_io e = true) w /\
      trace r = Acquired key :: Checked key t1 true :: Marked key t2 :: w ++ [Released key] /\
      final r = {| last_processed := lp2; processing_locks := released |} /\
      (forall k, outcome r <> Blocked k)
  else
    trace r = [Acquired key; Checked key t1 false; Released key] /\
    final r = {| last_processed := c.2; processing_locks := released |} /\
    outcome r = Returned tt.
Proof.
  intros Hio Hfree; cbn zeta.
  unfold async_with_lock. cbn [exec]. rewrite Hfree.
  apply can_take_inv in Hfree as Hlk. rewrite Hlk.
  rewrite exec_try_finally. cbn [exec].
  destruct (Dedup.should_process_video _ g v _) as [ok lp1] eqn:Hc. simpl fst; simpl snd.
  destruct ok; cbn [negb].
  - cbn [exec].
    match goal with |- context [exec env work ?m ?s] =>
      destruct (exec_io_only env work m s Hio) as (Hfin & Htr & Hnb);
      destruct (exec env work m s) as [w fin o] eqn:Hw end.
    simpl in Hfin, Htr, Hnb. subst fin.
    exists w. split; [done|].
    unfold finally_run, log. simpl.
    unfold get_lock. rewrite lookup_insert_eq. simpl.
    destruct o as [[]|e|k]; simpl.
    + repeat split; try done.
      unfold set_lock, set_last_processed; simpl. by rewrite insert_insert_eq.
    + repeat split; try done.
      unfold set_lock, set_last_processed; simpl. by rewrite insert_insert_eq.
    + by destruct (Hnb k).
  - cbn [exec]. unfold finally_run, log. simpl.
    unfold get_lock. rewrite lookup_insert_eq. simpl.
    repeat split.
    unfold set_lock, set_last_processed; simpl. by rewrite insert_insert_eq.
Qed.



Ltac no_double_check H :=
  let i := fresh "i" in let j := fresh "j" in
  let Hij := fresh in let Hi := fresh in let Hj := fresh in
  destruct H as (i & j & ? & Hij & Hi & Hj); exfalso;
  cbn [trace log] in Hi, Hj;
  repeat (destruct i as [|i]; cbn in Hi; try discriminate Hi);
  repeat (destruct j as [|j]; cbn in Hj; try discriminate Hj; try lia).

(** No lock is acquired during external work. *)
Lemma no_acquire_in_work (w : list Event) key key' i :
  Forall (fun e => is_io e = true) w ->
  (w ++ [Released key]) !! i = Some (Acquired key') -> False.
Proof.
  intros Hw Hi. apply lookup_app_Some in Hi as [Hi|[_ Hi]].
  - eapply Forall_lookup_1 in Hw; [|exact Hi]. discriminate.
  - destruct (i - length w)%nat as [|[|?]]; discriminate.
Qed.

(** The run of a guarded section entered on a free lock, after the events
    [pre] that hold no acquisition. *)
Lemma section_outcome g v (work : Task unit) n sh pre key :
  io_only work ->
  can_take (get_lock (g, v) (processing_locks sh)) = true ->
  Forall (fun e => is_io e = false) pre ->
  (forall i, pre !! i <> Some (Acquired key)) ->
  let r := exec env (async_with_lock (g, v)
             (ShouldProcessVideo g v
                (fun ok => if negb ok then Ret tt else MarkAsProcessed g v work))) n sh in
  let r' := {| trace := pre ++ trace r; final := final r; outcome := outcome r |} in
  passes_double_check key r' -> marked_before_work key r'.
Proof.
  intros Hio Hfree Hpre Hnoacq r r' Hpass.
  pose proof (exec_section g v work n sh Hio Hfree) as Hs. cbn zeta in Hs.
  fold r in Hs.
  destruct ((Dedup.should_process_video (time_time env (S n)) g v (last_processed sh)).1)
    eqn:Hok.
  - destruct Hs as (w & Hw & Htr & Hfin & _).
    assert (key = (g, v)) as ->.
    { destruct Hpass as (i & j & now & _ & Hi & _). subst r'. cbn [trace] in Hi.
      apply lookup_app_Some in Hi as [Hi|[_ Hi]]; [by destruct (Hnoacq i)|].
      rewrite Htr in Hi.
      destruct (i - length pre)%nat as [|[|[|i']]]; cbn in Hi;
        [by inversion Hi|discriminate|discriminate|].
      by destruct (no_acquire_in_work _ _ _ _ Hw Hi). }
    exists (pre ++ [Acquired (g, v); Checked (g, v) (time_time env (S n)) true]),
           (time_time env (S (S n))), w.
    subst r'. cbn [trace final]. rewrite Htr, Hfin. cbn [last_processed].
    assert (Hl : Dedup.mark_as_processed (time_time env (S (S n))) g v
              (Dedup.should_process_video (time_time env (S n)) g v (last_processed sh)).2
              !! (g, v) = Some (time_time env (S (S n))))
      by apply lookup_insert_eq.
    split; [|split; [|split; [|split]]].
    + by rewrite <- app_assoc.
    + apply Forall_app. split; [|by repeat constructor].
      eapply Forall_impl; [exact Hpre|]. intros; by left.
    + done.
    + done.
    + intros now Hnow. eapply marked_suppressed; eauto.
  - destruct Hs as (Htr & _). exfalso.
    destruct Hpass as (i & j & now & Hij & Hi & Hj). subst r'. cbn [trace] in Hi, Hj.
    rewrite Htr in Hi, Hj.
    apply lookup_app_Some in Hi as [Hi|[Hle Hi]]; [by destruct (Hnoacq i)|].
    apply lookup_app_Some in Hj as [Hj|[_ Hj]]; [apply lookup_lt_Some in Hj; lia|].
    destruct (i - length pre)%nat as [|[|[|i']]] eqn:Ei; cbn in Hi; try discriminate.
    destruct (j - length pre)%nat as [|[|[|j']]] eqn:Ej; cbn in Hj; discriminate.
Qed.

Lemma flow_bilibili n sh event keyword video_id page_num video_type key :
  let r := exec env (bilibili_video cfg event keyword video_id page_num video_type) n sh in
  passes_double_check key r -> marked_before_work key r.
Proof.
  cbn zeta. set (g := group_id_of event). intros Hpass.
  unfold bilibili_video, should_process_video, is_processing in *. fold g in Hpass |- *.
  destruct (bilibili_guarded_shape keyword video_id page_num video_type g)
    as (work & Hio & Heq).
  rewrite Heq in *. clear Heq.
  cbn [mbind task_bind bind exec] in *.
  destruct (Dedup.should_process_video (time_time env n) g video_id (last_processed sh))
    as [ok lp0] eqn:Hc0.
  destruct ok; cbn [negb] in *; [|no_double_check Hpass].
  cbn [mbind task_bind bind exec] in *.
  destruct (is_locked _ _) eqn:Hlocked; [no_double_check Hpass|].
  destruct (can_take (get_lock (g, video_id) (processing_locks (set_last_processed lp0 sh))))
    eqn:Hfree.
  2: { unfold async_with_lock in Hpass. cbn [exec] in Hpass. rewrite Hfree in Hpass.
       no_double_check Hpass. }
  apply (section_outcome g video_id work (S (S n)) (set_last_processed lp0 sh)
           [Checked (g, video_id) (time_time env n) true; Probed (g, video_id) false]);
    try done.
  - by repeat constructor.
  - intros [|[|[|i]]]; discriminate.
Qed.

Lemma flow_auto_download n sh event video_id page_num video_type key :
  let r := exec env (auto_download_video cfg event video_id page_num video_type) n sh in
  passes_double_check key r -> marked_before_work key r.
Proof.
  cbn zeta. set (g := group_id_of event). intros Hpass.
  unfold auto_download_video, should_process_video in *. fold g in Hpass |- *.
  destruct (auto_download_guarded_shape video_id page_num video_type g)
    as (work & Hio & Heq).
  rewrite Heq in *. clear Heq.
  cbn [mbind task_bind bind exec] in *.
  destruct (Dedup.should_process_video (time_time env n) g video_id (last_processed sh))
    as [ok lp0] eqn:Hc0.
  destruct ok; cbn [negb] in *; [|no_double_check Hpass].
  destruct (can_take (get_lock (g, video_id) (processing_locks (set_last_processed lp0 sh))))
    eqn:Hfree.
  2: { unfold async_with_lock in Hpass. cbn [exec] in Hpass. rewrite Hfree in Hpass.
       no_double_check Hpass. }
  apply (section_outcome g video_id work (S n) (set_last_processed lp0 sh)
           [Checked (g, video_id) (time_time env n) true]);
    try done.
  - by repeat constructor.
  - intros [|[|i]]; discriminate.
Qed.


(** The reference is parsed without touching the globals; the only
    external call is the redirect resolution. *)
Lemma parse_run text keyword n sh :
  let r := exec env (parse_video_id_from_text text keyword) n sh in
  final r = sh /\
  Forall (fun e => resolves_link e = true) (trace r) /\
  (forall k, outcome r <> Blocked k).
Proof.
  cbn zeta. unfold parse_video_id_from_text.
  destruct (PATTERNS_get keyword) as [pattern|]; [|by repeat split].
  destruct (Py.search pattern text) as [matched|]; [|by repeat split].
  rewrite exec_mbind.
  assert (Hpage : forall url pn m sh',
    let r := exec env (parse_page_num url pn) m sh' in
    final r = sh' /\ trace r = [] /\ forall k, outcome r <> Blocked k).
  { intros url pn m sh'. cbn zeta. unfold parse_page_num. rewrite exec_mbind.
    assert (Hint : forall s m', exec env (int_or_raise s) m' sh' =
              {| trace := []; final := sh';
                 outcome := match Py.int s with Some z => Returned z | None => Raised ValueError end |}).
    { intros s m'. unfold int_or_raise. by destruct (Py.int s). }
    unfold then_run.
    destruct pn as [[|c s]|]; cbn [exec outcome trace final];
      try rewrite Hint; cbn [exec outcome trace final];
      repeat match goal with
      | |- context [int_or_raise ?s] => rewrite Hint; cbn [exec outcome trace final]
      | |- context [Py.int ?s] => destruct (Py.int s); cbn [exec outcome trace final]
      | |- context [match ?x with _ => _ end] => destruct x eqn:?; cbn [exec outcome trace final]
      end; by repeat split. }
  assert (Hrest : forall url m sh',
    let r := exec env
       (let '(video_id, video_type) := rescan_url keyword url (Py.str (Py.group1 matched)) in
        page_num ← parse_page_num url (Py.group2 matched);
        Ret (Some (url, video_id, page_num, video_type))) m sh' in
    final r = sh' /\ trace r = [] /\ forall k, outcome r <> Blocked k).
  { intros url m sh'. destruct (rescan_url _ _ _) as [vid ty]. cbn zeta.
    rewrite exec_mbind. unfold then_run.
    destruct (Hpage url (Py.group2 matched) m sh') as (Hf & Ht & Hb).
    destruct (exec env (parse_page_num url (Py.group2 matched)) m sh') as [tr fin o].
    simpl in *. subst. destruct o; simpl; repeat split; try done. by destruct (Hb key). }
  unfold then_run.
  destruct (bool_decide _).
  - cbn [mbind task_bind bind await exec log trace final outcome].
    destruct (answer env string _ n) as [url|e]; cbn [exec log trace final outcome bind].
    + destruct (String.eqb url (Py.group0 matched));
        cbn [exec log trace final outcome bind]; [by repeat split; repeat constructor|].
      cbn [length]. destruct (Hrest url (n + 1)%nat sh) as (Hf & Ht & Hb).
      rewrite Hf, Ht. repeat split; [by repeat constructor | done].
    + by repeat split; repeat constructor.
  - cbn [exec log trace final outcome].
    cbn [length]. destruct (Hrest (Py.group0 matched) (n + 0)%nat sh) as (Hf & Ht & Hb).
    rewrite Hf, Ht. by repeat split.
Qed.





End HandlerFacts.

(** ** The release of the lock by a handler run alone *)

Section ReleaseFacts.
Import Dedup Host Bilibili Loop.
Context (cfg : Config) (env : Env).

Lemma section_releases g v (work : Task unit) n sh pre :
  io_only work ->
  can_take (get_lock (g, v) (processing_locks sh)) = true ->
  (forall key, Acquired key ∉ pre) ->
  let r := exec env (async_with_lock (g, v)
             (ShouldProcessVideo g v
                (fun ok => if negb ok then Ret tt else MarkAsProcessed g v work))) n sh in
  releases_what_it_acquired
    {| trace := pre ++ trace r; final := final r; outcome := outcome r |}.
Proof.
  intros Hio Hfree Hpre r key Hacq. cbn [trace final outcome] in *.
  pose proof (exec_section env g v work n sh Hio Hfree) as Hs. cbn zeta in Hs. fold r in Hs.
  assert (Hunlocked : is_locked (g, v)
            (<[(g, v) := new_lock]> (processing_locks sh)) = false).
  { unfold is_locked. by rewrite lookup_insert_eq. }
  destruct ((Dedup.should_process_video (time_time env (S n)) g v (last_processed sh)).1).
  - destruct Hs as (w & Hw & Htr & Hfin & Hnb).
    rewrite Htr, Hfin in *. cbn [processing_locks].
    assert (key = (g, v)) as ->.
    { apply elem_of_app in Hacq as [Hacq|Hacq]; [by destruct (Hpre key)|].
      apply elem_of_cons in Hacq as [[= ->]|Hacq]; [done|].
      apply elem_of_cons in Hacq as [[=]|Hacq].
      apply elem_of_cons in Hacq as [[=]|Hacq].
      apply elem_of_app in Hacq as [Hacq|Hacq].
      - eapply Forall_forall in Hw; [|exact Hacq]. discriminate.
      - apply elem_of_cons in Hacq as [[=]|Hacq]. by apply elem_of_nil in Hacq. }
    split; [|done].
    rewrite !app_comm_cons, !app_assoc. apply last_snoc.
  - destruct Hs as (Htr & Hfin & _). rewrite Htr, Hfin in *. cbn [processing_locks].
    assert (key = (g, v)) as ->.
    { apply elem_of_app in Hacq as [Hacq|Hacq]; [by destruct (Hpre key)|].
      apply elem_of_cons in Hacq as [[= ->]|Hacq]; [done|].
      apply elem_of_cons in Hacq as [[=]|Hacq].
      apply elem_of_cons in Hacq as [[=]|Hacq]. by apply elem_of_nil in Hacq. }
    split; [|done].
    change [Acquired (g, v); Checked (g, v) (time_time env (S n)) false; Released (g, v)]
      with ([Acquired (g, v); Checked (g, v) (time_time env (S n)) false] ++ [Released (g, v)]).
    rewrite app_assoc. apply last_snoc.
Qed.


Ltac no_acquisition H :=
  exfalso; cbn [trace log] in H;
  repeat (apply elem_of_cons in H as [H|H]; [discriminate H|]);
  by apply elem_of_nil in H.

Lemma flow_bilibili_releases n sh event keyword video_id page_num video_type :
  releases_what_it_acquired
    (exec env (bilibili_video cfg event keyword video_id page_num video_type) n sh).
Proof.
  set (g := group_id_of event).
  unfold bilibili_video, Host.should_process_video, is_processing. fold g.
  destruct (bilibili_guarded_shape cfg keyword video_id page_num video_type g)
    as (work & Hio & ->).
  cbn [mbind task_bind bind exec].
  destruct (Dedup.should_process_video (time_time env n) g video_id (last_processed sh))
    as [ok lp0] eqn:Hc0.
  destruct ok; cbn [negb]; [|intros key H; no_acquisition H].
  cbn [mbind task_bind bind exec].
  destruct (is_locked _ _) eqn:Hlocked; [intros key H; no_acquisition H|].
  destruct (can_take (get_lock (g, video_id) (processing_locks (set_last_processed lp0 sh))))
    eqn:Hfree.
  2: { unfold async_with_lock. cbn [exec]. rewrite Hfree. intros key H; no_acquisition H. }
  apply (section_releases g video_id work (S (S n)) (set_last_processed lp0 sh)
           [Checked (g, video_id) (time_time env n) true; Probed (g, video_id) false]);
    try done.
  intros key H. no_acquisition H.
Qed.

Lemma flow_auto_download_releases n sh event video_id page_num video_type :
  releases_what_it_acquired
    (exec env (auto_download_video cfg event video_id page_num video_type) n sh).
Proof.
  set (g := group_id_of event).
  unfold auto_download_video, Host.should_process_video. fold g.
  destruct (auto_download_guarded_shape cfg video_id page_num video_type g)
    as (work & Hio & ->).
  cbn [mbind task_bind bind exec].
  destruct (Dedup.should_process_video (time_time env n) g video_id (last_processed sh))
    as [ok lp0] eqn:Hc0.
  destruct ok; cbn [negb]; [|intros key H; no_acquisition H].
  destruct (can_take (get_lock (g, video_id) (processing_locks (set_last_processed lp0 sh))))
    eqn:Hfree.
  2: { unfold async_with_lock. cbn [exec]. rewrite Hfree. intros key H; no_acquisition H. }
  apply (section_releases g video_id work (S n) (set_last_processed lp0 sh)
           [Checked (g, video_id) (time_time env n) true]);
    try done.
  intros key H. no_acquisition H.
Qed.

Lemma releases_skip pre (r : Run unit) :
  Forall (fun e => resolves_link e = true) pre ->
  releases_what_it_acquired r ->
  releases_what_it_acquired
    {| trace := pre ++ trace r; final := final r; outcome := outcome r |}.
Proof.
  intros Hpre Hr key Hacq. cbn [trace final] in *.
  apply elem_of_app in Hacq as [Hacq|Hacq].
  { eapply Forall_forall in Hpre; [|exact Hacq]. discriminate. }
  destruct (Hr key Hacq) as [Hlast Hfree]. split; [|done].
  destruct (trace r) as [|e tr] eqn:E; [discriminate|].
  rewrite last_app. by rewrite Hlast.
Qed.

Lemma handlers_release sh event text keyword :
  releases_what_it_acquired (exec env (bilibili_handle cfg event text keyword) 0 sh) /\
  releases_what_it_acquired
    (exec env (bilibili_auto_download_handle cfg event text keyword) 0 sh).
Proof.
  unfold bilibili_handle, bilibili_auto_download_handle.
  rewrite !exec_mbind. unfold then_run.
  destruct (parse_run env text keyword 0 sh) as (Hfin & Htr & Hnb).
  destruct (exec env (parse_video_id_from_text text keyword) 0 sh) as [pre fin o].
  cbn [trace final outcome] in *. subst fin.
  assert (Hnone : forall tl fin' (o' : Outcome unit),
            (forall key, Acquired key ∉ tl) ->
            releases_what_it_acquired {| trace := pre ++ tl; final := fin'; outcome := o' |}).
  { intros tl fin' o' Htl key Hacq. cbn [trace] in Hacq. exfalso.
    apply elem_of_app in Hacq as [Hacq|Hacq]; [|by eapply Htl].
    eapply Forall_forall in Htr; [|exact Hacq]. discriminate. }
  destruct o as [[[[[url video_id] page_num] video_type]|]|e|k];
    [| | |by destruct (Hnb k)].
  - destruct (String.eqb video_id ""); split.
    + rewrite exec_mbind. unfold then_run, await. cbn [exec log trace final outcome].
      destruct (answer env _ _ _); cbn [exec log trace final outcome]; apply Hnone;
        intros key H; no_acquisition H.
    + cbn [exec trace final outcome]. apply Hnone. intros key H; no_acquisition H.
    + apply releases_skip; [done|]. apply flow_bilibili_releases.
    + apply releases_skip; [done|]. apply flow_auto_download_releases.
  - split; cbn [exec trace final outcome]; apply Hnone; intros key H; no_acquisition H.
  - split; rewrite <- (app_nil_r pre); apply Hnone; intros key H; no_acquisition H.
Qed.

End ReleaseFacts.

(** ** The resolution of a reference *)

Section ParseFacts.
Import Dedup Host Bilibili Loop.
Local Open Scope string_scope.



Lemma strip_prefix_Some l s rest :
  Py.strip_prefix l s = Some rest -> s = l +:+ rest.
Proof.
  revert s. induction l as [|a l IH]; intros s; cbn [Py.strip_prefix].
  - by intros [= ->].
  - destruct s as [|b s]; [done|].
    destruct (Ascii.eqb a b) eqn:E; [|done].
    apply Ascii.eqb_eq in E as ->. intros H. by rewrite (IH _ H).
Qed.









End ParseFacts.

(** ** The interleaving of tasks *)

Section LoopFacts.
Import Dedup Host Bilibili Loop.

Lemma bracketed_unique {A} (t : Task A) h1 h2 :
  bracketed h1 t -> bracketed h2 t -> h1 = h2.
Proof.
  revert h1 h2.
  induction t as [a|e|X op k IH|p k IH|g v k IH|g v k IH|key k IH|key k IH|key k IH];
    intros h1 h2 H1 H2; cbn in *.
  - congruence.
  - congruence.
  - exact (IH (inr RuntimeError) _ _ (H1 _) (H2 _)).
  - exact (IH true _ _ (H1 _) (H2 _)).
  - exact (IH true _ _ (H1 _) (H2 _)).
  - eauto.
  - exact (IH true _ _ (H1 _) (H2 _)).
  - destruct H1, H2. congruence.
  - destruct H1, H2. congruence.
Qed.

Lemma is_locked_get_lock key locks : is_locked key locks = locked (get_lock key locks).
Proof. unfold is_locked, get_lock. by destruct (locks !! key). Qed.

Lemma get_lock_insert key lk locks : get_lock key (<[key := lk]> locks) = lk.
Proof. unfold get_lock. by rewrite lookup_insert_eq. Qed.

Lemma get_lock_insert_ne key key' lk locks :
  key <> key' -> get_lock key' (<[key := lk]> locks) = get_lock key' locks.
Proof. intros. unfold get_lock. by rewrite lookup_insert_ne. Qed.

Lemma waiting_Some tid lk w : waiting tid lk = Some w -> (tid, w) ∈ waiters lk.
Proof.
  unfold waiting. destruct (List.find _ _) as [[tid' w']|] eqn:E; [|done].
  intros [= ->]. apply find_some in E as [Hin Heq]. cbn in Heq.
  apply Nat.eqb_eq in Heq as ->. by apply list_elem_of_In.
Qed.

Lemma waiting_None tid lk w : waiting tid lk = None -> (tid, w) ∉ waiters lk.
Proof.
  unfold waiting. destruct (List.find _ _) eqn:E; [done|]. intros _ Hin.
  apply list_elem_of_In in Hin. eapply find_none in E; [|exact Hin].
  cbn in E. by rewrite Nat.eqb_refl in E.
Qed.

Lemma wake_up_first_fst ws : (wake_up_first ws).*1 = ws.*1.
Proof. by destruct ws as [|[tid w] ws]. Qed.

Lemma elem_of_wake_up_first tid w ws :
  (tid, w) ∈ wake_up_first ws -> exists w0, (tid, w0) ∈ ws.
Proof.
  destruct ws as [|[tid0 w0] ws]; cbn; [by intros ?%elem_of_nil|].
  intros [[= -> ->]|H]%elem_of_cons; [exists w0; left|exists w; by right].
Qed.

Lemma NoDup_fst_filter (P : nat * bool -> bool) ws :
  NoDup ws.*1 -> NoDup (List.filter P ws).*1.
Proof.
  induction ws as [|[tid w] ws IH]; cbn; [done|].
  intros [Hnin Hnd]%NoDup_cons. destruct (P (tid, w)); cbn; [|by apply IH].
  apply NoDup_cons. split; [|by apply IH].
  intros (x & Hx & Hin)%list_elem_of_fmap. apply Hnin.
  apply list_elem_of_fmap. exists x. split; [done|].
  apply list_elem_of_In in Hin. apply filter_In in Hin as [Hin _].
  by apply list_elem_of_In.
Qed.


Lemma pool_update (ts : list (Task unit)) tid t t' x :
  ts !! tid = Some t ->
  <[tid := t']> ts !! x = if decide (x = tid) then Some t' else ts !! x.
Proof.
  intros Ht. case_decide as Hx.
  - subst. apply list_lookup_insert_eq. by eapply lookup_lt_Some.
  - by apply list_lookup_insert_ne.
Qed.

(** A step of task [tid] that leaves the lock of [key] alone and does not
    move the task into or out of the section of [key] keeps the invariant
    of [key]. *)
Lemma lock_inv_frame s s' tid t t' key :
  lock_inv s key ->
  pool s !! tid = Some t ->
  pool s' = <[tid := t']> (pool s) ->
  get_lock key (processing_locks (shared s')) = get_lock key (processing_locks (shared s)) ->
  (inside key t' <-> inside key t) ->
  (forall k, t <> LockAcquire key k) ->
  lock_inv s' key.
Proof.
  intros [H1 H2 H3 H4 H5 H6] Ht Hpool Hlock Hin Hhead.
  rewrite !is_locked_get_lock in *.
  assert (Hlook : forall x tx, pool s' !! x = Some tx ->
            (x = tid /\ tx = t') \/ (x <> tid /\ pool s !! x = Some tx)).
  { intros x tx. rewrite Hpool, (pool_update _ _ _ _ _ Ht).
    case_decide as Hd; [intros [= <-]; by left | intros ?; by right]. }
  constructor; rewrite ?is_locked_get_lock, ?Hlock.
  - intros Hl. destruct (H1 Hl) as (x & tx & Hx & Hix).
    destruct (decide (x = tid)) as [->|Hne].
    + exists tid, t'. rewrite Hpool, (pool_update _ _ _ _ _ Ht), decide_True by done.
      split; [done|]. apply Hin. congruence.
    + exists x, tx. rewrite Hpool, (pool_update _ _ _ _ _ Ht), decide_False by done. done.
  - intros x tx Hx Hix. destruct (Hlook _ _ Hx) as [[-> ->]|[Hne Hx']].
    + eapply H2; [exact Ht|]. by apply Hin.
    + by eapply H2.
  - intros x1 x2 t1 t2 Hx1 Hx2 Hi1 Hi2.
    destruct (Hlook _ _ Hx1) as [[-> ->]|[Hne1 Hx1']],
             (Hlook _ _ Hx2) as [[-> ->]|[Hne2 Hx2']]; try done.
    + eapply H3; [exact Ht|exact Hx2'|by apply Hin|done].
    + eapply H3; [exact Hx1'|exact Ht|done|by apply Hin].
    + by eapply H3.
  - done.
  - intros x w Hw. destruct (H5 _ _ Hw) as (k & Hx & Hk).
    exists k. split; [|done].
    rewrite Hpool, (pool_update _ _ _ _ _ Ht). case_decide as Hd; [|done].
    subst. rewrite Ht in Hx. injection Hx as ->. by destruct (Hhead k).
  - intros x Hw. destruct (H6 _ Hw) as [Hl Hu]. split; [done|].
    intros x'. apply Hu.
Qed.


(** Task [tid] takes the free lock of [key] and enters the section. *)
Lemma lock_inv_enter s s' tid k key :
  lock_inv s key ->
  pool s !! tid = Some (LockAcquire key k) -> bracketed (Some key) k ->
  pool s' = <[tid := k]> (pool s) ->
  let lk := get_lock key (processing_locks (shared s)) in
  let lk' := get_lock key (processing_locks (shared s')) in
  locked lk = false -> locked lk' = true ->
  (forall x w, (x, w) ∈ waiters lk' -> x <> tid /\ (x, w) ∈ waiters lk) ->
  NoDup (waiters lk').*1 ->
  (forall x, (x, true) ∉ waiters lk') ->
  lock_inv s' key.
Proof.
  intros [H1 H2 H3 H4 H5 H6] Ht Hk Hpool lk lk' Hfree Hheld Hws Hnd Hnw.
  rewrite !is_locked_get_lock in *. fold lk in H1, H2, H4, H5, H6.
  assert (Hlook : forall x tx, pool s' !! x = Some tx ->
            (x = tid /\ tx = k) \/ (x <> tid /\ pool s !! x = Some tx)).
  { intros x tx. rewrite Hpool, (pool_update _ _ _ _ _ Ht).
    case_decide as Hd; [intros [= <-]; by left | intros ?; by right]. }
  assert (Hnone : forall x tx, x <> tid -> pool s !! x = Some tx -> ~ inside key tx).
  { intros x tx _ Hx Hix. specialize (H2 _ _ Hx Hix). congruence. }
  constructor; rewrite ?is_locked_get_lock; fold lk'.
  - intros _. exists tid, k. split; [|done].
    by rewrite Hpool, (pool_update _ _ _ _ _ Ht), decide_True.
  - done.
  - intros x1 x2 t1 t2 Hx1 Hx2 Hi1 Hi2.
    destruct (Hlook _ _ Hx1) as [[-> ->]|[Hne1 Hx1']],
             (Hlook _ _ Hx2) as [[-> ->]|[Hne2 Hx2']]; try done.
    + by destruct (Hnone _ _ Hne2 Hx2').
    + by destruct (Hnone _ _ Hne1 Hx1').
    + by destruct (Hnone _ _ Hne1 Hx1').
  - done.
  - intros x w Hw. destruct (Hws _ _ Hw) as [Hne Hw'].
    destruct (H5 _ _ Hw') as (k' & Hx & Hk'). exists k'. split; [|done].
    by rewrite Hpool, (pool_update _ _ _ _ _ Ht), decide_False.
  - intros x Hw. by destruct (Hnw x).
Qed.

(** Task [tid] joins the queue of the lock of [key]. *)
Lemma lock_inv_enqueue s s' tid k key :
  lock_inv s key ->
  pool s !! tid = Some (LockAcquire key k) -> bracketed (Some key) k ->
  pool s' = <[tid := LockAcquire key k]> (pool s) ->
  waiting tid (get_lock key (processing_locks (shared s))) = None ->
  get_lock key (processing_locks (shared s')) =
    enqueue tid (get_lock key (processing_locks (shared s))) ->
  lock_inv s' key.
Proof.
  intros [H1 H2 H3 H4 H5 H6] Ht Hk Hpool Hnw Hlk.
  assert (Hsame : pool s' = pool s).
  { rewrite Hpool. by apply list_insert_id. }
  rewrite !is_locked_get_lock in *.
  set (lk := get_lock key (processing_locks (shared s))) in *.
  constructor; rewrite ?is_locked_get_lock, ?Hlk, ?Hsame; cbn [enqueue locked waiters].
  - done.
  - done.
  - done.
  - rewrite fmap_app. apply NoDup_app. split; [done|]. split; [|apply NoDup_singleton].
    intros x Hx [Heq|[]%elem_of_nil]%elem_of_cons. cbn in Heq. subst x.
    apply list_elem_of_fmap in Hx as ([x w] & Heq & Hin). cbn in Heq. subst x.
    by eapply waiting_None.
  - intros x w [Hw|[[= -> ->]|[]%elem_of_nil]%elem_of_cons]%elem_of_app; eauto.
  - intros x [Hw|[[=]|[]%elem_of_nil]%elem_of_cons]%elem_of_app.
    destruct (H6 _ Hw) as [Hl Hu]. split; [done|].
    intros x' [Hw'|[[=]|[]%elem_of_nil]%elem_of_cons]%elem_of_app. by apply Hu.
Qed.

(** Task [tid] releases the lock of [key] and leaves the section. *)
Lemma lock_inv_release s s' tid (k : bool -> Task unit) key :
  lock_inv s key ->
  pool s !! tid = Some (LockRelease key k) -> inside key (LockRelease key k) ->
  pool s' = <[tid := k true]> (pool s) ->
  get_lock key (processing_locks (shared s')) =
    release (get_lock key (processing_locks (shared s))) ->
  lock_inv s' key.
Proof.
  intros [H1 H2 H3 H4 H5 H6] Ht Hin Hpool Hlk.
  assert (Hheld := H2 _ _ Ht Hin).
  assert (Hk : bracketed None (k true)) by apply Hin.
  rewrite !is_locked_get_lock in *.
  set (lk := get_lock key (processing_locks (shared s))) in *.
  assert (Hlook : forall x tx, pool s' !! x = Some tx ->
            (x = tid /\ tx = k true) \/ (x <> tid /\ pool s !! x = Some tx)).
  { intros x tx. rewrite Hpool, (pool_update _ _ _ _ _ Ht).
    case_decide as Hd; [intros [= <-]; by left | intros ?; by right]. }
  assert (Hnone : forall x tx, pool s' !! x = Some tx -> ~ inside key tx).
  { intros x tx Hx Hix. destruct (Hlook _ _ Hx) as [[-> ->]|[Hne Hx']].
    - by pose proof (bracketed_unique _ _ _ Hk Hix).
    - by pose proof (H3 _ _ _ _ Ht Hx' Hin Hix). }
  assert (Hnowoken : forall x, (x, true) ∉ waiters lk).
  { intros x Hw. destruct (H6 _ Hw) as [Hl _]. congruence. }
  constructor; rewrite ?is_locked_get_lock, ?Hlk; cbn [release locked waiters].
  - done.
  - intros x tx Hx Hix. by destruct (Hnone _ _ Hx).
  - intros x1 x2 t1 t2 Hx1 _ Hi1 _. by destruct (Hnone _ _ Hx1).
  - by rewrite wake_up_first_fst.
  - intros x w Hw. apply elem_of_wake_up_first in Hw as [w0 Hw].
    destruct (H5 _ _ Hw) as (k' & Hx & Hk'). exists k'. split; [|done].
    rewrite Hpool, (pool_update _ _ _ _ _ Ht). case_decide as Hd; [|done].
    subst. congruence.
  - assert (Hhead : forall x, (x, true) ∈ wake_up_first (waiters lk) ->
              exists w rest, waiters lk = (x, w) :: rest).
    { intros x. destruct (waiters lk) as [|[x0 w0] rest] eqn:E; cbn.
      - by intros ?%elem_of_nil.
      - intros [[= ->]|Hr]%elem_of_cons; [eauto|].
        destruct (Hnowoken x). by right. }
    intros x Hw. split; [done|]. intros x' Hw'.
    destruct (Hhead _ Hw) as (w & rest & E), (Hhead _ Hw') as (w' & rest' & E').
    congruence.
Qed.


Lemma inside_after t t' key :
  (bracketed None t \/ exists key', bracketed (Some key') t) ->
  (forall h, bracketed h t -> bracketed h t') ->
  inside key t' <-> inside key t.
Proof.
  intros Hb Hstep. unfold inside. split.
  - intros Hi. destruct Hb as [Hb|[key' Hb]].
    + by pose proof (bracketed_unique _ _ _ (Hstep _ Hb) Hi).
    + pose proof (bracketed_unique _ _ _ (Hstep _ Hb) Hi) as [= ->]. done.
  - apply Hstep.
Qed.

(** The threads part of the invariant after task [tid] has moved to [t']. *)
Lemma threads_after (ts : list (Task unit)) tid t t' :
  (forall x tx, ts !! x = Some tx ->
     bracketed None tx \/ exists key, bracketed (Some key) tx) ->
  ts !! tid = Some t ->
  (bracketed None t' \/ exists key, bracketed (Some key) t') ->
  forall x tx, <[tid := t']> ts !! x = Some tx ->
    bracketed None tx \/ exists key, bracketed (Some key) tx.
Proof.
  intros Hall Ht Ht' x tx. rewrite (pool_update _ _ _ _ _ Ht).
  case_decide; [by intros [= <-] | apply Hall].
Qed.

(** A step on an effect that is not a lock operation. *)
Lemma system_inv_plain s tid t t' lp r :
  system_inv s ->
  pool s !! tid = Some t ->
  (forall h, bracketed h t -> bracketed h t') ->
  (forall key k, t <> LockAcquire key k) ->
  system_inv {| shared := set_last_processed lp (shared s);
                pool := <[tid := t']> (pool s);
                running := r |}.
Proof.
  intros [Hlocks Hthreads] Ht Hstep Hhead. split.
  - intros key. eapply lock_inv_frame; [apply Hlocks|exact Ht|done|done| |by eauto].
    apply inside_after; [by eapply Hthreads | done].
  - cbn [pool]. eapply threads_after; [done|done|].
    destruct (Hthreads _ _ Ht) as [Hb|[key Hb]]; [left|right; exists key]; by apply Hstep.
Qed.

Lemma set_last_processed_id sh : set_last_processed (last_processed sh) sh = sh.
Proof. by destruct sh. Qed.

Theorem step_inv s l : system_inv s -> system_inv (step s l).
Proof.
  intros Hinv. unfold step.
  destruct (may_run _ _); [|done].
  destruct (pool s !! who l) as [t|] eqn:Ht; [|done].
  destruct (fire l (who l) t (shared s)) as [[t' sh']|] eqn:Hf; [|done].
  set (tid := who l) in *. set (r := if suspended tid t' sh' then _ else _). clearbody r.
  destruct t as [a|e|X op k|p k|g v k|g v k|key k|key k|key k]; cbn [fire] in Hf.
  - done.
  - done.
  - injection Hf as <- <-. rewrite <- (set_last_processed_id (shared s)).
    eapply system_inv_plain; [done|done| |done]. intros h Hb. apply Hb.
  - injection Hf as <- <-. rewrite <- (set_last_processed_id (shared s)).
    eapply system_inv_plain; [done|done| |done]. intros h Hb. apply Hb.
  - destruct (Dedup.should_process_video _ _ _ _) as [ok lp]. injection Hf as <- <-.
    eapply system_inv_plain; [done|done| |done]. intros h Hb. apply Hb.
  - injection Hf as <- <-.
    eapply system_inv_plain; [done|done| |done]. intros h Hb. apply Hb.
  - injection Hf as <- <-. rewrite <- (set_last_processed_id (shared s)).
    eapply system_inv_plain; [done|done| |done]. intros h Hb. apply Hb.
  - (* LockAcquire *)
    destruct Hinv as [Hlocks Hthreads].
    assert (Hk : bracketed (Some key) k).
    { destruct (Hthreads _ _ Ht) as [Hb|[key' Hb]]; cbn in Hb; [apply Hb|by destruct Hb]. }
    set (lk := get_lock key (processing_locks (shared s))) in *.
    assert (Hother : forall lk' t'', (t'' = k \/ t'' = LockAcquire key k) ->
              forall key', key' <> key ->
              lock_inv {| shared := set_lock key lk' (shared s);
                          pool := <[tid := t'']> (pool s); running := r |} key').
    { intros lk' t'' Ht'' key' Hne.
      eapply lock_inv_frame; [apply Hlocks|exact Ht|done| | |].
      - cbn. by apply get_lock_insert_ne.
      - unfold inside. split.
        + intros Hi. destruct Ht'' as [->| ->].
          * by pose proof (bracketed_unique _ _ _ Hk Hi) as [= ->].
          * cbn in Hi. by destruct Hi.
        + intros Hi. cbn in Hi. by destruct Hi.
      - intros k' [= ->]. done. }
    destruct (waiting tid lk) as [[]|] eqn:Hw; [| done |].
    + (* woken: leave the queue and take the lock *)
      injection Hf as <- <-. split.
      * intros key'. destruct (decide (key' = key)) as [->|Hne]; [|by eapply Hother; eauto].
        pose proof (Hlocks key) as Hl. destruct (woken_free _ _ Hl tid) as [Hfree Huniq].
        { by apply waiting_Some. }
        eapply lock_inv_enter; [exact Hl|exact Ht|done|done| | | | |].
        -- by rewrite <- is_locked_get_lock.
        -- cbn. by rewrite get_lock_insert.
        -- cbn. rewrite get_lock_insert. cbn. intros x w Hx.
           apply list_elem_of_In in Hx. apply filter_In in Hx as [Hx Hne].
           cbn in Hne. apply negb_true_iff, Nat.eqb_neq in Hne.
           split; [done|by apply list_elem_of_In].
        -- cbn. rewrite get_lock_insert. cbn. apply NoDup_fst_filter, Hl.
        -- cbn. rewrite get_lock_insert. cbn. intros x Hx.
           apply list_elem_of_In in Hx. apply filter_In in Hx as [Hx Hne].
           cbn in Hne. apply negb_true_iff, Nat.eqb_neq in Hne.
           apply Hne, Huniq. by apply list_elem_of_In.
      * cbn [pool]. eapply threads_after; [done|done|]. right. by exists key.
    + destruct (can_take lk) eqn:Hcan; injection Hf as <- <-.
      * (* fast path *)
        split.
        -- intros key'. destruct (decide (key' = key)) as [->|Hne]; [|by eapply Hother; eauto].
           apply can_take_inv in Hcan as Hnew.
           eapply lock_inv_enter; [apply Hlocks|exact Ht|done|done| | | | |].
           ++ fold lk. by rewrite Hnew.
           ++ cbn. by rewrite get_lock_insert.
           ++ cbn. rewrite get_lock_insert. fold lk. rewrite Hnew. cbn.
              by intros x w ?%elem_of_nil.
           ++ cbn. rewrite get_lock_insert. fold lk. rewrite Hnew. cbn. apply NoDup_nil_2.
           ++ cbn. rewrite get_lock_insert. fold lk. rewrite Hnew. cbn.
              by intros x ?%elem_of_nil.
        -- cbn [pool]. eapply threads_after; [done|done|]. right. by exists key.
      * (* slow path *)
        split.
        -- intros key'. destruct (decide (key' = key)) as [->|Hne]; [|by eapply Hother; eauto].
           eapply lock_inv_enqueue; [apply Hlocks|exact Ht|done|done|done|].
           cbn. by rewrite get_lock_insert.
        -- cbn [pool]. eapply threads_after; [done|done|]. by eapply Hthreads.
  - (* LockRelease *)
    destruct Hinv as [Hlocks Hthreads].
    assert (Hin : inside key (LockRelease key k)).
    { destruct (Hthreads _ _ Ht) as [Hb|[key' Hb]]; cbn in Hb; destruct Hb as [Hh Hb];
        [done|]. injection Hh as ->. by split. }
    assert (Hk : forall b, bracketed None (k b)) by apply Hin.
    pose proof (owner_holds _ _ (Hlocks key) _ _ Ht Hin) as Hheld.
    rewrite is_locked_get_lock in Hheld. rewrite Hheld in Hf. injection Hf as <- <-.
    split.
    + intros key'. destruct (decide (key' = key)) as [->|Hne].
      * eapply lock_inv_release; [apply Hlocks|exact Ht|done|done|].
        cbn. by rewrite get_lock_insert.
      * eapply lock_inv_frame; [apply Hlocks|exact Ht|done| | |done].
        -- cbn. by apply get_lock_insert_ne.
        -- unfold inside. split; intros Hi.
           ++ by pose proof (bracketed_unique _ _ _ (Hk true) Hi).
           ++ by pose proof (bracketed_unique _ _ _ Hin Hi) as [= ->].
    + cbn [pool]. eapply threads_after; [done|done|]. by left.
Qed.


Lemma io_only_lock_free {A} (t : Task A) : io_only t -> lock_free t.
Proof.
  induction t as [a|e|X op k IH|p k IH|g v k IH|g v k IH|key k IH|key k IH|key k IH];
    cbn; try done; eauto.
Qed.

Lemma bracketed_bind {A B} (t : Task A) (f : A -> Task B) :
  lock_free t -> (forall a, bracketed None (f a)) -> bracketed None (bind t f).
Proof.
  intros Ht Hf.
  induction t as [a|e|X op k IH|p k IH|g v k IH|g v k IH|key k IH|key k IH|key k IH];
    cbn in *; try done; eauto.
Qed.

Lemma bracketed_section {A} key (body : Task A) :
  lock_free body -> bracketed None (async_with_lock key body).
Proof.
  intros Hb. unfold async_with_lock. cbn [bracketed]. split; [done|].
  induction body as [a|e|X op k IH|p k IH|g v k IH|g v k IH|key' k IH|key' k IH|key' k IH];
    cbn in *; try done; eauto.
  - split; [done|]. by intros [].
  - split; [done|]. by intros [].
Qed.

Context (cfg : Config).

Lemma io_only_parse text keyword : io_only (parse_video_id_from_text text keyword).
Proof.
  unfold parse_video_id_from_text.
  destruct (PATTERNS_get keyword) as [pattern|]; [|exact I].
  destruct (Py.search pattern text) as [matched|]; [|exact I].
  assert (Hpage : forall url pn, io_only (parse_page_num url pn)).
  { intros url pn. unfold parse_page_num. apply io_only_bind.
    - destruct pn as [[|c s]|]; try exact I. apply io_only_int_or_raise.
    - intros a. destruct (if String.eqb url "" then None else _); [|exact I].
      apply io_only_int_or_raise. }
  apply io_only_bind.
  - destruct (bool_decide _); [|exact I].
    apply io_only_bind; [apply io_only_await|]. intros u. by destruct (String.eqb _ _).
  - intros [url|]; [|exact I]. destruct (rescan_url _ _ _) as [vid ty].
    apply io_only_bind; [apply Hpage|]. intros; exact I.
Qed.

Lemma bracketed_bilibili_video event keyword video_id page_num video_type :
  bracketed None (bilibili_video cfg event keyword video_id page_num video_type).
Proof.
  unfold bilibili_video, Host.should_process_video, is_processing.
  cbn [mbind task_bind bind bracketed]. intros [|]; cbn [negb bind bracketed]; [|done].
  intros [|]; [done|]. apply bracketed_section.
  destruct (bilibili_guarded_shape cfg keyword video_id page_num video_type (group_id_of event))
    as (work & Hio & ->).
  cbn [lock_free]. intros [|]; cbn [negb lock_free]; [|done]. by apply io_only_lock_free.
Qed.

Lemma bracketed_auto_download_video event video_id page_num video_type :
  bracketed None (auto_download_video cfg event video_id page_num video_type).
Proof.
  unfold auto_download_video, Host.should_process_video.
  cbn [mbind task_bind bind bracketed]. intros [|]; cbn [negb bind bracketed]; [|done].
  apply bracketed_section.
  destruct (auto_download_guarded_shape cfg video_id page_num video_type (group_id_of event))
    as (work & Hio & ->).
  cbn [lock_free]. intros [|]; cbn [negb lock_free]; [|done]. by apply io_only_lock_free.
Qed.

Lemma bracketed_bilibili_handle event text keyword :
  bracketed None (bilibili_handle cfg event text keyword).
Proof.
  unfold bilibili_handle. apply bracketed_bind.
  - apply io_only_lock_free, io_only_parse.
  - intros [[[[url video_id] page_num] video_type]|]; [|done].
    destruct (String.eqb video_id "").
    + apply bracketed_bind; [apply io_only_lock_free, io_only_await|done].
    + apply bracketed_bilibili_video.
Qed.

Lemma bracketed_auto_download_handle event text keyword :
  bracketed None (bilibili_auto_download_handle cfg event text keyword).
Proof.
  unfold bilibili_auto_download_handle. apply bracketed_bind.
  - apply io_only_lock_free, io_only_parse.
  - intros [[[[url video_id] page_num] video_type]|]; [|done].
    destruct (String.eqb video_id ""); [done|].
    apply bracketed_auto_download_video.
Qed.

Lemma start_inv lp tasks :
  Forall (bracketed None) tasks -> system_inv (start lp tasks).
Proof.
  intros Hall. split.
  - intros key. constructor; cbn.
    + unfold is_locked. by rewrite lookup_empty.
    + intros tid t Ht Hi. exfalso.
      eapply Forall_lookup_1 in Hall; [|exact Ht].
      by pose proof (bracketed_unique _ _ _ Hall Hi).
    + intros tid1 tid2 t1 t2 Ht1 _ Hi1 _. exfalso.
      eapply Forall_lookup_1 in Hall; [|exact Ht1].
      by pose proof (bracketed_unique _ _ _ Hall Hi1).
    + unfold get_lock. rewrite lookup_empty. cbn. apply NoDup_nil_2.
    + unfold get_lock. rewrite lookup_empty. cbn. by intros tid w ?%elem_of_nil.
    + unfold get_lock. rewrite lookup_empty. cbn. by intros tid ?%elem_of_nil.
  - intros tid t Ht. left. by eapply Forall_lookup_1 in Hall.
Qed.

Lemma run_inv s schedule : system_inv s -> system_inv (run s schedule).
Proof.
  unfold run. revert s. induction schedule as [|l ls IH]; intros s Hs; cbn; [done|].
  apply IH. by apply step_inv.
Qed.

End LoopFacts.

(** ** Tasks that ask before they acquire *)

Section NoQueue.
Import Dedup Host Bilibili Loop.

Lemma no_queue_step s l : no_queue_inv s -> no_queue_inv (step s l).
Proof.
  intros [Hq Hts]. unfold step.
  destruct (may_run (who l) (running s)) eqn:Hrun; [|done].
  destruct (pool s !! who l) as [t|] eqn:Ht; [|done].
  destruct (fire l (who l) t (shared s)) as [[t' sh']|] eqn:Hf; [|done].
  set (tid := who l) in *.
  assert (Hothers : forall x tx, x <> tid -> pool s !! x = Some tx -> polite tx).
  { intros x tx Hne Hx. destruct (Hts _ _ Hx) as [Hp|(key & k & _ & _ & Hr & _)]; [done|].
    rewrite Hr in Hrun. cbn in Hrun. apply Nat.eqb_eq in Hrun. congruence. }
  assert (Hgoal : forall r,
    (forall key, waiters (get_lock key (processing_locks sh')) = []) ->
    (polite t' \/ about_to_take {| shared := sh'; pool := <[tid := t']> (pool s); running := r |}
                    tid t') ->
    no_queue_inv {| shared := sh'; pool := <[tid := t']> (pool s); running := r |}).
  { intros r Hq' Ht'. split; [done|]. cbn [pool]. intros x tx.
    rewrite (pool_update _ _ _ _ _ Ht). case_decide as Hx.
    - intros [= <-]. by subst.
    - intros Hx'. left. by eapply Hothers. }
  assert (Hset : forall key lk, waiters lk = [] -> forall key',
    waiters (get_lock key' (processing_locks (set_lock key lk (shared s)))) = []).
  { intros key lk Hlk key'. cbn. destruct (decide (key = key')) as [->|Hne].
    - by rewrite get_lock_insert.
    - by rewrite get_lock_insert_ne. }
  apply Hgoal; clear Hgoal.
  - (* queues *)
    destruct (Hts _ _ Ht) as [Hp|(key & k & -> & Hk & Hr & Hcan)].
    + destruct t as [a|e|X op k|p k|g v k|g v k|key k|key k|key k]; cbn [fire] in Hf;
        try done; try (injection Hf as <- <-; done).
      * destruct (Dedup.should_process_video _ _ _ _). injection Hf as <- <-. done.
      * destruct (locked _); injection Hf as <- <-; [|done].
        apply Hset. cbn. by rewrite Hq.
    + cbn [fire] in Hf. unfold waiting in Hf. rewrite Hq in Hf. cbn in Hf.
      rewrite Hcan in Hf. injection Hf as <- <-. apply Hset. cbn. apply Hq.
  - (* the task that ran *)
    destruct (Hts _ _ Ht) as [Hp|(key & k & -> & Hk & Hr & Hcan)].
    + destruct t as [a|e|X op k|p k|g v k|g v k|key k|key k|key k]; cbn [fire] in Hf;
        try done; cbn [polite] in Hp.
      * injection Hf as <- <-. left. apply Hp.
      * injection Hf as <- <-. left. apply Hp.
      * destruct (Dedup.should_process_video _ _ _ _). injection Hf as <- <-. left. apply Hp.
      * injection Hf as <- <-. left. apply Hp.
      * injection Hf as <- <-. destruct Hp as [Htrue Hfalse].
        destruct (is_locked key _) eqn:Hl; [by left|].
        destruct (k false) as [a|e|X op k'|p k'|g v k'|g v k'|key' k'|key' k'|key' k'] eqn:Hk;
          try (left; exact Hfalse).
        destruct Hfalse as [-> Hk']. right. exists key, k'. split; [done|]. split; [done|].
        cbn [shared running suspended].
        unfold waiting. rewrite Hq. cbn. split; [done|].
        unfold can_take. rewrite <- is_locked_get_lock, Hl, Hq. done.
      * destruct (locked _); injection Hf as <- <-; left; apply Hp.
    + cbn [fire] in Hf. unfold waiting in Hf. rewrite Hq in Hf. cbn in Hf.
      rewrite Hcan in Hf. injection Hf as <- <-. by left.
Qed.


Lemma polite_probe {A} key (t : Task A) :
  polite t ->
  match t with
  | LockAcquire key' k' => key' = key /\ polite k'
  | _ => polite t
  end.
Proof. by destruct t. Qed.

Lemma lock_free_polite {A} (t : Task A) : lock_free t -> polite t.
Proof.
  induction t as [a|e|X op k IH|p k IH|g v k IH|g v k IH|key k IH|key k IH|key k IH];
    cbn; try done; eauto.
  intros Hk. split; [by apply IH|]. apply polite_probe. by apply IH.
Qed.

Lemma polite_bind {A B} (t : Task A) (f : A -> Task B) :
  lock_free t -> (forall a, polite (f a)) -> polite (bind t f).
Proof.
  intros Ht Hf.
  induction t as [a|e|X op k IH|p k IH|g v k IH|g v k IH|key k IH|key k IH|key k IH];
    cbn in *; try done; eauto.
  split; [by apply IH|]. apply polite_probe. by apply IH.
Qed.

Lemma polite_finally_release {A} key (body : Task A) :
  lock_free body -> polite (try_finally body (lock_release key)).
Proof.
  intros Hb.
  induction body as [a|e|X op k IH|p k IH|g v k IH|g v k IH|key' k IH|key' k IH|key' k IH];
    cbn in *; try done; eauto.
  - by intros [].
  - by intros [].
  - split; [by apply IH|]. apply polite_probe. by apply IH.
Qed.

Context (cfg : Config).

Lemma polite_bilibili_handle event text keyword :
  polite (bilibili_handle cfg event text keyword).
Proof.
  unfold bilibili_handle. apply polite_bind.
  - apply io_only_lock_free, io_only_parse.
  - intros [[[[url video_id] page_num] video_type]|]; [|done].
    destruct (String.eqb video_id "").
    + apply polite_bind; [apply io_only_lock_free, io_only_await|done].
    + unfold bilibili_video, Host.should_process_video, is_processing.
      cbn [mbind task_bind bind polite]. intros [|]; cbn [negb bind polite]; [|done].
      split; [done|]. unfold async_with_lock. split; [done|].
      apply polite_finally_release.
      destruct (bilibili_guarded_shape cfg keyword video_id page_num video_type
                  (group_id_of event)) as (work & Hio & ->).
      cbn [lock_free]. intros [|]; cbn [negb lock_free]; [|done].
      by apply io_only_lock_free.
Qed.

Lemma no_queue_run s schedule : no_queue_inv s -> no_queue_inv (run s schedule).
Proof.
  unfold run. revert s. induction schedule as [|l ls IH]; intros s Hs; cbn [foldl]; [done|].
  apply IH. by apply no_queue_step.
Qed.

(** X12. Invocations of the [bilibili] handler never wait for a lock: when
    all the invocations of the loop are of that handler, the queue of every
    lock is empty in every reachable state. *)
Lemma bilibili_never_waits lp (invocations : list Invocation) schedule :
  Forall (fun i => matcher i = bilibili) invocations ->
  let s := run (start lp (handler_task cfg <$> invocations)) schedule in
  forall key tid,
    waiters (get_lock key (processing_locks (shared s))) = [] /\
    status s tid <> Some (WaitingForLock key).
Proof.
  intros Hall. cbn zeta.
  assert (Hinv : no_queue_inv (run (start lp (handler_task cfg <$> invocations)) schedule)).
  { apply no_queue_run. split.
    - intros key. cbn. unfold get_lock. by rewrite lookup_empty.
    - intros tid t Ht. left. cbn in Ht.
      rewrite list_lookup_fmap in Ht.
      destruct (invocations !! tid) as [i|] eqn:Hi; [|done]. injection Ht as <-.
      eapply Forall_lookup_1 in Hall; [|exact Hi]. unfold handler_task.
      rewrite Hall. apply polite_bilibili_handle. }
  destruct Hinv as [Hq _]. intros key tid. split; [apply Hq|].
  unfold status. destruct (pool _ !! tid) as [t|]; [|done]. cbn.
  destruct t; try done.
  unfold waiting. rewrite Hq. cbn. done.
Qed.

End NoQueue.

(** ** The filter store *)

Section FilterFacts.
Import Host Filter.
Local Open Scope string_scope.

Lemma mapM_fmap_Some {A B} (f : A -> option B) (g : B -> A) (l : list B) :
  (forall x, f (g x) = Some x) -> mapM f (g <$> l) = Some l.
Proof.
  intros Hfg. induction l as [|x l IH]; cbn; [done|].
  by rewrite Hfg; cbn; rewrite IH.
Qed.

Lemma as_int_list_dump (l : list Z) : Json.as_int_list (Json.Arr (Json.Int <$> l)) = Some l.
Proof. cbn. by apply mapM_fmap_Some. Qed.

Lemma FilterItem_round_trip i : FilterItem_validate (FilterItem_dump i) = Some i.
Proof.
  destruct i as [l]. unfold FilterItem_validate, FilterItem_dump.
  cbn [Json.field List.find fst snd fmap option_fmap option_map String.eqb Ascii.eqb Bool.eqb].
  cbn [disabled_groups]. by rewrite as_int_list_dump.
Qed.

Lemma source_of_name_name s : source_of_name (source_name s) = Some s.
Proof. by destruct s. Qed.

Lemma filter_dict_round_trip (d : gmap SourceType FilterItem) :
  filter_dict_validate
    (Json.Obj ((fun kv => (source_name kv.1, FilterItem_dump kv.2)) <$> map_to_list d)) = Some d.
Proof.
  unfold filter_dict_validate. rewrite <- fmap_reverse.
  rewrite mapM_fmap_Some.
  - cbn. f_equal. rewrite <- (list_to_map_to_list d) at 2.
    apply list_to_map_proper.
    + eapply NoDup_Permutation_proper; [by rewrite reverse_Permutation|].
      apply NoDup_fst_map_to_list.
    + apply reverse_Permutation.
  - intros [k v]. cbn [fst snd]. rewrite source_of_name_name. cbn [mbind option_bind].
    by rewrite FilterItem_round_trip.
Qed.

Lemma FilterConfig_round_trip c : FilterConfig_validate (FilterConfig_dump c) = Some c.
Proof.
  destruct c as [d a b]. unfold FilterConfig_validate, FilterConfig_dump, int_list_field.
  cbn [Json.field List.find fst snd fmap option_fmap option_map String.eqb Ascii.eqb Bool.eqb
       filter_dict do_not_download_media_groups bili_auto_download_when_disabled_groups].
  rewrite filter_dict_round_trip. cbn [mbind option_bind].
  by rewrite !as_int_list_dump.
Qed.


Lemma lookup_setdefault k v (d : gmap SourceType FilterItem) k' :
  setdefault k v d !! k' =
  match d !! k' with
  | Some x => Some x
  | None => if decide (k = k') then Some v else None
  end.
Proof.
  unfold setdefault. destruct (d !! k) eqn:E.
  - destruct (d !! k') eqn:E'; [done|]. case_decide; [congruence|done].
  - rewrite lookup_insert. case_decide as Hd.
    + subst. by rewrite E.
    + by destruct (d !! k').
Qed.

(** [setdefault] with the empty item does not change what the reader of
    the per-platform lists sees. *)
Lemma disabled_groups_setdefaults (sources : list SourceType) c d' :
  d' = foldl (fun d source => setdefault source FilterItem_default d) (filter_dict c) sources ->
  forall source,
    disabled_groups (default FilterItem_default (d' !! source)) = disabled_groups_of c source.
Proof.
  intros -> source. unfold disabled_groups_of.
  generalize (filter_dict c) as d. induction sources as [|k ks IH]; intros d; cbn [foldl].
  - done.
  - rewrite IH, lookup_setdefault. destruct (d !! source); [done|]. by case_decide.
Qed.

Lemma setdefaults_id (sources : list SourceType) (d : gmap SourceType FilterItem) :
  (forall source, is_Some (d !! source)) ->
  foldl (fun d source => setdefault source FilterItem_default d) d sources = d.
Proof.
  intros Hall. induction sources as [|k ks IH]; cbn [foldl]; [done|].
  unfold setdefault at 2. by destruct (Hall k) as [x ->].
Qed.

(** C8. Saving a filter state with [save_disabled_groups] and loading it
    back with [load_or_initialize_set] and [load_filter_config] gives the
    same set of disabled groups, the same list of disabled groups for
    every platform, and the same [do_not_download_media_groups] and
    [bili_auto_download_when_disabled_groups]; the files are not rewritten
    by the load, and a configuration with an entry for every platform is
    loaded back identical. *)
Theorem filter_round_trip (s : State) (st : Store) :
  let saved := save_disabled_groups s st in
  let loaded_set := load_or_initialize_set saved in
  let loaded_config := load_filter_config loaded_set.2 in
  loaded_set.1 = inr (disabled_group_set s) /\
  (forall source,
     disabled_groups_of loaded_config.1 source = disabled_groups_of (filter_config s) source) /\
  do_not_download_media_groups loaded_config.1 =
    do_not_download_media_groups (filter_config s) /\
  bili_auto_download_when_disabled_groups loaded_config.1 =
    bili_auto_download_when_disabled_groups (filter_config s) /\
  loaded_config.2 = saved /\
  ((forall source, is_Some (filter_dict (filter_config s) !! source)) ->
   loaded_config.1 = filter_config s).
Proof.
  cbn zeta. unfold save_disabled_groups, load_or_initialize_set, load_filter_config.
  cbn [DISABLED_GROUPS FILTER_CONFIG_FILE mbind option_bind fst snd].
  rewrite as_int_list_dump. cbn [fst snd FILTER_CONFIG_FILE].
  rewrite FilterConfig_round_trip. cbn [fst snd filter_dict do_not_download_media_groups
    bili_auto_download_when_disabled_groups].
  split; [by rewrite list_to_set_elements_L|].
  split; [by apply (disabled_groups_setdefaults SOURCE_TYPES)|].
  split; [done|]. split; [done|]. split; [done|].
  intros Hall. rewrite setdefaults_id by done. by destruct (filter_config s).
Qed.

(** The loops of the two generations agree: the only difference between
    the two functions is what [source_alias] denotes in the older one. *)
Lemma alias_loops_agree (s : State) (event : MessageEvent) (alias : string) its :
  FilterOld.alias_loop s event (FilterOld.PyStr alias) its = Filter.alias_loop s event alias its.
Proof.
  induction its as [|[source aliases] its IH]; cbn; [done|].
  by rewrite IH.
Qed.

(** C9 (the code departs from the claim). For every filter state, event
    and alias, the older [is_not_in_disabled_groups_by_source_alias]
    raises [AttributeError] (its parameter [source_alias] hides the
    dictionary of that name, and a [str] has no [items]), while the newer
    one returns a boolean. *)
Theorem alias_rule_generations (s : State) (event : MessageEvent) (alias : string) :
  FilterOld.is_not_in_disabled_groups_by_source_alias s event alias = inl AttributeError /\
  exists b, Filter.is_not_in_disabled_groups_by_source_alias s event alias = inr b.
Proof. split; [reflexivity | eexists; reflexivity]. Qed.

End FilterFacts.

(** ** The coordinator: rate window, upload retry, duration ceiling *)

Section CoordinatorClaims.

Import Dedup Host Bilibili Loop.

(** C2. After [mark_as_processed] of a key at clock [t_mark], a call of
    [should_process_video] for that key at a clock less than
    [RATE_LIMIT_SECONDS] after the mark answers false, and a call at or
    after that answers true; and every call deletes from the table exactly
    the entries older than the window and leaves every other entry as it
    was. *)
Theorem rate_window_and_sweep (g : Z) (v : string) (lp : gmap ResourceKey Q)
    (t_mark now : Q) :
  let marked := Dedup.mark_as_processed t_mark g v lp in
  ((now - t_mark < RATE_LIMIT_SECONDS)%Q ->
     (Dedup.should_process_video now g v marked).1 = false) /\
  ((RATE_LIMIT_SECONDS <= now - t_mark)%Q ->
     (Dedup.should_process_video now g v marked).1 = true) /\
  (forall (g' : Z) (v' : string) (k : ResourceKey),
     let swept := (Dedup.should_process_video now g' v' lp).2 in
     (forall t, lp !! k = Some t ->
        ((RATE_LIMIT_SECONDS < now - t)%Q -> swept !! k = None) /\
        ((now - t <= RATE_LIMIT_SECONDS)%Q -> swept !! k = Some t)) /\
     (lp !! k = None -> swept !! k = None)).
Proof.
  cbn zeta. split; [|split].
  - intros Hlt. eapply marked_suppressed; [apply lookup_insert_eq | done].
  - intros Hge. rewrite should_process_video_answer.
    unfold Dedup.mark_as_processed. rewrite lookup_insert_eq.
    apply negb_true_iff, Qlt_bool_false, Hge.
  - intros g' v' k. rewrite should_process_video_table, lookup_sweep. split.
    + intros t ->. split; intros H.
      * assert (Qgt_bool (now - t) RATE_LIMIT_SECONDS = true) as -> by by apply Qlt_bool_true.
        done.
      * assert (Qgt_bool (now - t) RATE_LIMIT_SECONDS = false) as -> by by apply Qlt_bool_false.
        done.
    + by intros ->.
Qed.

Lemma rate_window_and_sweep_witness :
  (Dedup.should_process_video (299 # 1) 7 "BV1xx411c7mD"
     (Dedup.mark_as_processed (0 # 1) 7 "BV1xx411c7mD" ∅)).1 = false.
Proof.
  apply (proj1 (rate_window_and_sweep 7 "BV1xx411c7mD" ∅ (0 # 1) (299 # 1))).
  reflexivity.
Defined.






(** C6. With [DURATION_MAXIMUM = 600], [download_and_send_video] on a video
    of 601 seconds is the task that returns false: no effect at all, so no
    download and no exception. On a video of 599 seconds it goes on to the
    download block: the first event is the test of the cached file, and
    when the file is absent the next event is a download. *)
Theorem duration_ceiling cfg matcher info video_id page_num :
  DURATION_MAXIMUM cfg = 600 ->
  (video_duration info = 601 ->
     download_and_send_video cfg matcher info video_id page_num = Ret false /\
     forall env n sh,
       exec env (download_and_send_video cfg matcher info video_id page_num) n sh =
       {| trace := []; final := sh; outcome := Returned false |}) /\
  (video_duration info = 599 ->
     forall env n sh,
       let video_path :=
         (plugin_cache_dir cfg +:+ "/" +:+ (video_id +:+ "-" +:+ pretty page_num) +:+ ".mp4") in
       let r := exec env (download_and_send_video cfg matcher info video_id page_num) n sh in
       exists rest,
         trace r = Tested video_path (path_exists env video_path n) :: rest /\
         (path_exists env video_path n = false ->
            exists e rest', rest = e :: rest' /\ is_download e = true)).
Proof.
  intros Hmax. unfold download_and_send_video. rewrite Hmax. split; intros ->.
  - by split.
  - intros env n sh. cbn zeta.
    change (600 <? 599) with false. cbn iota.
    cbn [exec bind mbind task_bind log trace].
    eexists. split; [reflexivity|]. intros ->. cbn [negb].
    destruct (negb (audio_url info =? ""))%string;
      cbn [exec bind mbind task_bind await log trace]; eauto.
Qed.


(** C10. A private message event forms the key with group id 0, whoever
    the user is. So after an invocation of either handler for one private
    user has got past the double check for a video, an invocation of
    either handler for another private user and the same video, at a clock
    less than [RATE_LIMIT_SECONDS] after the mark, is stopped by
    [should_process_video] before any other effect. *)
Theorem private_chats_share_one_key cfg env1 env2 sh (u1 u2 : Z) (video_id : string)
    (auto1 auto2 : bool) kw1 kw2 p1 p2 ty1 ty2 :
  let key := (0, video_id) in
  let r1 := exec env1 (video_flow cfg auto1 (PrivateMessageEvent u1) kw1 video_id p1 ty1) 0 sh in
  (group_id_of (PrivateMessageEvent u1), video_id) = key /\
  (group_id_of (PrivateMessageEvent u2), video_id) = key /\
  (passes_double_check key r1 ->
   exists t_mark,
     last_processed (final r1) !! key = Some t_mark /\
     ((time_time env2 0 - t_mark < RATE_LIMIT_SECONDS)%Q ->
      let r2 := exec env2 (video_flow cfg auto2 (PrivateMessageEvent u2) kw2 video_id p2 ty2)
                  0 (final r1) in
      (Dedup.should_process_video (time_time env2 0)
         (group_id_of (PrivateMessageEvent u2)) video_id (last_processed (final r1))).1 = false /\
      trace r2 = [Checked key (time_time env2 0) false] /\
      outcome r2 = Returned tt)).
Proof.
  cbn zeta. split; [done|]. split; [done|]. intros Hpass.
  assert (Hm : marked_before_work (0, video_id)
            (exec env1 (video_flow cfg auto1 (PrivateMessageEvent u1) kw1 video_id p1 ty1) 0 sh)).
  { destruct auto1; [by apply flow_auto_download | by apply flow_bilibili]. }
  destruct Hm as (pre & t_mark & w & _ & _ & _ & Hl & Hs).
  exists t_mark. split; [done|]. intros Hlt.
  specialize (Hs _ Hlt). cbn [fst snd] in Hs. cbn [group_id_of].
  split; [done|].
  destruct auto2; unfold video_flow, auto_download_video, bilibili_video,
    Host.should_process_video;
    cbn [exec bind mbind task_bind group_id_of];
    destruct (Dedup.should_process_video _ _ _ _) as [ok lp']; cbn [fst] in Hs; subst ok;
    by cbn [negb exec log trace outcome].
Qed.


End CoordinatorClaims.

(** ** Locks under interleaving *)

Section LoopClaims.
Import Dedup Host Bilibili Loop.

Lemma handler_tasks_bracketed cfg (invocations : list Invocation) :
  Forall (bracketed None) (handler_task cfg <$> invocations).
Proof.
  apply Forall_fmap, Forall_forall. intros i _. unfold handler_task, compose.
  destruct (matcher i);
    [apply bracketed_bilibili_handle | apply bracketed_auto_download_handle].
Qed.

Lemma inside_not_finished key t : inside key t -> finished t = false.
Proof. by destruct t. Qed.

(** Mutual exclusion: at most one invocation is inside the guarded
    section of a key, whatever the schedule and the answers of the world. *)
Lemma at_most_one_inside cfg lp (invocations : list Invocation) schedule key
    tid1 tid2 t1 t2 :
  let s := run (start lp (handler_task cfg <$> invocations)) schedule in
  pool s !! tid1 = Some t1 -> pool s !! tid2 = Some t2 ->
  inside key t1 -> inside key t2 -> tid1 = tid2.
Proof.
  cbn zeta.
  destruct (run_inv _ schedule (start_inv lp _ (handler_tasks_bracketed cfg invocations)))
    as [Hlocks _].
  apply (owner_unique _ _ (Hlocks key)).
Qed.

(** C7. A handler run alone, against any world and from any state of the
    globals: if it acquires the lock of a key, then the last event of the
    run is the release of that lock and the lock is free at the end,
    whether the run ends normally, returns early from the double check or
    raises. And for any invocations of the two handlers interleaved under
    any schedule and any answers of the world: whenever the lock of a key
    is held, some invocation that has not finished is inside the guarded
    section of that key; so once every invocation has returned or raised,
    no lock is held. *)
Theorem lock_released_on_every_exit (cfg : Config) (env : Env) (sh : Shared)
    (event : MessageEvent) (text keyword : string)
    (lp : gmap ResourceKey Q) (invocations : list Invocation) (schedule : list Label) :
  let r1 := exec env (bilibili_handle cfg event text keyword) 0 sh in
  let r2 := exec env (bilibili_auto_download_handle cfg event text keyword) 0 sh in
  let s := run (start lp (handler_task cfg <$> invocations)) schedule in
  (releases_what_it_acquired r1 /\ releases_what_it_acquired r2) /\
  (forall key, is_locked key (processing_locks (shared s)) = true ->
     exists tid t, pool s !! tid = Some t /\ finished t = false /\ inside key t) /\
  ((forall tid t, pool s !! tid = Some t -> finished t = true) ->
   forall key, is_locked key (processing_locks (shared s)) = false).
Proof.
  cbn zeta. split; [apply handlers_release|].
  destruct (run_inv _ schedule (start_inv lp _ (handler_tasks_bracketed cfg invocations)))
    as [Hlocks _].
  assert (Hheld : forall key,
    is_locked key (processing_locks
      (shared (run (start lp (handler_task cfg <$> invocations)) schedule))) = true ->
    exists tid t,
      pool (run (start lp (handler_task cfg <$> invocations)) schedule) !! tid = Some t /\
      finished t = false /\ inside key t).
  { intros key Hl. destruct (held_has_owner _ _ (Hlocks key) Hl) as (tid & t & Ht & Hi).
    exists tid, t. by split; [|split; [apply (inside_not_finished key)|]]. }
  split; [exact Hheld|].
  intros Hdone key. destruct (is_locked key _) eqn:Hl; [|done].
  destruct (Hheld key Hl) as (tid & t & Ht & Hf & _).
  rewrite (Hdone _ _ Ht) in Hf. discriminate.
Qed.

Lemma lock_released_on_every_exit_witness :
  is_locked Sample.key
    (processing_locks (shared
       (run (start ∅ (handler_task Sample.cfg <$> [Sample.auto_invocation]))
            Sample.fetch_raises))) = false.
Proof.
  apply (proj2 (proj2 (lock_released_on_every_exit Sample.cfg
           (Sample.env_of Sample.fetch_fails Sample.clock) Sample.idle
           Sample.group_message "BV1xx411c7mD" "BV"
           ∅ [Sample.auto_invocation] Sample.fetch_raises))).
  intros [|tid] t Ht; vm_compute in Ht; [|discriminate].
  injection Ht as <-. reflexivity.
Defined.

(** C1 (the code departs from the claim). Two [bilibili_auto_download]
    invocations for the same (group, video): the first holds the lock and
    awaits the metadata; the second arrives 300 seconds after the mark,
    passes the dedup check, and is neither dropped nor returned: it is
    suspended in the queue of the lock. When the first releases, the
    second enters the section, passes the double check and processes the
    video again. Under the same arrival times the second invocation of
    the [bilibili] handler, which asks [is_processing] first, returns at
    once; invocations of that handler never wait ([bilibili_never_waits]).
    Mutual exclusion itself holds: [at_most_one_inside]. *)
Theorem auto_download_waits_for_lock :
  let tasks := handler_task Sample.cfg <$> [Sample.auto_invocation; Sample.auto_invocation] in
  let s := run (start ∅ tasks) Sample.second_arrives_late in
  let s' := run s Sample.first_leaves_second_resumes in
  let full := handler_task Sample.cfg <$> [Sample.full_invocation; Sample.full_invocation] in
  let sf := run (start ∅ full) Sample.second_arrives_late_full in
  (status s 0 = Some (Awaiting (gather_download_file_by_stream
                       ("https://upos/video.m4s", "BV1xx411c7mD-1-video.m4s")
                       ("https://upos/audio.m4s", "BV1xx411c7mD-1-audio.m4s"))) /\
   status s 1 = Some (WaitingForLock Sample.key) /\
   processing_locks (shared s) !! Sample.key =
     Some {| locked := true; waiters := [(1%nat, false)] |}) /\
  (status s' 0 = Some HasReturned /\
   status s' 1 = Some (Awaiting (parse_video_info (bvid "BV1xx411c7mD") 1)) /\
   last_processed (shared s') !! Sample.key = Some (inject_Z 1301)) /\
  (status sf 0 = Some (Awaiting (gather_download_file_by_stream
                        ("https://upos/video.m4s", "BV1xx411c7mD-1-video.m4s")
                        ("https://upos/audio.m4s", "BV1xx411c7mD-1-audio.m4s"))) /\
   status sf 1 = Some HasReturned).
Proof. vm_compute. repeat split. Qed.

End LoopClaims.

(** ** Runs on the sample world *)

Section SampleRuns.
Import Dedup Host Bilibili Loop.
Local Open Scope string_scope.




Lemma duration_ceiling_witness :
  download_and_send_video Sample.cfg bilibili (Sample.info 601) "BV1xx411c7mD" 1 = Ret false.
Proof.
  apply (proj1 (duration_ceiling Sample.cfg bilibili (Sample.info 601) "BV1xx411c7mD" 1
                  eq_refl)).
  reflexivity.
Defined.

Lemma private_chats_share_one_key_witness :
  let env := Sample.env_of (Sample.all_well 700) Sample.clock in
  let key := (0, "BV1xx411c7mD") in
  let r1 := exec env
              (video_flow Sample.cfg false (PrivateMessageEvent 1) "BV" "BV1xx411c7mD" 1 "BV")
              0 Sample.idle in
  exists t_mark,
    last_processed (final r1) !! key = Some t_mark /\
    ((time_time env 0 - t_mark < RATE_LIMIT_SECONDS)%Q ->
     let r2 := exec env
                 (video_flow Sample.cfg true (PrivateMessageEvent 2) "BV" "BV1xx411c7mD" 1 "BV")
                 0 (final r1) in
     (Dedup.should_process_video (time_time env 0)
        (group_id_of (PrivateMessageEvent 2)) "BV1xx411c7mD"
        (last_processed (final r1))).1 = false /\
     trace r2 = [Checked key (time_time env 0) false] /\
     outcome r2 = Returned tt).
Proof.
  apply (proj2 (proj2 (private_chats_share_one_key Sample.cfg
           (Sample.env_of (Sample.all_well 700) Sample.clock)
           (Sample.env_of (Sample.all_well 700) Sample.clock)
           Sample.idle 1 2 "BV1xx411c7mD" false true "BV" "BV" 1 1 "BV" "BV"))).
  exists 2%nat, 3%nat, (Sample.clock 3).
  split; [lia|]. split; vm_compute; reflexivity.
Defined.

Lemma filter_round_trip_witness :
  (Filter.load_filter_config
     (Filter.load_or_initialize_set
        (Filter.save_disabled_groups Sample.filter_state Sample.no_files)).2).1
  = Filter.filter_config Sample.filter_state.
Proof.
  apply (proj2 (proj2 (proj2 (proj2 (proj2
           (filter_round_trip Sample.filter_state Sample.no_files)))))).
  intros []; vm_compute; eexists; reflexivity.
Defined.

End SampleRuns.

(** ** The patterns, the parser and what the handlers raise *)

Section RegexFacts.
Import Host Bilibili Loop.
Local Open Scope string_scope.

Lemma append_cons a s t : String a s +:+ t = String a (s +:+ t).
Proof. reflexivity. Qed.

Lemma append_nil_l t : "" +:+ t = t.
Proof. reflexivity. Qed.

Lemma append_assoc s t u : (s +:+ t) +:+ u = s +:+ (t +:+ u).
Proof. induction s as [|a s IH]; [done|]. by rewrite !append_cons, IH. Qed.

Lemma append_nil_r s : s +:+ "" = s.
Proof. induction s as [|a s IH]; [done|]. by rewrite append_cons, IH. Qed.

Lemma length_append s t :
  String.length (s +:+ t) = (String.length s + String.length t)%nat.
Proof. induction s as [|a s IH]; [done|]. rewrite append_cons. cbn. by rewrite IH. Qed.

Lemma substring_append pre rest : String.substring 0 (String.length pre) (pre +:+ rest) = pre.
Proof.
  induction pre as [|a pre IH]; [by destruct rest|].
  rewrite append_cons. cbn. by rewrite IH.
Qed.

Lemma consumed_append pre rest : Py.consumed (pre +:+ rest) rest = pre.
Proof.
  unfold Py.consumed. rewrite length_append.
  replace (String.length pre + String.length rest - String.length rest)%nat
    with (String.length pre) by lia.
  apply substring_append.
Qed.

Lemma all_in_append cls s t :
  Py.all_in cls (s +:+ t) = Py.all_in cls s && Py.all_in cls t.
Proof.
  induction s as [|a s IH]; [done|]. rewrite append_cons. cbn. rewrite IH.
  by rewrite andb_assoc.
Qed.

Lemma rep_sound {R} cls min max s (k : string -> option R) x :
  Py.rep cls min max s k = Some x ->
  exists pre rest, s = pre +:+ rest /\ Py.all_in cls pre = true /\
    (min <= String.length pre)%nat /\
    (forall m, max = Some m -> (String.length pre <= m)%nat) /\
    k rest = Some x.
Proof.
  revert min max. induction s as [|a s IH]; intros min max; cbn [Py.rep].
  - destruct (min =? 0)%nat eqn:E; [|done]. apply Nat.eqb_eq in E as ->.
    intros Hk. exists "", "". repeat split; try done. cbn. lia.
  - assert (Hstop : (if (min =? 0)%nat then k (String a s) else None) = Some x ->
      exists pre rest, String a s = pre +:+ rest /\ Py.all_in cls pre = true /\
        (min <= String.length pre)%nat /\
        (forall m, max = Some m -> (String.length pre <= m)%nat) /\ k rest = Some x).
    { destruct (min =? 0)%nat eqn:E; [|done]. apply Nat.eqb_eq in E as ->.
      intros Hk. exists "", (String a s). repeat split; try done. cbn. lia. }
    destruct (cls a && Py.more_allowed max) eqn:Hc; [|done].
    apply andb_true_iff in Hc as [Ha Hmore].
    destruct (Py.rep cls (Nat.pred min) (Nat.pred <$> max) s k) as [r|] eqn:Hrec; [|done].
    intros [= ->]. apply IH in Hrec as (pre & rest & -> & Hall & Hmin & Hmax & Hk).
    exists (String a pre), rest. rewrite append_cons. split; [done|]. split.
    { cbn. by rewrite Ha, Hall. }
    split; [cbn; lia|]. split; [|done].
    intros m ->. cbn in Hmax. specialize (Hmax _ eq_refl).
    destruct m; [done|]. cbn in *. lia.
Qed.

Lemma match_re_sound {R} r s c (k : string -> Py.caps -> option R) x :
  Py.match_re r s c k = Some x ->
  exists rest c', Py.matches r s rest c c' /\ k rest c' = Some x.
Proof.
  revert s c k. induction r as [l|cls min max|r1 IH1 r2 IH2|r1 IH1 r2 IH2|r1 IH1|i r1 IH1];
    intros s c k; cbn [Py.match_re Py.matches].
  - destruct (Py.strip_prefix l s) as [rest|] eqn:E; [|done].
    apply strip_prefix_Some in E as ->. eauto.
  - intros (pre & rest & -> & ? & ? & ? & ?)%rep_sound. exists rest, c. split; [|done].
    by exists pre.
  - intros (mid & c1 & H1 & (rest & c2 & H2 & Hk)%IH2)%IH1. exists rest, c2. split; [|done].
    by exists mid, c1.
  - destruct (Py.match_re r1 s c k) as [y|] eqn:E.
    + intros [= ->]. apply IH1 in E as (rest & c' & H & Hk). exists rest, c'. by split; [left|].
    + intros (rest & c' & H & Hk)%IH2. exists rest, c'. by split; [right|].
  - destruct (Py.match_re r1 s c k) as [y|] eqn:E.
    + intros [= ->]. apply IH1 in E as (rest & c' & H & Hk). exists rest, c'. by split; [left|].
    + intros Hk. exists s, c. by split; [right|].
  - intros (rest & c1 & H & Hk)%IH1. exists rest, (Py.set_cap i (Py.consumed s rest) c1).
    split; [|done]. by exists c1.
Qed.

Lemma match_here_sound r s m :
  Py.match_here r s = Some m ->
  exists rest c', Py.matches r s rest {| Py.cap1 := None; Py.cap2 := None |} c' /\
    m = {| Py.group0 := Py.consumed s rest; Py.group1 := Py.cap1 c'; Py.group2 := Py.cap2 c' |}.
Proof.
  unfold Py.match_here. intros (rest & c' & H & [= <-])%match_re_sound. eauto.
Qed.

Lemma search_sound r s m :
  Py.search r s = Some m -> exists pre s', s = pre +:+ s' /\ Py.match_here r s' = Some m.
Proof.
  induction s as [|a s IH]; cbn [Py.search].
  - destruct (Py.match_here r "") eqn:E; [|done]. intros [= ->]. by exists "", "".
  - destruct (Py.match_here r (String a s)) eqn:E.
    + intros [= ->]. by exists "", (String a s).
    + intros (pre & s' & -> & H)%IH. by exists (String a pre), s'.
Qed.

(** [int] of a string of digits. *)
Lemma int_acc_digits s acc :
  Py.all_in Py.is_digit s = true -> 0 <= acc ->
  exists n, Py.int_acc acc s = Some n /\
    acc * 10 ^ Z.of_nat (String.length s) <= n < (acc + 1) * 10 ^ Z.of_nat (String.length s).
Proof.
  revert acc. induction s as [|a s IH]; intros acc Hall Hacc; cbn [Py.int_acc].
  - exists acc. split; [done|]. cbn. lia.
  - cbn in Hall. apply andb_true_iff in Hall as [Ha Hall]. rewrite Ha.
    assert (0 <= Z.of_nat (nat_of_ascii a - 48) <= 9) as Hd.
    { unfold Py.is_digit in Ha. apply andb_true_iff in Ha as [H1 H2].
      apply Nat.leb_le in H1, H2. lia. }
    destruct (IH (10 * acc + Z.of_nat (nat_of_ascii a - 48)) Hall ltac:(lia)) as (n & Hn & Hb).
    exists n. split; [done|].
    change (String.length (String a s)) with (S (String.length s)).
    rewrite Nat2Z.inj_succ, Z.pow_succ_r by lia.
    set (p := 10 ^ Z.of_nat (String.length s)) in *.
    assert (0 < p) by (apply Z.pow_pos_nonneg; lia). nia.
Qed.

Lemma int_digits s :
  Py.all_in Py.is_digit s = true -> s <> "" ->
  exists n, Py.int s = Some n /\ 0 <= n < 10 ^ Z.of_nat (String.length s).
Proof.
  intros Hall Hne. destruct s as [|a s]; [done|]. unfold Py.int.
  destruct (int_acc_digits (String a s) 0 Hall ltac:(lia)) as (n & Hn & Hb).
  exists n. split; [done|]. lia.
Qed.

Lemma substring_all s : String.substring 0 (String.length s) s = s.
Proof. induction s as [|a s IH]; [done|]. cbn. by rewrite IH. Qed.

Lemma is_bvid_intro x :
  String.length x = 10%nat -> Py.all_in bv_char x = true -> is_bvid ("BV" +:+ x) = true.
Proof.
  intros Hlen Hall. unfold is_bvid.
  change ("BV" +:+ x) with (String "B" (String "V" x)).
  assert (String.substring 2 10 (String "B" (String "V" x)) = x) as ->.
  { cbn [String.substring]. rewrite <- Hlen. apply substring_all. }
  rewrite Hall. cbn [String.length]. rewrite Hlen.
  by destruct x.
Qed.

Lemma is_avid_intro d :
  (6 <= String.length d)%nat -> Py.all_in Py.is_digit d = true -> is_avid d = true.
Proof.
  intros Hlen Hall. unfold is_avid. rewrite Hall, andb_true_r. by apply Nat.leb_le.
Qed.


Lemma all_in_impl (P Q : ascii -> bool) s :
  (forall c, P c = true -> Q c = true) -> Py.all_in P s = true -> Py.all_in Q s = true.
Proof.
  intros HPQ. induction s as [|a s IH]; [done|]. cbn.
  intros [Ha Hs]%andb_true_iff. by rewrite (HPQ _ Ha), IH.
Qed.

Lemma no_slash_contains sub s :
  Py.all_in no_slash s = true -> Py.contains (String "/" sub) s = false.
Proof.
  intros Hall. induction s as [|a s IH]; [done|].
  cbn [Py.all_in] in Hall. apply andb_true_iff in Hall as [Ha Hs].
  cbn [Py.contains String.prefix]. destruct (ascii_dec "/" a) as [<-|]; [by vm_compute in Ha|].
  by apply IH.
Qed.

Lemma no_slash_space c : Py.is_space c = true -> no_slash c = true.
Proof. destruct c as [[] [] [] [] [] [] [] []]; vm_compute; congruence. Qed.
Lemma no_slash_digit c : Py.is_digit c = true -> no_slash c = true.
Proof. destruct c as [[] [] [] [] [] [] [] []]; vm_compute; congruence. Qed.
Lemma no_slash_bv_char c : bv_char c = true -> no_slash c = true.
Proof. destruct c as [[] [] [] [] [] [] [] []]; vm_compute; congruence. Qed.

Lemma page_suffix_sound s rest c c' :
  Py.matches page_suffix s rest c c' ->
  exists tail, s = tail +:+ rest /\ Py.all_in no_slash tail = true /\
    Py.cap1 c' = Py.cap1 c /\
    (Py.cap2 c' = Py.cap2 c \/
     exists d, Py.cap2 c' = Some d /\ (1 <= String.length d <= 3)%nat /\
               Py.all_in Py.is_digit d = true).
Proof.
  unfold page_suffix. cbn [Py.matches].
  intros (mid & c1 & H1 & H2).
  assert (exists sp, s = sp +:+ mid /\ Py.all_in no_slash sp = true /\ c1 = c)
    as (sp & -> & Hsp & ->).
  { destruct H1 as [(sp & -> & Hall & _ & _ & ->)|[-> ->]].
    - exists sp. split; [done|]. split; [|done]. by apply (all_in_impl Py.is_space), Hall; apply no_slash_space.
    - by exists "". }
  destruct H2 as [(c2 & (d & -> & Hall & Hmin & Hmax & ->) & ->)|[-> ->]].
  - exists (sp +:+ d). rewrite append_assoc. split; [done|].
    rewrite all_in_append, Hsp, (all_in_impl _ _ _ no_slash_digit Hall).
    split; [done|]. rewrite consumed_append. split; [done|]. right.
    exists d. split; [done|]. split; [|done]. specialize (Hmax _ eq_refl). lia.
  - exists sp. by repeat split; [..|left].
Qed.

Lemma bv_body_sound s rest c c' :
  Py.matches (Py.Group 1 (Py.Seq (Py.Lit "BV") (Py.Rep bv_char 10 (Some 10%nat)))) s rest c c' ->
  exists x, s = ("BV" +:+ x) +:+ rest /\ String.length x = 10%nat /\ Py.all_in bv_char x = true /\
    c' = Py.set_cap 1 ("BV" +:+ x) c.
Proof.
  cbn [Py.matches].
  intros (c1 & (mid & c2 & [-> ->] & (x & -> & Hall & Hmin & Hmax & ->)) & ->).
  exists x. rewrite <- append_assoc, consumed_append. split; [by rewrite append_assoc|].
  split; [|done]. specialize (Hmax _ eq_refl). lia.
Qed.

Lemma bv_id_intro x :
  String.length x = 10%nat -> Py.all_in bv_char x = true -> bv_id (Some ("BV" +:+ x)).
Proof. intros. eexists. split; [done|]. by apply is_bvid_intro. Qed.

Lemma av_id_intro d :
  (6 <= String.length d)%nat -> Py.all_in Py.is_digit d = true -> av_id (Some d).
Proof. intros. eexists. split; [done|]. by apply is_avid_intro. Qed.

Lemma av_body_sound s rest c c' :
  Py.matches (Py.Group 1 (Py.Rep Py.is_digit 6 None)) s rest c c' ->
  exists d, s = d +:+ rest /\ (6 <= String.length d)%nat /\ Py.all_in Py.is_digit d = true /\
    c' = Py.set_cap 1 d c.
Proof.
  cbn [Py.matches]. intros (c1 & (d & -> & Hall & Hmin & Hmax & ->) & ->).
  exists d. by rewrite consumed_append.
Qed.

Lemma page_group_cases c2 :
  (c2 = None \/ exists d, c2 = Some d /\ (1 <= String.length d <= 3)%nat /\
                          Py.all_in Py.is_digit d = true) ->
  page_group c2.
Proof. intros [->|H]; [by left|by right; right]. Qed.

Lemma pattern_BV_sound s m :
  Py.match_here pattern_BV s = Some m ->
  bv_id (Py.group1 m) /\ page_group (Py.group2 m) /\ Py.all_in no_slash (Py.group0 m) = true.
Proof.
  intros (rest & c' & H & ->)%match_here_sound. cbn [Py.group0 Py.group1 Py.group2].
  unfold pattern_BV in H. cbn [Py.matches] in H. destruct H as (mid & c1 & H1 & H2).
  change (Py.matches _ s mid _ c1) with
    (Py.matches (Py.Group 1 (Py.Seq (Py.Lit "BV") (Py.Rep bv_char 10 (Some 10%nat)))) s mid
       {| Py.cap1 := None; Py.cap2 := None |} c1) in H1.
  apply bv_body_sound in H1 as (x & -> & Hlen & Hall & ->).
  apply page_suffix_sound in H2 as (tail & -> & Htail & Hc1 & Hc2).
  cbn [Py.set_cap Py.cap1 Py.cap2] in Hc1, Hc2. split; [|split].
  - rewrite Hc1. by apply bv_id_intro.
  - apply page_group_cases. destruct Hc2 as [->|?]; [by left|by right].
  - rewrite <- append_assoc, consumed_append, !all_in_append, Htail.
    by rewrite (all_in_impl _ _ _ no_slash_bv_char Hall).
Qed.

Lemma pattern_av_sound s m :
  Py.match_here pattern_av s = Some m ->
  av_id (Py.group1 m) /\ page_group (Py.group2 m) /\ Py.all_in no_slash (Py.group0 m) = true.
Proof.
  intros (rest & c' & H & ->)%match_here_sound. cbn [Py.group0 Py.group1 Py.group2].
  unfold pattern_av in H. cbn [Py.matches] in H.
  destruct H as (mid0 & c0 & [-> ->] & mid & c1 & H1 & H2).
  change (Py.matches _ mid0 mid _ c1) with
    (Py.matches (Py.Group 1 (Py.Rep Py.is_digit 6 None)) mid0 mid
       {| Py.cap1 := None; Py.cap2 := None |} c1) in H1.
  apply av_body_sound in H1 as (d & -> & Hlen & Hall & ->).
  apply page_suffix_sound in H2 as (tail & -> & Htail & Hc1 & Hc2).
  cbn [Py.set_cap Py.cap1 Py.cap2] in Hc1, Hc2. split; [|split].
  - rewrite Hc1. by apply av_id_intro.
  - apply page_group_cases. destruct Hc2 as [->|?]; [by left|by right].
  - rewrite <- !append_assoc, consumed_append, !all_in_append, Htail.
    by rewrite (all_in_impl _ _ _ no_slash_digit Hall).
Qed.

Lemma pattern_slash_BV_sound s m :
  Py.match_here pattern_slash_BV s = Some m -> bv_id (Py.group1 m).
Proof.
  intros (rest & c' & H & ->)%match_here_sound. cbn [Py.group0 Py.group1 Py.group2].
  unfold pattern_slash_BV in H. cbn [Py.matches] in H.
  destruct H as (mid0 & c0 & [-> ->] & mid & c1 & H1 & c2 & [-> ->] & ->).
  change (Py.matches _ mid0 rest _ c1) with
    (Py.matches (Py.Group 1 (Py.Seq (Py.Lit "BV") (Py.Rep bv_char 10 (Some 10%nat)))) mid0 rest
       {| Py.cap1 := None; Py.cap2 := None |} c1) in H1.
  apply bv_body_sound in H1 as (x & -> & Hlen & Hall & ->).
  by apply bv_id_intro.
Qed.

Lemma pattern_slash_av_sound s m :
  Py.match_here pattern_slash_av s = Some m -> av_id (Py.group1 m).
Proof.
  intros (rest & c' & H & ->)%match_here_sound. cbn [Py.group0 Py.group1 Py.group2].
  unfold pattern_slash_av in H. cbn [Py.matches] in H.
  destruct H as (mid0 & c0 & [-> ->] & mid & c1 & H1 & c2 & [-> ->] & ->).
  change (Py.matches _ mid0 rest _ c1) with
    (Py.matches (Py.Group 1 (Py.Rep Py.is_digit 6 None)) mid0 rest
       {| Py.cap1 := None; Py.cap2 := None |} c1) in H1.
  apply av_body_sound in H1 as (d & -> & Hlen & Hall & ->).
  by apply av_id_intro.
Qed.

Lemma empty_groups_sound s rest c c' :
  Py.matches empty_groups s rest c c' ->
  s = rest /\ Py.cap1 c' = Some "" /\ Py.cap2 c' = Some "".
Proof.
  unfold empty_groups. cbn [Py.matches].
  intros (mid & c1 & (c2 & [-> ->] & ->) & (c3 & [-> ->] & ->)).
  pose proof (consumed_append "" rest) as E. rewrite append_nil_l in E.
  rewrite !append_nil_l, !E. done.
Qed.

Lemma page_param_sound s m :
  Py.match_here page_param s = Some m ->
  exists d, Py.group1 m = Some d /\ (1 <= String.length d <= 3)%nat /\
            Py.all_in Py.is_digit d = true.
Proof.
  intros (rest & c' & H & ->)%match_here_sound. cbn [Py.group0 Py.group1 Py.group2].
  unfold page_param in H. cbn [Py.matches] in H.
  destruct H as (mid0 & c0 & _ & mid & c1 & [-> ->] & c2 & (d & -> & Hall & Hmin & Hmax & ->) & ->).
  exists d. rewrite consumed_append. split; [by destruct c0|]. split; [|done].
  specialize (Hmax _ eq_refl). lia.
Qed.

Lemma seq_ends_empty r1 r2 s rest c c' :
  (forall s rest c c', Py.matches r2 s rest c c' ->
     Py.cap1 c' = Some "" /\ Py.cap2 c' = Some "") ->
  Py.matches (Py.Seq r1 r2) s rest c c' -> Py.cap1 c' = Some "" /\ Py.cap2 c' = Some "".
Proof. intros H2 (mid & c1 & _ & H). by eapply H2. Qed.

Lemma empty_groups_caps s rest c c' :
  Py.matches empty_groups s rest c c' -> Py.cap1 c' = Some "" /\ Py.cap2 c' = Some "".
Proof. by intros (_ & H)%empty_groups_sound. Qed.

Lemma link_pattern_sound keyword pattern s m :
  keyword ∈ ["b23"; "bili2233"; "bilibili"] ->
  PATTERNS_get keyword = Some pattern ->
  Py.match_here pattern s = Some m ->
  Py.group1 m = Some "" /\ Py.group2 m = Some "".
Proof.
  intros Hkw Hp (rest & c' & H & ->)%match_here_sound. cbn [Py.group1 Py.group2].
  repeat (apply elem_of_cons in Hkw as [->|Hkw]); [..|by apply elem_of_nil in Hkw];
    injection Hp as <-; revert H;
    repeat first [apply empty_groups_caps | apply seq_ends_empty; intros ? ? ? ?].
Qed.

Lemma search_match_here r s m :
  Py.search r s = Some m -> exists s', Py.match_here r s' = Some m.
Proof. intros (pre & s' & _ & H)%search_sound. eauto. Qed.

(** [parse_page_num] never raises on the groups of a match. *)
Lemma parse_page_num_ret url g :
  page_group g ->
  exists p, parse_page_num url g = Ret p /\ 0 <= p <= 999 /\
    (forall m, Py.search page_param url = Some m ->
       Py.int (Py.str (Py.group1 m)) = Some p) /\
    (Py.search page_param url = None -> g = None \/ g = Some "" -> p = 1) /\
    (Py.search page_param url = None -> forall d, g = Some d -> d <> "" -> Py.int d = Some p).
Proof.
  intros Hg. unfold parse_page_num.
  assert (exists p0, match g with
                     | None | Some "" => Ret 1
                     | Some s => int_or_raise s
                     end = Ret p0 /\ 0 <= p0 <= 999 /\
                     (g = None \/ g = Some "" -> p0 = 1) /\
                     (forall d, g = Some d -> d <> "" -> Py.int d = Some p0))
    as (p0 & -> & Hp0 & Hone & Hd).
  { destruct Hg as [->|[->|(d & -> & Hlen & Hall)]].
    - exists 1. repeat split; try lia; done.
    - exists 1. split; [done|]. split; [lia|]. split; [done|]. by intros d [= <-].
    - destruct (int_digits d Hall) as (n & Hn & Hb); [intros ->; cbn in Hlen; lia|].
      exists n. unfold int_or_raise. rewrite Hn. split; [by destruct d|].
      split.
      { assert (10 ^ Z.of_nat (String.length d) <= 10 ^ 3) by (apply Z.pow_le_mono_r; lia).
        lia. }
      split; [by intros [?|[= ->]]|]. by intros ? [= <-] _. }
  cbn [mbind task_bind bind].
  assert (Py.search page_param "" = None) as Hempty by reflexivity.
  destruct (String.eqb url "") eqn:Eurl.
  - apply String.eqb_eq in Eurl as ->. rewrite Hempty.
    exists p0. split; [done|]. split; [done|]. split; [done|]. split; [by intros _|by intros _].
  - destruct (Py.search page_param url) as [m|] eqn:Em.
    + pose proof Em as (s' & Hm)%search_match_here.
      apply page_param_sound in Hm as (d & Hg1 & Hlen & Hall).
      destruct (int_digits d Hall) as (n & Hn & Hb); [intros ->; cbn in Hlen; lia|].
      exists n. rewrite Hg1. cbn [Py.str from_option id]. unfold int_or_raise. rewrite Hn.
      split; [done|]. split.
      { assert (10 ^ Z.of_nat (String.length d) <= 10 ^ 3) by (apply Z.pow_le_mono_r; lia).
        lia. }
      split; [|done]. intros m' [= <-]. by rewrite Hg1.
    + exists p0. split; [done|]. split; [done|]. split; [done|]. split; [by intros _|by intros _].
Qed.

(** The re-scan of the URL gives a well-formed identifier. *)
Lemma rescan_url_link keyword url :
  keyword ∈ ["b23"; "bili2233"; "bilibili"] ->
  let '(video_id, video_type) := rescan_url keyword url "" in
  ((video_type = "av" /\ is_avid video_id = true) \/
   (video_type = "BV" /\ (video_id = "" \/ is_bvid video_id = true))) /\
  (find_id_type url = None -> video_id = "").
Proof.
  intros Hkw. unfold rescan_url.
  destruct (find_id_type url) as [id_type|] eqn:Hid.
  - assert (id_type = "/BV" \/ id_type = "/av") as [-> | ->].
    { revert Hid. unfold find_id_type. cbn [List.find].
      destruct (Py.contains "/BV" url); [intros [= <-]; by left|].
      destruct (Py.contains "/av" url); [intros [= <-]; by right|]. done. }
    + change (PATTERNS_get "/BV") with (Some pattern_slash_BV). cbn [mbind option_bind].
      destruct (Py.search pattern_slash_BV url) as [m|] eqn:Em.
      * pose proof Em as (s' & Hm)%search_match_here.
        apply pattern_slash_BV_sound in Hm as (vid & -> & Hvid). cbn [Py.str from_option id].
        split; [|done]. right. split; [reflexivity|by right].
      * split; [|done]. right. by split; [|left].
    + change (PATTERNS_get "/av") with (Some pattern_slash_av). cbn [mbind option_bind].
      destruct (Py.search pattern_slash_av url) as [m|] eqn:Em.
      * pose proof Em as (s' & Hm)%search_match_here.
        apply pattern_slash_av_sound in Hm as (vid & -> & Hvid). cbn [Py.str from_option id].
        split; [|done]. left. by split.
      * split; [|done]. right. by split; [|left].
  - rewrite bool_decide_eq_false_2.
    + split; [|done]. right. by split; [|left].
    + intros Hav. repeat (apply elem_of_cons in Hkw as [->|Hkw]); [..|by apply elem_of_nil in Hkw];
        repeat (apply elem_of_cons in Hav as [Hav|Hav]; [discriminate|]);
        by apply elem_of_nil in Hav.
Qed.

Lemma rescan_url_no_slash keyword url video_id :
  Py.all_in no_slash url = true ->
  rescan_url keyword url video_id =
  (video_id, if bool_decide (keyword ∈ ["av"; "/av"]) then "av" else "BV").
Proof.
  intros Hns. unfold rescan_url, find_id_type. cbn [List.find].
  rewrite !no_slash_contains by done. by destruct (bool_decide _).
Qed.

Lemma leaves_mono {A} (Q Q' : A -> Prop) (E E' : Exn -> Prop) (t : Task A) :
  (forall a, Q a -> Q' a) -> (forall e, E e -> E' e) -> leaves Q E t -> leaves Q' E' t.
Proof.
  intros HQ. revert E E'.
  induction t as [a|e|X op k IH|p k IH|g v k IH|g v k IH|key k IH|key k IH|key k IH];
    intros E E' HE; cbn [leaves]; eauto.
  intros H r. eapply IH; [|apply H]. cbn beta. intros e [?|?]; eauto.
Qed.

Lemma leaves_bind {A B} (Q : A -> Prop) (Q' : B -> Prop) (E : Exn -> Prop)
    (t : Task A) (f : A -> Task B) :
  leaves Q E t -> (forall a, Q a -> leaves Q' E (f a)) -> leaves Q' E (bind t f).
Proof.
  revert E.
  induction t as [a|e|X op k IH|p k IH|g v k IH|g v k IH|key k IH|key k IH|key k IH];
    intros E Ht Hf; cbn [leaves bind] in *; eauto.
  intros r. apply IH; [apply Ht|]. intros a Ha.
  eapply leaves_mono; [by intros ? H; apply H| |by apply Hf]. cbn beta. eauto.
Qed.

Lemma exec_leaves {A} env (Q : A -> Prop) (E : Exn -> Prop) (t : Task A) held n sh :
  bracketed held t ->
  (forall key, held = Some key -> locked (get_lock key (processing_locks sh)) = true) ->
  leaves Q E t ->
  match outcome (exec env t n sh) with
  | Returned a => Q a
  | Raised e => E e \/ raised_upstream e (exec env t n sh)
  | Blocked _ => True
  end.
Proof.
  revert held E n sh.
  induction t as [a|e|X op k IH|p k IH|g v k IH|g v k IH|key k IH|key k IH|key k IH];
    intros held E n sh Hb Hheld Ht; cbn [leaves exec bracketed] in *.
  - done.
  - by left.
  - specialize (IH _ held _ (S n) sh (Hb _) Hheld (Ht (answer env X op n))).
    cbn [log outcome]. destruct (outcome (exec env (k _) (S n) sh)) as [a|e|key]; [done| |done].
    destruct IH as [[HE|Hr]|(Y & op' & Hin)].
    + by left.
    + right. exists X, op. cbn [log trace]. rewrite Hr. constructor.
    + right. exists Y, op'. cbn [log trace]. by constructor.
  - specialize (IH _ held _ (S n) sh (Hb _) Hheld (Ht (path_exists env p n))).
    cbn [log outcome]. destruct (outcome (exec env (k _) (S n) sh)) as [a|e|key]; [done| |done].
    destruct IH as [HE|(Y & op' & Hin)]; [by left|].
    right. exists Y, op'. cbn [log trace]. by constructor.
  - destruct (Dedup.should_process_video _ _ _ _) as [ok lp].
    specialize (IH _ held _ (S n) (set_last_processed lp sh) (Hb _) Hheld (Ht ok)).
    cbn [log outcome]. destruct (outcome (exec env (k _) (S n) _)) as [a|e|key]; [done| |done].
    destruct IH as [HE|(Y & op' & Hin)]; [by left|].
    right. exists Y, op'. cbn [log trace]. by constructor.
  - specialize (IH held _ (S n) (set_last_processed
       (Dedup.mark_as_processed (time_time env n) g v (last_processed sh)) sh) Hb Hheld Ht).
    cbn [log outcome]. destruct (outcome (exec env k (S n) _)) as [a|e|key]; [done| |done].
    destruct IH as [HE|(Y & op' & Hin)]; [by left|].
    right. exists Y, op'. cbn [log trace]. by constructor.
  - specialize (IH _ held _ (S n) sh (Hb _) Hheld (Ht (is_locked key (processing_locks sh)))).
    cbn [log outcome]. destruct (outcome (exec env (k _) (S n) sh)) as [a|e|key']; [done| |done].
    destruct IH as [HE|(Y & op' & Hin)]; [by left|].
    right. exists Y, op'. cbn [log trace]. by constructor.
  - destruct Hb as [-> Hb]. destruct (can_take _); [|done].
    assert (forall key', Some key = Some key' ->
              locked (get_lock key' (processing_locks
                (set_lock key (take (get_lock key (processing_locks sh))) sh))) = true) as Hl.
    { intros ? [= <-]. cbn. by rewrite get_lock_insert. }
    specialize (IH (Some key) E (S n)
                  (set_lock key (take (get_lock key (processing_locks sh))) sh) Hb Hl Ht).
    cbn [log outcome].
    destruct (outcome (exec env k (S n) _)) as [a|e|key']; [done| |done].
    destruct IH as [HE|(Y & op' & Hin)]; [by left|].
    right. exists Y, op'. cbn [log trace]. by constructor.
  - destruct Hb as [-> Hb]. rewrite (Hheld key eq_refl).
    specialize (IH _ None _ (S n) (set_lock key (release (get_lock key (processing_locks sh))) sh)
                  (Hb true) ltac:(done) Ht).
    cbn [log outcome]. destruct (outcome (exec env (k _) (S n) _)) as [a|e|key']; [done| |done].
    destruct IH as [HE|(Y & op' & Hin)]; [by left|].
    right. exists Y, op'. cbn [log trace]. by constructor.
Qed.

Lemma not_link_BV : "BV" ∉ ["b23"; "bili2233"; "bilibili"].
Proof. intros H. repeat (apply elem_of_cons in H as [H|H]; [discriminate|]). by apply elem_of_nil in H. Qed.
Lemma not_link_av : "av" ∉ ["b23"; "bili2233"; "bilibili"].
Proof. intros H. repeat (apply elem_of_cons in H as [H|H]; [discriminate|]). by apply elem_of_nil in H. Qed.

(** The end of [parse_video_id_from_text] for a keyword that is an
    identifier. *)
Lemma finish_id keyword (m : Py.Match) (ty : string) :
  keyword ∈ ["BV"; "av"] ->
  (if bool_decide (keyword ∈ ["av"; "/av"]) then "av" else "BV") = keyword ->
  (keyword = "av" -> av_id (Py.group1 m)) ->
  (keyword = "BV" -> bv_id (Py.group1 m)) ->
  page_group (Py.group2 m) ->
  Py.all_in no_slash (Py.group0 m) = true ->
  exists res,
    (let '(video_id, video_type) :=
       rescan_url keyword (Py.group0 m) (Py.str (Py.group1 m)) in
     page_num ← parse_page_num (Py.group0 m) (Py.group2 m);
     Ret (Some (Py.group0 m, video_id, page_num, video_type))) = Ret res /\
    parsed_reference keyword res.
Proof.
  intros Hkw Hty Hav Hbv Hpage Hns. rewrite rescan_url_no_slash by done. rewrite Hty.
  destruct (parse_page_num_ret (Py.group0 m) _ Hpage) as (p & -> & Hp & Hparam & _).
  eexists. split; [reflexivity|]. cbn [parsed_reference]. split; [done|].
  split; [|split; [done|split]].
  - apply elem_of_cons in Hkw as [->|Hkw].
    + right. destruct (Hbv eq_refl) as (vid & -> & Hvid).
      change (Py.str (Some vid)) with vid. split; [done|by right].
    + apply elem_of_cons in Hkw as [->|Hkw]; [|by apply elem_of_nil in Hkw].
      left. destruct (Hav eq_refl) as (vid & -> & Hvid).
      change (Py.str (Some vid)) with vid. by split.
  - intros Hlink. exfalso.
    apply elem_of_cons in Hkw as [->|Hkw]; [by apply not_link_BV|].
    apply elem_of_cons in Hkw as [->|Hkw]; [by apply not_link_av|by apply elem_of_nil in Hkw].
  - intros _. split; [done|].
    apply elem_of_cons in Hkw as [->|Hkw].
    + destruct (Hbv eq_refl) as (vid & -> & Hvid).
      change (Py.str (Some vid)) with vid. by intros ->.
    + apply elem_of_cons in Hkw as [->|Hkw]; [|by apply elem_of_nil in Hkw].
      destruct (Hav eq_refl) as (vid & -> & Hvid).
      change (Py.str (Some vid)) with vid. by intros ->.
Qed.

Lemma finish_link keyword (m : Py.Match) url :
  keyword ∈ ["b23"; "bili2233"; "bilibili"] ->
  Py.group1 m = Some "" -> Py.group2 m = Some "" ->
  exists res,
    (let '(video_id, video_type) := rescan_url keyword url (Py.str (Py.group1 m)) in
     page_num ← parse_page_num url (Py.group2 m);
     Ret (Some (url, video_id, page_num, video_type))) = Ret res /\
    parsed_reference keyword res.
Proof.
  intros Hkw -> ->. change (Py.str (Some "")) with "".
  pose proof (rescan_url_link keyword url Hkw) as Hre.
  destruct (rescan_url keyword url "") as [video_id video_type].
  destruct Hre as [Hwf Hnone].
  destruct (parse_page_num_ret url (Some "")) as (p & -> & Hp & Hparam & Hone & _);
    [by right; left|].
  eexists. split; [reflexivity|]. cbn [parsed_reference]. split; [done|].
  split; [done|]. split; [done|]. split.
  - intros _. split; [|done]. intros Hs. apply (Hone Hs). by right.
  - intros Hid. exfalso.
    repeat (apply elem_of_cons in Hid as [->|Hid]);
      [revert Hkw; apply not_link_BV|revert Hkw; apply not_link_av|by apply elem_of_nil in Hid].
Qed.

Lemma parse_leaves text keyword :
  keyword ∈ ["bilibili"; "bili2233"; "b23"; "BV"; "av"] ->
  leaves (parsed_reference keyword) (fun _ => False) (parse_video_id_from_text text keyword).
Proof.
  intros Hkw. unfold parse_video_id_from_text.
  repeat (apply elem_of_cons in Hkw as [->|Hkw]); [..|by apply elem_of_nil in Hkw].
  - (* bilibili *)
    change (PATTERNS_get "bilibili") with (Some pattern_bilibili); cbv beta iota.
    destruct (Py.search pattern_bilibili text) as [m|] eqn:Em; [|exact I].
    pose proof Em as (s' & Hm)%search_match_here.
    apply (link_pattern_sound "bilibili") in Hm as [H1 H2];
      [|repeat constructor|reflexivity].
    rewrite bool_decide_eq_false_2
      by (intros H; repeat (apply elem_of_cons in H as [H|H]; [discriminate|]);
          by apply elem_of_nil in H).
    cbn [mbind task_bind bind].
    destruct (finish_link "bilibili" m (Py.group0 m)) as (res & -> & Hres);
      [repeat constructor|done..|]. done.
  - (* bili2233 *)
    change (PATTERNS_get "bili2233") with (Some pattern_bili2233); cbv beta iota.
    destruct (Py.search pattern_bili2233 text) as [m|] eqn:Em; [|exact I].
    pose proof Em as (s' & Hm)%search_match_here.
    apply (link_pattern_sound "bili2233") in Hm as [H1 H2];
      [|repeat constructor|reflexivity].
    rewrite bool_decide_eq_true_2 by repeat constructor.
    cbn [mbind task_bind bind await leaves]. intros [u|e]; cbn [bind leaves]; [|by right].
    destruct (String.eqb u (Py.group0 m)); cbn [bind leaves]; [done|].
    destruct (finish_link "bili2233" m u) as (res & -> & Hres);
      [repeat constructor|done..|]. done.
  - (* b23 *)
    change (PATTERNS_get "b23") with (Some pattern_b23); cbv beta iota.
    destruct (Py.search pattern_b23 text) as [m|] eqn:Em; [|exact I].
    pose proof Em as (s' & Hm)%search_match_here.
    apply (link_pattern_sound "b23") in Hm as [H1 H2];
      [|repeat constructor|reflexivity].
    rewrite bool_decide_eq_true_2 by repeat constructor.
    cbn [mbind task_bind bind await leaves]. intros [u|e]; cbn [bind leaves]; [|by right].
    destruct (String.eqb u (Py.group0 m)); cbn [bind leaves]; [done|].
    destruct (finish_link "b23" m u) as (res & -> & Hres);
      [repeat constructor|done..|]. done.
  - (* BV *)
    change (PATTERNS_get "BV") with (Some pattern_BV); cbv beta iota.
    destruct (Py.search pattern_BV text) as [m|] eqn:Em; [|exact I].
    pose proof Em as (s' & Hm)%search_match_here.
    apply pattern_BV_sound in Hm as (H1 & H2 & H0).
    rewrite bool_decide_eq_false_2
      by (intros H; repeat (apply elem_of_cons in H as [H|H]; [discriminate|]);
          by apply elem_of_nil in H).
    cbn [mbind task_bind bind].
    destruct (finish_id "BV" m "BV") as (res & -> & Hres);
      [repeat constructor|reflexivity|done|done|done|done|]. done.
  - (* av *)
    change (PATTERNS_get "av") with (Some pattern_av); cbv beta iota.
    destruct (Py.search pattern_av text) as [m|] eqn:Em; [|exact I].
    pose proof Em as (s' & Hm)%search_match_here.
    apply pattern_av_sound in Hm as (H1 & H2 & H0).
    rewrite bool_decide_eq_false_2
      by (intros H; repeat (apply elem_of_cons in H as [H|H]; [discriminate|]);
          by apply elem_of_nil in H).
    cbn [mbind task_bind bind].
    destruct (finish_id "av" m "av") as (res & -> & Hres);
      [repeat constructor|reflexivity|done|done|done|done|]. done.
Qed.

Lemma leaves_await {X} (Q : X -> Prop) E (op : Ext X) :
  (forall x, Q x) -> leaves Q E (await op).
Proof. intros HQ [x|e]; cbn; [apply HQ|by right]. Qed.

Lemma leaves_try_finally {A} (Q : A -> Prop) E (t : Task A) (fin : Task unit) :
  leaves Q E t -> (forall E', leaves (fun _ => True) E' fin) -> leaves Q E (try_finally t fin).
Proof.
  intros Ht Hfin. revert E Ht.
  induction t as [a|e|X op k IH|p k IH|g v k IH|g v k IH|key k IH|key k IH|key k IH];
    intros E Ht; cbn [leaves try_finally] in *; eauto.
  - eapply leaves_bind; [apply Hfin|]. by intros _ _.
  - eapply leaves_bind; [apply Hfin|]. by intros _ _.
Qed.

Lemma leaves_try_except {A} (Q : A -> Prop) E (t : Task A) (h : Exn -> Task A) :
  leaves Q (fun _ => False) t ->
  (forall e E', E' e -> leaves Q E' (h e)) ->
  leaves Q E (try_except t h).
Proof.
  intros Ht Hh.
  enough (forall E0 E, (forall e, E0 e -> E e) -> leaves Q E0 t ->
            (forall e, E0 e -> leaves Q E (h e)) -> leaves Q E (try_except t h)) as H.
  { apply (H (fun _ => False)); [done|done|done]. }
  clear E Ht. intros E0 E HE Ht He. revert E0 E HE Ht He.
  induction t as [a|e|X op k IH|p k IH|g v k IH|g v k IH|key k IH|key k IH|key k IH];
    intros E0 E HE Ht He; cbn [leaves try_except] in *; eauto.
  intros r. eapply (IH r (fun e => E0 e \/ r = inr e)); [|apply Ht|].
  - intros e [?|?]; [left; by apply HE|by right].
  - intros e [H0|Hr].
    + eapply leaves_mono; [by intros ? H; apply H| |by apply He]. cbn beta. eauto.
    + apply Hh. by right.
Qed.

Lemma lock_free_bracketed {A} (t : Task A) : lock_free t -> bracketed None t.
Proof.
  induction t as [a|e|X op k IH|p k IH|g v k IH|g v k IH|key k IH|key k IH|key k IH];
    cbn [lock_free bracketed]; eauto; done.
Qed.

Section HandlerLeaves.
Context (cfg : Config).

Lemma leaves_send_video E m p : leaves (fun _ => True) E (send_video m p).
Proof.
  unfold send_video. apply leaves_try_except; [by apply leaves_await|].
  intros e E' He. destruct e; try exact He.
  destruct (negb _); [exact He|].
  eapply leaves_bind; [by apply (leaves_await (fun _ => True))|]. intros h264 _.
  by apply leaves_await.
Qed.

Lemma leaves_download_and_send_video E m info v page :
  leaves (fun _ => True) E (download_and_send_video cfg m info v page).
Proof.
  unfold download_and_send_video.
  destruct (DURATION_MAXIMUM cfg <? video_duration info)%Z; [exact I|].
  cbn [mbind task_bind bind leaves]. intros cached.
  eapply leaves_bind with (Q := fun _ => True).
  - destruct (negb cached); [|exact I].
    destruct (negb _); [|by apply leaves_await].
    eapply leaves_bind; [by apply (leaves_await (fun _ => True))|]. intros [v_path a_path] _.
    eapply leaves_bind; [by apply (leaves_await (fun _ => True))|]. intros; exact I.
  - intros p _. eapply leaves_bind; [apply leaves_send_video|]. intros; exact I.
Qed.

Lemma leaves_get_video_info E ty v page :
  (ty = "av" -> is_avid v = true) ->
  leaves (fun _ => True) E (get_video_info ty v page).
Proof.
  intros Hav. unfold get_video_info. destruct (String.eqb ty "av") eqn:Ety.
  - apply String.eqb_eq in Ety. specialize (Hav Ety).
    unfold is_avid in Hav. apply andb_true_iff in Hav as [Hlen Hall].
    apply Nat.leb_le in Hlen.
    destruct (int_digits v Hall) as (n & Hn & _); [intros ->; cbn in Hlen; lia|].
    unfold int_or_raise. rewrite Hn. cbn [mbind task_bind bind]. by apply leaves_await.
  - by apply leaves_await.
Qed.

Lemma leaves_bilibili_guarded E keyword v page ty g :
  (ty = "av" -> is_avid v = true) ->
  leaves (fun _ => True) E (bilibili_guarded cfg keyword v page ty g).
Proof.
  intros Hav. unfold bilibili_guarded, Host.should_process_video, Host.mark_as_processed.
  cbn [mbind task_bind bind leaves]. intros [|]; cbn [negb bind leaves]; [|done].
  eapply leaves_bind; [by apply (leaves_await (fun _ => True))|]. intros _ _.
  eapply leaves_bind; [by apply leaves_get_video_info|]. intros info _.
  eapply leaves_bind; [by apply (leaves_await (fun _ => True))|]. intros cover _.
  eapply leaves_bind; [by apply (leaves_await (fun _ => True))|]. intros _ _.
  eapply leaves_bind; [apply leaves_download_and_send_video|]. intros; exact I.
Qed.

Lemma leaves_auto_download_guarded E v page ty g :
  (ty = "av" -> is_avid v = true) ->
  leaves (fun _ => True) E (auto_download_guarded cfg v page ty g).
Proof.
  intros Hav. unfold auto_download_guarded, Host.should_process_video, Host.mark_as_processed.
  cbn [mbind task_bind bind leaves]. intros [|]; cbn [negb bind leaves]; [|done].
  eapply leaves_bind; [by apply leaves_get_video_info|]. intros info _.
  eapply leaves_bind; [apply leaves_download_and_send_video|]. intros; exact I.
Qed.

Lemma leaves_section {A} (Q : A -> Prop) E key (body : Task A) :
  leaves Q E body -> leaves Q E (async_with_lock key body).
Proof.
  intros Hb. unfold async_with_lock. cbn [leaves].
  apply leaves_try_finally; [done|]. intros E'. exact I.
Qed.

Lemma leaves_bilibili_video E event keyword v page ty :
  (ty = "av" -> is_avid v = true) ->
  leaves (fun _ => True) E (bilibili_video cfg event keyword v page ty).
Proof.
  intros Hav. unfold bilibili_video, Host.should_process_video, is_processing.
  cbn [mbind task_bind bind leaves]. intros [|]; cbn [negb bind leaves]; [|done].
  intros [|]; [done|]. by apply leaves_section, leaves_bilibili_guarded.
Qed.

Lemma leaves_auto_download_video E event v page ty :
  (ty = "av" -> is_avid v = true) ->
  leaves (fun _ => True) E (auto_download_video cfg event v page ty).
Proof.
  intros Hav. unfold auto_download_video, Host.should_process_video.
  cbn [mbind task_bind bind leaves]. intros [|]; cbn [negb bind leaves]; [|done].
  by apply leaves_section, leaves_auto_download_guarded.
Qed.

Lemma parsed_reference_av keyword url v page ty :
  parsed_reference keyword (Some (url, v, page, ty)) -> ty = "av" -> is_avid v = true.
Proof. intros (_ & [[_ H]|[-> _]] & _); [done|discriminate]. Qed.

Lemma leaves_bilibili_handle event text keyword :
  keyword ∈ ["bilibili"; "bili2233"; "b23"; "BV"; "av"] ->
  leaves (fun _ => True) (fun e => e = FinishedException)
    (bilibili_handle cfg event text keyword).
Proof.
  intros Hkw. unfold bilibili_handle. eapply leaves_bind.
  - eapply leaves_mono; [..|by apply parse_leaves]; [intros a H; exact H|done].
  - intros [[[[url v] page] ty]|] Hres; [|exact I].
    destruct (String.eqb v "").
    + cbn [mbind task_bind bind await leaves]. intros [b|e]; cbn [bind leaves]; [by left|by right].
    + eapply leaves_bilibili_video, parsed_reference_av, Hres.
Qed.

Lemma leaves_auto_download_handle event text keyword :
  keyword ∈ ["bilibili"; "bili2233"; "b23"; "BV"; "av"] ->
  leaves (fun _ => True) (fun _ => False)
    (bilibili_auto_download_handle cfg event text keyword).
Proof.
  intros Hkw. unfold bilibili_auto_download_handle. eapply leaves_bind.
  - by apply parse_leaves.
  - intros [[[[url v] page] ty]|] Hres; [|exact I].
    destruct (String.eqb v ""); [exact I|].
    eapply leaves_auto_download_video, parsed_reference_av, Hres.
Qed.

End HandlerLeaves.

(** For a keyword that is not a short link [parse_video_id_from_text]
    is a value. *)
Lemma parse_local text keyword :
  keyword ∈ ["bilibili"; "BV"; "av"] ->
  exists res, parse_video_id_from_text text keyword = Ret res.
Proof.
  intros Hkw. unfold parse_video_id_from_text.
  repeat (apply elem_of_cons in Hkw as [->|Hkw]); [..|by apply elem_of_nil in Hkw].
  - change (PATTERNS_get "bilibili") with (Some pattern_bilibili); cbv beta iota.
    destruct (Py.search pattern_bilibili text) as [m|] eqn:Em; [|by eexists].
    pose proof Em as (s' & Hm)%search_match_here.
    apply (link_pattern_sound "bilibili") in Hm as [H1 H2];
      [|repeat constructor|reflexivity].
    rewrite bool_decide_eq_false_2
      by (intros H; repeat (apply elem_of_cons in H as [H|H]; [discriminate|]);
          by apply elem_of_nil in H).
    cbn [mbind task_bind bind].
    destruct (finish_link "bilibili" m (Py.group0 m)) as (res & -> & Hres);
      [repeat constructor|done..|]. by eexists.
  - change (PATTERNS_get "BV") with (Some pattern_BV); cbv beta iota.
    destruct (Py.search pattern_BV text) as [m|] eqn:Em; [|by eexists].
    pose proof Em as (s' & Hm)%search_match_here.
    apply pattern_BV_sound in Hm as (H1 & H2 & H0).
    rewrite bool_decide_eq_false_2
      by (intros H; repeat (apply elem_of_cons in H as [H|H]; [discriminate|]);
          by apply elem_of_nil in H).
    cbn [mbind task_bind bind].
    destruct (finish_id "BV" m "BV") as (res & -> & Hres);
      [repeat constructor|reflexivity|done|done|done|done|]. by eexists.
  - change (PATTERNS_get "av") with (Some pattern_av); cbv beta iota.
    destruct (Py.search pattern_av text) as [m|] eqn:Em; [|by eexists].
    pose proof Em as (s' & Hm)%search_match_here.
    apply pattern_av_sound in Hm as (H1 & H2 & H0).
    rewrite bool_decide_eq_false_2
      by (intros H; repeat (apply elem_of_cons in H as [H|H]; [discriminate|]);
          by apply elem_of_nil in H).
    cbn [mbind task_bind bind].
    destruct (finish_id "av" m "av") as (res & -> & Hres);
      [repeat constructor|reflexivity|done|done|done|done|]. by eexists.
Qed.

Lemma exec_parse_leaves env text keyword n sh :
  keyword ∈ ["bilibili"; "bili2233"; "b23"; "BV"; "av"] ->
  match outcome (exec env (parse_video_id_from_text text keyword) n sh) with
  | Returned a => parsed_reference keyword a
  | Raised e => raised_upstream e (exec env (parse_video_id_from_text text keyword) n sh)
  | Blocked _ => True
  end.
Proof.
  intros Hkw.
  pose proof (exec_leaves env _ _ _ None n sh
                (lock_free_bracketed _ (io_only_lock_free _ (io_only_parse text keyword)))
                ltac:(done) (parse_leaves text keyword Hkw)) as H.
  destruct (outcome _); [done| |done]. by destruct H.
Qed.



(** X5. [parse_video_id_from_text] touches neither the dedup table nor a
    lock; an exception it raises is one that [get_redirect_url] raised into
    it; and for the keywords "bilibili", "BV" and "av" it calls nothing and
    returns. *)
Theorem parse_external_calls env text keyword n sh :
  keyword ∈ ["bilibili"; "bili2233"; "b23"; "BV"; "av"] ->
  let r := exec env (parse_video_id_from_text text keyword) n sh in
  final r = sh /\
  (forall e, outcome r = Raised e ->
     exists u, Called (get_redirect_url u) (inr e) ∈ trace r) /\
  (keyword ∈ ["bilibili"; "BV"; "av"] -> trace r = [] /\ exists res, outcome r = Returned res).
Proof.
  intros Hkw. cbn zeta.
  destruct (parse_run env text keyword n sh) as (Hfin & Hlinks & Hnb).
  split; [done|]. split.
  - intros e He. pose proof (exec_parse_leaves env text keyword n sh Hkw) as H.
    rewrite He in H. destruct H as (X & op & Hin).
    rewrite Forall_forall in Hlinks. specialize (Hlinks _ Hin).
    destruct op; try discriminate Hlinks. by exists url.
  - intros Hlocal. destruct (parse_local text keyword Hlocal) as (res & ->).
    split; [done|]. by exists res.
Qed.

(** X6. The body of a handler raises nothing of its own: run alone
    against any world, an exception that leaves [bilibili.handle] is the
    [FinishedException] of [finish()] or one that an awaited coroutine
    raised, and an exception that leaves [bilibili_auto_download.handle] is
    one that an awaited coroutine raised. In particular [int(video_id)]
    and the lock operations never raise. The identifier is taken to be of
    at most 4300 characters: CPython refuses [int] of a longer string of
    digits, a limit the embedding of [int] leaves out, so that the proof
    does not use the bound. *)
Theorem handlers_raise_only_upstream cfg env sh event text keyword :
  keyword ∈ ["bilibili"; "bili2233"; "b23"; "BV"; "av"] ->
  (forall url video_id page_num video_type,
     outcome (exec env (parse_video_id_from_text text keyword) 0 sh) =
       Returned (Some (url, video_id, page_num, video_type)) ->
     (String.length video_id <= 4300)%nat) ->
  let r1 := exec env (bilibili_handle cfg event text keyword) 0 sh in
  let r2 := exec env (bilibili_auto_download_handle cfg event text keyword) 0 sh in
  (forall e, outcome r1 = Raised e -> e = FinishedException \/ raised_upstream e r1) /\
  (forall e, outcome r2 = Raised e -> raised_upstream e r2).
Proof.
  intros Hkw _. cbn zeta. split; intros e He.
  - pose proof (exec_leaves env _ _ _ None 0 sh
                  (bracketed_bilibili_handle cfg event text keyword)
                  ltac:(done) (leaves_bilibili_handle cfg event text keyword Hkw)) as H.
    by rewrite He in H.
  - pose proof (exec_leaves env _ _ _ None 0 sh
                  (bracketed_auto_download_handle cfg event text keyword)
                  ltac:(done) (leaves_auto_download_handle cfg event text keyword Hkw)) as H.
    rewrite He in H. by destruct H.
Qed.

End RegexFacts.

(** ** The paths of the handlers and of the download block *)

Section FlowFacts.
Import Dedup Host Bilibili Loop.
Local Open Scope string_scope.

(** X7. A reference without a video identifier: [bilibili.handle] awaits
    [handle_non_video_content] on the url and ends with [finish()] whether
    it answers [True] or [False] (or with the exception it raised), and
    [bilibili_auto_download.handle] returns at once; neither touches the
    dedup table or a lock. *)
Theorem non_video_dispatch cfg env event text keyword sh url page_num video_type :
  let p := exec env (parse_video_id_from_text text keyword) 0 sh in
  let r1 := exec env (bilibili_handle cfg event text keyword) 0 sh in
  let r2 := exec env (bilibili_auto_download_handle cfg event text keyword) 0 sh in
  let reply := answer env bool (handle_non_video_content url) (length (trace p)) in
  outcome p = Returned (Some (url, "", page_num, video_type)) ->
  (trace r1 = (trace p ++ [Called (handle_non_video_content url) reply])%list /\
   outcome r1 = Raised (match reply with inl _ => FinishedException | inr e => e end) /\
   final r1 = sh) /\
  r2 = {| trace := trace p; final := sh; outcome := Returned tt |}.
Proof.
  cbn zeta. intros Hout.
  destruct (parse_run env text keyword 0 sh) as (Hfin & _ & _).
  unfold bilibili_handle, bilibili_auto_download_handle. rewrite !exec_mbind. unfold then_run.
  rewrite Hout, Hfin. cbn [String.eqb]. split.
  - cbn [mbind task_bind bind await exec log trace final outcome Nat.add].
    destruct (answer env bool _ _) as [b|e]; cbn [bind exec log trace final outcome];
      by rewrite ?app_nil_r.
  - cbn [exec trace final outcome]. by rewrite app_nil_r.
Qed.

(** X8. The early returns before the lock, for either handler from the
    parsed reference on: within the window after the mark of the key the
    only event is the dedup check and no lock object is created; and
    [bilibili.handle], finding the lock of the key held, returns after the
    check and the probe without creating or queueing on a lock. *)
Theorem video_flow_short_circuits cfg env auto event keyword video_id page_num video_type n sh :
  let key := (group_id_of event, video_id) in
  let now := time_time env n in
  let r := exec env (video_flow cfg auto event keyword video_id page_num video_type) n sh in
  (forall t, last_processed sh !! key = Some t -> (now - t < RATE_LIMIT_SECONDS)%Q ->
     trace r = [Checked key now false] /\ outcome r = Returned tt /\
     processing_locks (final r) = processing_locks sh) /\
  (auto = false ->
   (Dedup.should_process_video now key.1 key.2 (last_processed sh)).1 = true ->
   is_locked key (processing_locks sh) = true ->
     trace r = [Checked key now true; Probed key true] /\ outcome r = Returned tt /\
     processing_locks (final r) = processing_locks sh).
Proof.
  cbn zeta. split.
  - intros t Ht Hnow.
    pose proof (marked_suppressed _ _ _ _ _ Ht Hnow) as Hno.
    unfold video_flow, auto_download_video, bilibili_video, Host.should_process_video.
    destruct auto; cbn [mbind task_bind bind exec];
      destruct (Dedup.should_process_video _ _ _ _) as [ok lp]; cbn [fst] in Hno; subst ok;
      cbn [negb bind exec log trace final outcome]; done.
  - intros -> Hok Hlocked.
    unfold video_flow, bilibili_video, Host.should_process_video, is_processing.
    cbn [mbind task_bind bind exec].
    destruct (Dedup.should_process_video _ _ _ _) as [ok lp]; cbn [fst snd] in Hok; subst ok.
    cbn [negb bind exec log trace final outcome set_last_processed processing_locks].
    rewrite Hlocked. cbn [bind exec log trace final outcome]. done.
Qed.

(** The end of [download_and_send_video]: the upload of [path], then
    [return True]. *)
Lemma exec_upload env matcher path n sh :
  let u := exec env (send_video matcher path) n sh in
  exec env (send_video matcher path ≫= fun _ => Ret true) n sh =
  {| trace := trace u; final := final u;
     outcome := match outcome u with
                | Returned _ => Returned true
                | Raised e => Raised e
                | Blocked k => Blocked k
                end |}.
Proof.
  cbn zeta. rewrite exec_mbind. unfold then_run.
  destruct (outcome (exec env (send_video matcher path) n sh)); cbn [exec trace final outcome];
    by rewrite ?app_nil_r.
Qed.

(** X9. The download block of [download_and_send_video] for a video within
    the duration ceiling: a cached file is uploaded without any download;
    otherwise, without an audio stream the whole video is downloaded and
    the path the download returns is uploaded, and with an audio stream the
    two streams are downloaded together, merged into the cache path, and
    that path is uploaded; a failure of a download or of the merge is
    raised before any upload. *)
Theorem download_paths cfg env matcher info video_id page_num n sh :
  let file_name := video_id +:+ "-" +:+ pretty page_num in
  let video_path := plugin_cache_dir cfg +:+ "/" +:+ file_name +:+ ".mp4" in
  let r := exec env (download_and_send_video cfg matcher info video_id page_num) n sh in
  let gather := gather_download_file_by_stream
                  (video_url info, file_name +:+ "-video.m4s")
                  (audio_url info, file_name +:+ "-audio.m4s") in
  let whole := download_video (video_url info) (file_name +:+ ".mp4") in
  let upload path m := exec env (send_video matcher path) m sh in
  let sent (u : Run unit) := match outcome u with
                             | Returned _ => Returned true
                             | Raised e => Raised e
                             | Blocked k => Blocked k
                             end in
  (DURATION_MAXIMUM cfg <? video_duration info)%Z = false ->
  (path_exists env video_path n = true ->
     trace r = Tested video_path true :: trace (upload video_path (S n)) /\
     outcome r = sent (upload video_path (S n))) /\
  (path_exists env video_path n = false -> audio_url info = "" ->
     match answer env _ whole (S n) with
     | inl path =>
         trace r = Tested video_path false :: Called whole (inl path)
                     :: trace (upload path (S (S n))) /\
         outcome r = sent (upload path (S (S n)))
     | inr e =>
         trace r = [Tested video_path false; Called whole (inr e)] /\ outcome r = Raised e
     end) /\
  (path_exists env video_path n = false -> audio_url info <> "" ->
     match answer env _ gather (S n) with
     | inl (v_path, a_path) =>
         match answer env _ (merge_av v_path a_path video_path) (S (S n)) with
         | inl _ =>
             trace r = Tested video_path false :: Called gather (inl (v_path, a_path))
                         :: Called (merge_av v_path a_path video_path) (inl tt)
                         :: trace (upload video_path (S (S (S n)))) /\
             outcome r = sent (upload video_path (S (S (S n))))
         | inr e =>
             trace r = [Tested video_path false; Called gather (inl (v_path, a_path));
                        Called (merge_av v_path a_path video_path) (inr e)] /\
             outcome r = Raised e
         end
     | inr e =>
         trace r = [Tested video_path false; Called gather (inr e)] /\ outcome r = Raised e
     end).
Proof.
  cbn zeta. intros Hdur. unfold download_and_send_video. rewrite Hdur.
  rewrite exec_mbind. cbn [exec]. unfold then_run.
  cbn [log outcome trace final length app]. rewrite Nat.add_1_r. split; [|split].
  - intros ->. cbn [negb]. rewrite exec_mbind. cbn [exec]. unfold then_run.
    cbn [log outcome trace final length app]. rewrite Nat.add_0_r.
    rewrite exec_upload. cbn [trace outcome]. by split.
  - intros -> Haudio. rewrite Haudio. cbn [negb String.eqb].
    rewrite exec_mbind. unfold await. cbn [exec]. unfold then_run.
    destruct (answer env string _ (S n)) as [path|e];
      cbn [exec log outcome trace final length app]; [|done].
    rewrite Nat.add_1_r. rewrite exec_upload. cbn [trace outcome]. by split.
  - intros -> Haudio. apply String.eqb_neq in Haudio. rewrite Haudio. cbn [negb].
    rewrite exec_mbind. unfold then_run.
    rewrite exec_mbind. unfold await. cbn [exec]. unfold then_run.
    destruct (answer env (string * string)%type _ (S n)) as [[v_path a_path]|e];
      cbn [exec log outcome trace final length app]; [|done].
    rewrite exec_mbind. cbn [exec]. unfold then_run.
    rewrite Nat.add_1_r.
    destruct (answer env unit _ (S (S n))) as [[]|e];
      cbn [exec log outcome trace final length app]; [|done].
    replace (S n + 2)%nat with (S (S (S n))) by lia.
    rewrite exec_upload. cbn [trace outcome]. by split.
Qed.

End FlowFacts.

Section FlowWitnesses.
Import Dedup Host Bilibili Loop.
Local Open Scope string_scope.



Lemma parse_external_calls_witness :
  trace (exec (Sample.env_of Sample.fetch_fails Sample.clock)
           (parse_video_id_from_text "av170001 2" "av") 0 Sample.idle) = [] /\
  exists res, outcome (exec (Sample.env_of Sample.fetch_fails Sample.clock)
                         (parse_video_id_from_text "av170001 2" "av") 0 Sample.idle)
              = Returned res.
Proof.
  refine (proj2 (proj2 (parse_external_calls (Sample.env_of Sample.fetch_fails Sample.clock)
                          "av170001 2" "av" 0 Sample.idle _)) _);
    repeat constructor.
Defined.

Lemma handlers_raise_only_upstream_witness :
  raised_upstream (OtherException "ParseException")
    (exec (Sample.env_of Sample.fetch_fails Sample.clock)
       (bilibili_auto_download_handle Sample.cfg Sample.group_message "BV1xx411c7mD" "BV")
       0 Sample.idle).
Proof.
  refine (proj2 (handlers_raise_only_upstream Sample.cfg
                   (Sample.env_of Sample.fetch_fails Sample.clock) Sample.idle
                   Sample.group_message "BV1xx411c7mD" "BV" _ _) _ _).
  - repeat constructor.
  - intros url video_id page_num video_type H. vm_compute in H.
    injection H as _ <- _ _. simpl. lia.
  - vm_compute. reflexivity.
Defined.

Lemma non_video_dispatch_witness :
  outcome (exec (Sample.env_of (Sample.all_well 0) Sample.clock)
             (bilibili_handle Sample.cfg Sample.group_message
                "https://t.bilibili.com/1029384756" "bilibili") 0 Sample.idle)
  = Raised FinishedException.
Proof.
  refine (proj1 (proj2 (proj1 (non_video_dispatch Sample.cfg
            (Sample.env_of (Sample.all_well 0) Sample.clock) Sample.group_message
            "https://t.bilibili.com/1029384756" "bilibili" Sample.idle
            "https://t.bilibili.com/1029384756" 1 "BV" _)))).
  vm_compute. reflexivity.
Defined.

Lemma video_flow_short_circuits_witness :
  trace (exec (Sample.env_of (Sample.all_well 0) Sample.clock)
           (video_flow Sample.cfg true Sample.group_message "BV" "BV1xx411c7mD" 1 "BV") 0
           {| last_processed := {[ Sample.key := inject_Z 900 ]}; processing_locks := ∅ |})
  = [Checked Sample.key (inject_Z 1000) false].
Proof.
  refine (proj1 (proj1 (video_flow_short_circuits Sample.cfg
            (Sample.env_of (Sample.all_well 0) Sample.clock) true Sample.group_message
            "BV" "BV1xx411c7mD" 1 "BV" 0
            {| last_processed := {[ Sample.key := inject_Z 900 ]}; processing_locks := ∅ |})
            (inject_Z 900) _ _)).
  - vm_compute. reflexivity.
  - vm_compute. reflexivity.
Defined.

Lemma download_paths_witness :
  outcome (exec (Sample.env_of (Sample.all_well 500) Sample.clock)
             (download_and_send_video Sample.cfg bilibili (Sample.info 500) "BV1xx411c7mD" 1)
             0 Sample.idle)
  = Returned true.
Proof.
  refine (proj2 (proj2 (proj2 (download_paths Sample.cfg
            (Sample.env_of (Sample.all_well 500) Sample.clock) bilibili (Sample.info 500)
            "BV1xx411c7mD" 1 0 Sample.idle _)) _ _)).
  - reflexivity.
  - reflexivity.
  - discriminate.
Defined.

End FlowWitnesses.

(** ** The dedup table under interleaving *)

Section DedupCompose.
Import Dedup.

Lemma Qgt_bool_true a b : Qgt_bool a b = true <-> (b < a)%Q.
Proof. apply Qlt_bool_true. Qed.

Lemma Qgt_bool_false a b : Qgt_bool a b = false <-> (a <= b)%Q.
Proof. apply Qlt_bool_false. Qed.

(** X1. A call of [should_process_video] made no later than a second one
    changes neither the answer of the second nor the table the second
    leaves: what the first sweeps away the second would sweep away too. *)
Theorem checks_compose (now now' : Q) g v g' v' lp :
  (now <= now')%Q ->
  should_process_video now' g' v' (should_process_video now g v lp).2 =
  should_process_video now' g' v' lp.
Proof.
  intros Hle.
  rewrite (surjective_pairing (should_process_video now' g' v' _)).
  rewrite (surjective_pairing (should_process_video now' g' v' lp)).
  f_equal.
  - rewrite !should_process_video_answer, should_process_video_table, lookup_sweep.
    destruct (lp !! (g', v')) as [t|]; [|done].
    destruct (Qgt_bool (now - t) RATE_LIMIT_SECONDS) eqn:E; [|done].
    symmetry. apply negb_true_iff, Qlt_bool_false. apply Qgt_bool_true in E.
    unfold RATE_LIMIT_SECONDS in *. lra.
  - rewrite !should_process_video_table. apply map_eq. intros k. rewrite !lookup_sweep.
    destruct (lp !! k) as [t|]; [|done].
    destruct (Qgt_bool (now - t) RATE_LIMIT_SECONDS) eqn:E; [|done].
    apply Qgt_bool_true in E.
    destruct (Qgt_bool (now' - t) RATE_LIMIT_SECONDS) eqn:E'; [done|].
    apply Qgt_bool_false in E'. unfold RATE_LIMIT_SECONDS in *. lra.
Qed.

Lemma checks_compose_witness :
  should_process_video (400 # 1) 7 "b"
    (should_process_video (100 # 1) 7 "a" (mark_as_processed (0 # 1) 7 "a" ∅)).2 =
  should_process_video (400 # 1) 7 "b" (mark_as_processed (0 # 1) 7 "a" ∅).
Proof. apply (checks_compose (100 # 1) (400 # 1)). vm_compute. discriminate. Defined.

(** X2. A mark is per key: [mark_as_processed] for one key leaves the
    answer of [should_process_video] for every other key as it was. *)
Theorem marks_are_per_key (now t : Q) g v g' v' lp :
  (g, v) <> (g', v') ->
  (should_process_video now g' v' (mark_as_processed t g v lp)).1 =
  (should_process_video now g' v' lp).1 /\
  (should_process_video now g v (mark_as_processed t g' v' lp)).1 =
  (should_process_video now g v lp).1.
Proof.
  intros Hne. rewrite !should_process_video_answer. unfold mark_as_processed.
  by rewrite !lookup_insert_ne.
Qed.

Lemma marks_are_per_key_witness :
  (should_process_video (10 # 1) 8 "BV1xx411c7mD"
     (mark_as_processed (0 # 1) 7 "BV1xx411c7mD" ∅)).1 =
  (should_process_video (10 # 1) 8 "BV1xx411c7mD" ∅).1.
Proof.
  refine (proj1 (marks_are_per_key (10 # 1) (0 # 1) 7 "BV1xx411c7mD" 8 "BV1xx411c7mD" ∅ _)).
  intros [= ?].
Defined.

End DedupCompose.

Section MarksSpaced.
Import Dedup Host Bilibili Loop.

Lemma marks_inv_mono T T' s : (T <= T')%Q -> marks_inv T s -> marks_inv T' s.
Proof.
  intros Hle [Ha Hts]. split.
  - intros key t0 H. specialize (Ha _ _ H). lra.
  - intros tid t H. destruct (Hts _ _ H) as [?|(g & v & k & -> & Hk & Hr & Hage)]; [by left|].
    right. exists g, v, k. repeat split; try done.
    intros t0 H0. specialize (Hage _ H0). lra.
Qed.

Lemma spaced_mono t T T' key s : (T <= T')%Q -> spaced t T key s -> spaced t T' key s.
Proof.
  unfold spaced. intros Hle. destruct (last_processed (shared s) !! key); [done|]. lra.
Qed.

(** The table after a check holds entries of the table before. *)
Lemma swept_entry now g v lp key t0 :
  (Dedup.should_process_video now g v lp).2 !! key = Some t0 -> lp !! key = Some t0.
Proof.
  rewrite should_process_video_table, lookup_sweep.
  destruct (lp !! key) as [t|]; [|done]. by destruct (Qgt_bool _ _).
Qed.

Lemma answered_yes now g v lp t0 :
  (Dedup.should_process_video now g v lp).1 = true ->
  lp !! (g, v) = Some t0 -> (RATE_LIMIT_SECONDS <= now - t0)%Q.
Proof.
  rewrite should_process_video_answer. intros H Ht. rewrite Ht in H.
  by apply negb_true_iff, Qlt_bool_false in H.
Qed.

Lemma marks_step T s l : marks_inv T s -> (T <= now l)%Q -> marks_inv (now l) (step s l).
Proof.
  intros Hinv Hle. pose proof (marks_inv_mono _ _ _ Hle Hinv) as Hmono.
  destruct Hinv as [Ha Hts]. unfold step.
  destruct (may_run (who l) (running s)) eqn:Hrun; [|done].
  destruct (pool s !! who l) as [t|] eqn:Ht; [|done].
  destruct (fire l (who l) t (shared s)) as [[t' sh']|] eqn:Hf; [|done].
  set (tid := who l) in *.
  assert (Hothers : forall x tx, x <> tid -> pool s !! x = Some tx -> checks_before_marks tx).
  { intros x tx Hne Hx. destruct (Hts _ _ Hx) as [Hp|(g & v & k & _ & _ & Hr & _)]; [done|].
    rewrite Hr in Hrun. cbn in Hrun. apply Nat.eqb_eq in Hrun. congruence. }
  assert (Hgoal : forall r,
    (forall key t0, last_processed sh' !! key = Some t0 -> (t0 <= now l)%Q) ->
    (checks_before_marks t' \/
     about_to_mark (now l) {| shared := sh'; pool := <[tid := t']> (pool s); running := r |}
       tid t') ->
    marks_inv (now l) {| shared := sh'; pool := <[tid := t']> (pool s); running := r |}).
  { intros r Ha' Ht'. split; [done|]. cbn [pool]. intros x tx.
    rewrite (pool_update _ _ _ _ _ Ht). case_decide as Hx.
    - intros [= <-]. by subst.
    - intros Hx'. left. by eapply Hothers. }
  assert (Hsame : forall key t0,
    last_processed (shared s) !! key = Some t0 -> (t0 <= now l)%Q).
  { intros key t0 H. specialize (Ha _ _ H). lra. }
  destruct (Hts _ _ Ht) as [Hp|(g & v & k & -> & Hk & Hr & Hage)].
  - destruct t as [a|e|X op k|p k|g v k|g v k|key k|key k|key k]; cbn [fire] in Hf;
      try done; cbn [checks_before_marks] in Hp.
    + injection Hf as <- <-. apply Hgoal; [done|]. left. apply Hp.
    + injection Hf as <- <-. apply Hgoal; [done|]. left. apply Hp.
    + destruct (Dedup.should_process_video (now l) g v (last_processed (shared s))) as [ok lp] eqn:Hc.
      injection Hf as <- <-. destruct Hp as [Hfalse Htrue]. apply Hgoal.
      * cbn. intros key t0 H. apply (Hsame key).
        apply (swept_entry (now l) g v). by rewrite Hc.
      * destruct ok; [|by left].
        destruct (k true) as [a|e|X op k'|p k'|g' v' k'|g' v' k'|key' k'|key' k'|key' k'] eqn:Hk;
          try (left; exact Htrue).
        destruct Htrue as [[= -> ->] Hk']. right. exists g, v, k'.
        split; [done|]. split; [done|]. split; [done|].
        cbn. intros t0 H0. apply (answered_yes (now l) g v (last_processed (shared s))).
        -- by rewrite Hc.
        -- apply (swept_entry (now l) g v). by rewrite Hc.
    + injection Hf as <- <-. apply Hgoal; [done|]. left. apply Hp.
    + destruct (waiting tid _) as [[|]|]; [| done |].
      * injection Hf as <- <-. apply Hgoal; [done|]. by left.
      * destruct (can_take _); injection Hf as <- <-; (apply Hgoal; [done|]); by left.
    + destruct (locked _); injection Hf as <- <-; (apply Hgoal; [done|]); left; apply Hp.
  - cbn [fire] in Hf. injection Hf as <- <-. apply Hgoal; [|by left].
    cbn. unfold Dedup.mark_as_processed. intros key t0. rewrite lookup_insert. case_decide.
    + intros [= <-]. lra.
    + apply Hsame.
Qed.

Lemma spaced_step t T key s l :
  marks_inv T s -> spaced t T key s -> (T <= now l)%Q -> spaced t (now l) key (step s l).
Proof.
  intros [Ha Hts] Hsp Hle. pose proof (spaced_mono _ _ _ _ _ Hle Hsp) as Hmono. unfold step.
  destruct (may_run (who l) (running s)) eqn:Hrun; [|done].
  destruct (pool s !! who l) as [tk|] eqn:Ht; [|done].
  destruct (fire l (who l) tk (shared s)) as [[t' sh']|] eqn:Hf; [|done].
  set (tid := who l) in *.
  assert (Hsame : forall r (pl : list (Task unit)),
            last_processed sh' = last_processed (shared s) ->
            spaced t (now l) key {| shared := sh'; pool := pl; running := r |}).
  { intros r pl E. unfold spaced in *. cbn [shared]. by rewrite E. }
  destruct (Hts _ _ Ht) as [Hp|(g & v & k & -> & Hk & Hr & Hage)].
  - destruct tk as [a|e|X op k|p k|g v k|g v k|key' k|key' k|key' k]; cbn [fire] in Hf;
      try done; cbn [checks_before_marks] in Hp.
    + injection Hf as <- <-. by apply Hsame.
    + injection Hf as <- <-. by apply Hsame.
    + destruct (Dedup.should_process_video (now l) g v (last_processed (shared s))) as [ok lp] eqn:Hc.
      injection Hf as <- <-. unfold spaced in *. cbn [shared set_last_processed last_processed].
      change lp with (ok, lp).2. rewrite <- Hc, should_process_video_table, lookup_sweep.
      destruct (last_processed (shared s) !! key) as [t1|] eqn:E1.
      * destruct (Qgt_bool (now l - t1) RATE_LIMIT_SECONDS) eqn:Eg; [|done].
        apply Qgt_bool_true in Eg. destruct Hsp as [->|Hsp]; [done|].
        unfold RATE_LIMIT_SECONDS in *. lra.
      * done.
    + injection Hf as <- <-. by apply Hsame.
    + destruct (waiting tid _) as [[|]|]; [| done |].
      * injection Hf as <- <-. by apply Hsame.
      * destruct (can_take _); injection Hf as <- <-; by apply Hsame.
    + destruct (locked _); injection Hf as <- <-; by apply Hsame.
  - cbn [fire] in Hf. injection Hf as <- <-. unfold spaced in *.
    cbn [shared set_last_processed last_processed]. unfold Dedup.mark_as_processed.
    rewrite lookup_insert. case_decide as Hkey; [|done]. subst key. right.
    destruct (last_processed (shared s) !! (g, v)) as [t1|] eqn:E1.
    + specialize (Hage _ eq_refl). specialize (Ha _ _ E1).
      destruct Hsp as [->|Hsp]; unfold RATE_LIMIT_SECONDS in *; lra.
    + unfold RATE_LIMIT_SECONDS in *. lra.
Qed.

Lemma marks_run schedule T s :
  nondecreasing T schedule -> marks_inv T s ->
  marks_inv (last_time T schedule) (run s schedule).
Proof.
  unfold run, last_time. revert T s.
  induction schedule as [|l ls IH]; intros T s Hnd Hs; cbn [foldl]; [done|].
  destruct Hnd as [Hle Hnd]. apply IH; [done|]. by apply (marks_step T).
Qed.

Lemma spaced_run schedule t T key s :
  nondecreasing T schedule -> marks_inv T s -> spaced t T key s ->
  spaced t (last_time T schedule) key (run s schedule).
Proof.
  unfold run, last_time. revert T s.
  induction schedule as [|l ls IH]; intros T s Hnd Hs Hsp; cbn [foldl]; [done|].
  destruct Hnd as [Hle Hnd].
  apply IH; [done|by apply (marks_step T)|by apply (spaced_step t T)].
Qed.

Lemma nondecreasing_app T l1 l2 :
  nondecreasing T (l1 ++ l2) -> nondecreasing T l1 /\ nondecreasing (last_time T l1) l2.
Proof.
  unfold last_time. revert T. induction l1 as [|l l1 IH]; intros T; cbn; [done|].
  intros [Hle H]. destruct (IH _ H). done.
Qed.

(** The handlers check before they mark. *)
Lemma io_only_checks {A} (t : Task A) : io_only t -> checks_before_marks t.
Proof.
  induction t as [a|e|X op k IH|p k IH|g v k IH|g v k IH|key k IH|key k IH|key k IH];
    cbn; try done; eauto.
Qed.

Lemma checks_bind {A B} (t : Task A) (f : A -> Task B) :
  io_only t -> (forall a, checks_before_marks (f a)) -> checks_before_marks (bind t f).
Proof.
  intros Ht Hf.
  induction t as [a|e|X op k IH|p k IH|g v k IH|g v k IH|key k IH|key k IH|key k IH];
    cbn in *; try done; eauto.
Qed.

Lemma checks_finally_release {A} key (body : Task A) :
  io_only body -> checks_before_marks (try_finally body (lock_release key)).
Proof.
  intros Hb.
  induction body as [a|e|X op k IH|p k IH|g v k IH|g v k IH|key' k IH|key' k IH|key' k IH];
    cbn in *; try done; eauto.
  - by intros [].
  - by intros [].
Qed.

Lemma checks_section g v (work : Task unit) :
  io_only work ->
  checks_before_marks
    (async_with_lock (g, v)
       (ShouldProcessVideo g v (fun ok => if negb ok then Ret tt else MarkAsProcessed g v work))).
Proof.
  intros Hio. unfold async_with_lock. cbn [checks_before_marks try_finally negb].
  split.
  - cbn. by intros [].
  - split; [done|]. by apply checks_finally_release.
Qed.

Lemma checks_handler_task cfg i : checks_before_marks (handler_task cfg i).
Proof.
  unfold handler_task. destruct (matcher i).
  - unfold bilibili_handle. apply checks_bind; [apply io_only_parse|].
    intros [[[[url video_id] page_num] video_type]|]; [|done].
    destruct (String.eqb video_id "").
    + apply checks_bind; [apply io_only_await|done].
    + unfold bilibili_video, Host.should_process_video, is_processing.
      cbn [mbind task_bind bind checks_before_marks negb]. split; [done|].
      intros [|]; [done|].
      destruct (bilibili_guarded_shape cfg (keyword i) video_id page_num video_type
                  (group_id_of (event i))) as (work & Hio & ->).
      by apply checks_section.
  - unfold bilibili_auto_download_handle. apply checks_bind; [apply io_only_parse|].
    intros [[[[url video_id] page_num] video_type]|]; [|done].
    destruct (String.eqb video_id ""); [done|].
    unfold auto_download_video, Host.should_process_video.
    cbn [mbind task_bind bind checks_before_marks negb]. split; [done|].
    destruct (auto_download_guarded_shape cfg video_id page_num video_type
                (group_id_of (event i))) as (work & Hio & ->).
    pose proof (checks_section (group_id_of (event i)) video_id work Hio) as H.
    unfold async_with_lock in *. exact H.
Qed.

(** X10. Under any interleaving of invocations of the two handlers, with a
    clock that does not go back and starts no earlier than the marks of the
    initial table: two marks of one key seen in the table at two moments of
    the run are the same mark or lie [RATE_LIMIT_SECONDS] or more apart. *)
Theorem marks_are_spaced cfg lp (invocations : list Invocation) schedule1 schedule2
    (T0 : Q) key (t t' : Q) :
  let s := run (start lp (handler_task cfg <$> invocations)) schedule1 in
  let s' := run s schedule2 in
  (forall key t0, lp !! key = Some t0 -> (t0 <= T0)%Q) ->
  nondecreasing T0 (schedule1 ++ schedule2) ->
  last_processed (shared s) !! key = Some t ->
  last_processed (shared s') !! key = Some t' ->
  t' = t \/ (RATE_LIMIT_SECONDS <= t' - t)%Q.
Proof.
  cbn zeta. intros Hlp Hnd Ht Ht'.
  apply nondecreasing_app in Hnd as [Hnd1 Hnd2].
  assert (marks_inv T0 (start lp (handler_task cfg <$> invocations))) as Hstart.
  { split; [done|]. intros tid tk Htk. left. cbn in Htk.
    rewrite list_lookup_fmap in Htk.
    destruct (invocations !! tid) as [i|]; [|done]. injection Htk as <-.
    apply checks_handler_task. }
  pose proof (marks_run _ _ _ Hnd1 Hstart) as Hmid.
  pose proof (spaced_run schedule2 t (last_time T0 schedule1) key _ Hnd2 Hmid) as Hsp.
  unfold spaced in Hsp at 2. rewrite Ht' in Hsp. apply Hsp.
  unfold spaced. rewrite Ht. by left.
Qed.

End MarksSpaced.

Section LockDiscipline.
Import Dedup Host Bilibili Loop.

Lemma marks_are_spaced_witness :
  inject_Z 1301 = inject_Z 1000 \/ (RATE_LIMIT_SECONDS <= inject_Z 1301 - inject_Z 1000)%Q.
Proof.
  refine (marks_are_spaced Sample.cfg ∅ [Sample.auto_invocation; Sample.auto_invocation]
            Sample.second_arrives_late Sample.first_leaves_second_resumes 0 Sample.key
            (inject_Z 1000) (inject_Z 1301) _ _ _ _).
  - intros key t0 H. discriminate H.
  - vm_compute. repeat split; discriminate.
  - vm_compute. reflexivity.
  - vm_compute. reflexivity.
Defined.

(** X11. Under any interleaving of invocations of the two handlers and
    for every key: at most one invocation is inside the guarded section;
    the lock is held exactly when some invocation is inside; and every
    task in the queue of the lock is suspended at the acquisition, outside
    the section. *)
Theorem one_pipeline_per_key cfg lp (invocations : list Invocation) schedule key :
  let s := run (start lp (handler_task cfg <$> invocations)) schedule in
  (forall tid1 tid2 t1 t2,
     pool s !! tid1 = Some t1 -> pool s !! tid2 = Some t2 ->
     inside key t1 -> inside key t2 -> tid1 = tid2) /\
  (is_locked key (processing_locks (shared s)) = true <->
   exists tid t, pool s !! tid = Some t /\ inside key t) /\
  (forall tid w, (tid, w) ∈ waiters (get_lock key (processing_locks (shared s))) ->
     exists k, pool s !! tid = Some (LockAcquire key k) /\ ~ inside key (LockAcquire key k)).
Proof.
  cbn zeta.
  destruct (run_inv _ schedule (start_inv lp _ (handler_tasks_bracketed cfg invocations)))
    as [Hlocks _].
  destruct (Hlocks key) as [Hheld Howner Huniq _ Hparked _].
  split; [exact Huniq|]. split.
  - split; [exact Hheld|]. intros (tid & t & Ht & Hin). by eapply Howner.
  - intros tid w Hw. destruct (Hparked _ _ Hw) as (k & Hk & _). exists k. split; [done|].
    unfold inside. cbn [bracketed]. by intros [? _].
Qed.

Lemma bilibili_never_waits_witness :
  waiters (get_lock Sample.key (processing_locks (shared
    (run (start ∅ (handler_task Sample.cfg <$> [Sample.full_invocation; Sample.full_invocation]))
         Sample.second_arrives_late_full)))) = [] /\
  status (run (start ∅ (handler_task Sample.cfg <$>
                 [Sample.full_invocation; Sample.full_invocation]))
            Sample.second_arrives_late_full) 1 <> Some (WaitingForLock Sample.key).
Proof.
  refine (bilibili_never_waits Sample.cfg ∅ [Sample.full_invocation; Sample.full_invocation]
            Sample.second_arrives_late_full _ Sample.key 1%nat).
  repeat constructor.
Defined.

End LockDiscipline.

(** ** Absence of deadlock *)

Section Progress.
Import Dedup Host Bilibili Loop.

Lemma fire_ready l tid t sh :
  finished t = false ->
  (forall key k, t = LockAcquire key k ->
     waiting tid (get_lock key (processing_locks sh)) <> Some false) ->
  is_Some (fire l tid t sh).
Proof.
  intros Hfin Hw.
  destruct t as [a|e|X op k|p k|g v k|g v k|key k|key k|key k]; cbn in *; try done.
  - by destruct (Dedup.should_process_video _ _ _ _).
  - specialize (Hw _ _ eq_refl).
    destruct (waiting tid _) as [[]|]; [done|done|].
    by destruct (can_take _).
  - by destruct (locked _).
Qed.

Lemma waiting_head tid w rest lk :
  waiters lk = (tid, w) :: rest -> waiting tid lk = Some w.
Proof. intros E. unfold waiting. rewrite E. cbn. by rewrite Nat.eqb_refl. Qed.

Lemma progress_queue_same s sh' :
  processing_locks sh' = processing_locks (shared s) ->
  progress_inv s ->
  forall key,
    let lk := get_lock key (processing_locks sh') in
    waiters lk <> [] ->
    locked lk = true \/ exists tid rest, waiters lk = (tid, true) :: rest.
Proof. intros -> [HQ _]. exact HQ. Qed.

Lemma progress_step s l : progress_inv s -> progress_inv (step s l).
Proof.
  intros Hinv. unfold step.
  destruct (may_run _ _); [|done].
  destruct (pool s !! who l) as [t|] eqn:Ht; [|done].
  destruct (fire l (who l) t (shared s)) as [[t' sh']|] eqn:Hf; [|done].
  set (tid := who l) in *.
  split; cbn [shared pool running].
  - (* the queues *)
    destruct t as [a|e|X op k|p k|g v k|g v k|key k|key k|key k]; cbn [fire] in Hf.
    + done.
    + done.
    + injection Hf as <- <-. by apply (progress_queue_same s).
    + injection Hf as <- <-. by apply (progress_queue_same s).
    + destruct (Dedup.should_process_video _ _ _ _) as [ok lp]. injection Hf as <- <-.
      by apply (progress_queue_same s).
    + injection Hf as <- <-. by apply (progress_queue_same s).
    + injection Hf as <- <-. by apply (progress_queue_same s).
    + (* LockAcquire *)
      destruct Hinv as [HQ _].
      set (lk := get_lock key (processing_locks (shared s))) in *.
      assert (Hgo : forall lk' : Lock,
                (waiters lk' <> [] ->
                 locked lk' = true \/ exists x rest, waiters lk' = (x, true) :: rest) ->
                forall key',
                  let lk'' := get_lock key' (processing_locks (set_lock key lk' (shared s))) in
                  waiters lk'' <> [] ->
                  locked lk'' = true \/ exists x rest, waiters lk'' = (x, true) :: rest).
      { intros lk' Hlk' key'. cbn. destruct (decide (key = key')) as [<-|Hne].
        - by rewrite get_lock_insert.
        - rewrite get_lock_insert_ne by done. apply HQ. }
      destruct (waiting tid lk) as [[]|] eqn:Hw; [| done |].
      * injection Hf as <- <-. apply Hgo. intros _. by left.
      * destruct (can_take lk) eqn:Hcan; injection Hf as <- <-.
        -- apply Hgo. intros _. by left.
        -- apply Hgo. intros _. cbn.
           pose proof (HQ key) as Hq. cbn zeta in Hq. fold lk in Hq.
           unfold can_take in Hcan.
           destruct (waiters lk) as [|[x w] rest].
           ++ left. rewrite andb_true_r in Hcan. by apply negb_false_iff in Hcan.
           ++ destruct Hq as [Hl|(y & rest' & Hy)]; [done|by left|].
              right. injection Hy as -> -> ->. by eexists _, _.
    + (* LockRelease *)
      destruct Hinv as [HQ _].
      set (lk := get_lock key (processing_locks (shared s))) in *.
      destruct (locked lk) eqn:Hl; injection Hf as <- <-; [|exact HQ].
      intros key'. cbn. destruct (decide (key = key')) as [<-|Hne].
      * rewrite get_lock_insert. cbn. destruct (waiters lk) as [|[x w] rest]; [done|].
        intros _. right. by eexists _, _.
      * rewrite get_lock_insert_ne by done. apply HQ.
  - (* the running task *)
    intros tid0. destruct (suspended tid t' sh') eqn:Hs; [done|].
    intros [= <-]. exists t'. split; [|done].
    apply list_lookup_insert_eq. by eapply lookup_lt_Some.
Qed.

Lemma progress_run s schedule : progress_inv s -> progress_inv (run s schedule).
Proof.
  unfold run. revert s. induction schedule as [|l ls IH]; intros s Hs; cbn; [done|].
  apply IH. by apply progress_step.
Qed.

Lemma progress_start lp tasks : progress_inv (start lp tasks).
Proof.
  split; cbn.
  - intros key. unfold get_lock. by rewrite lookup_empty.
  - done.
Qed.

Lemma inside_ready l tid key t sh : inside key t -> is_Some (fire l tid t sh).
Proof.
  intros Hin. apply fire_ready.
  - by destruct t.
  - intros key' k ->. by destruct Hin.
Qed.

Lemma parked_or_ready tid (t : Task unit) sh :
  (forall key k, t = LockAcquire key k ->
     waiting tid (get_lock key (processing_locks sh)) <> Some false) \/
  exists key k, t = LockAcquire key k /\
     waiting tid (get_lock key (processing_locks sh)) = Some false.
Proof.
  destruct t as [a|e|X op k|p k|g v k|g v k|key k|key k|key k]; try by left.
  destruct (waiting tid (get_lock key (processing_locks sh))) as [[]|] eqn:Hw.
  - left. by intros ? ? [= <- <-]; rewrite Hw.
  - right. by eexists _, _.
  - left. by intros ? ? [= <- <-]; rewrite Hw.
Qed.

(** X13. The handlers cannot deadlock on [processing_locks]: in every state
    the loop reaches from invocations of the two handlers, as long as an
    invocation has not finished, some task has a next step, whatever the
    world answers: the running task, a task that awaits a reply, the owner
    of a held lock, or the woken head of the queue of a free lock. *)
Theorem handlers_never_deadlock cfg lp (invocations : list Invocation) schedule tid t :
  let s := run (start lp (handler_task cfg <$> invocations)) schedule in
  pool s !! tid = Some t -> finished t = false ->
  exists tid', forall reply now on_disk,
    enabled s {| who := tid'; reply := reply; now := now; on_disk := on_disk |}.
Proof.
  cbn zeta. set (s := run _ _). intros Ht Hfin.
  assert (Hsys : system_inv s).
  { apply run_inv, start_inv, handler_tasks_bracketed. }
  assert (Hpro : progress_inv s) by apply progress_run, progress_start.
  destruct Hsys as [Hlocks _]. destruct Hpro as [HQ HR].
  destruct (running s) as [r|] eqn:Hrun.
  - (* a task is running: it has a next effect *)
    destruct (HR r eq_refl) as (tr & Htr & Hs).
    exists r. intros reply now on_disk. split; cbn.
    + rewrite Hrun. cbn. apply Nat.eqb_refl.
    + exists tr. split; [done|]. apply fire_ready.
      * by destruct tr.
      * intros key k ->. cbn in Hs. apply bool_decide_eq_false in Hs.
        intros Hw. apply Hs. by rewrite Hw.
  - destruct (parked_or_ready tid t (shared s)) as [Hgo|(key & k & -> & Hw)].
    + exists tid. intros reply now on_disk. split; cbn; [by rewrite Hrun|].
      exists t. split; [done|]. by apply fire_ready.
    + (* [tid] waits in the queue of [key] *)
      apply waiting_Some in Hw.
      destruct (HQ key) as [Hl|(x & rest & Hx)].
      * intros E. rewrite E in Hw. by apply elem_of_nil in Hw.
      * rewrite <- is_locked_get_lock in Hl.
        destruct (held_has_owner _ _ (Hlocks key) Hl) as (o & to & Hto & Hin).
        exists o. intros reply now on_disk. split; cbn; [by rewrite Hrun|].
        exists to. split; [done|]. by eapply inside_ready.
      * destruct (waiters_parked _ _ (Hlocks key) x true) as (k' & Hk' & _).
        { rewrite Hx. apply list_elem_of_here. }
        exists x. intros reply now on_disk. split; cbn; [by rewrite Hrun|].
        exists (LockAcquire key k'). split; [done|]. cbn.
        by rewrite (waiting_head _ _ _ _ Hx).
Qed.

Lemma handlers_never_deadlock_witness :
  exists tid', forall reply now on_disk,
    enabled (run (start ∅ (handler_task Sample.cfg <$>
                    [Sample.auto_invocation; Sample.auto_invocation]))
               Sample.second_arrives_late)
      {| who := tid'; reply := reply; now := now; on_disk := on_disk |}.
Proof.
  refine (handlers_never_deadlock Sample.cfg ∅
            [Sample.auto_invocation; Sample.auto_invocation]
            Sample.second_arrives_late 1%nat
            (default (Ret tt)
               (pool (run (start ∅ (handler_task Sample.cfg <$>
                                      [Sample.auto_invocation; Sample.auto_invocation]))
                          Sample.second_arrives_late) !! 1%nat)) _ _).
  - vm_compute. reflexivity.
  - vm_compute. reflexivity.
Defined.

End Progress.

(** ** Non-video content *)

Section NonVideoFacts.
Import Host Coro NonVideo.
Local Open Scope string_scope.

Lemma pop_reverse paths :
  pop (reverse paths) = match paths with
                        | [] => None
                        | path :: rest => Some (path, reverse rest)
                        end.
Proof. unfold pop. rewrite reverse_involutive. by destruct paths. Qed.

Lemma read_loop_in_order texts paths segs :
  read_loop texts (reverse paths) segs =
  match in_order texts paths with
  | Some s => inr (segs ++ s)%list
  | None => inl IndexError
  end.
Proof.
  revert paths segs. induction texts as [|text texts IH]; intros paths segs;
    cbn [read_loop in_order].
  - by rewrite app_nil_r.
  - destruct (negb (String.eqb text "")).
    + rewrite IH. destruct (in_order texts paths); cbn [fmap option_fmap option_map]; [|done].
      by rewrite <- app_assoc.
    + rewrite pop_reverse. destruct paths as [|path rest]; [done|].
      rewrite IH. destruct (in_order texts rest); cbn [fmap option_fmap option_map]; [|done].
      by rewrite <- app_assoc.
Qed.

(** The identifier of each kind is a number: [int] never fails on it. *)
Lemma number_sound s rest c c' :
  Py.matches number s rest c c' ->
  exists d, Py.cap1 c' = Some d /\ d <> "" /\ Py.all_in Py.is_digit d = true.
Proof.
  unfold number. cbn [Py.matches].
  intros (c1 & (d & -> & Hall & Hmin & _ & ->) & ->). exists d.
  rewrite consumed_append. split; [by destruct c|]. split; [|done].
  intros ->. cbn in Hmin. lia.
Qed.

Lemma int_group1_number l s m :
  Py.search (Py.Seq (Py.Lit l) number) s = Some m ->
  exists n, int_group1 m = Done n.
Proof.
  intros (s' & (rest & c' & H & ->)%match_here_sound)%search_match_here.
  cbn [Py.matches] in H. destruct H as (mid & c1 & _ & H).
  apply number_sound in H as (d & Hd & Hne & Hall).
  unfold int_group1. cbn [Py.group1]. rewrite Hd. cbn [Py.str from_option id].
  destruct (int_digits d Hall Hne) as (n & -> & _). by exists n.
Qed.

Lemma prog_leaves_mono {Op A} (Q Q' : A -> Prop) (E E' : Exn -> Prop) (p : Prog Op A) :
  (forall a, Q a -> Q' a) -> (forall e, E e -> E' e) -> leaves Q E p -> leaves Q' E' p.
Proof.
  intros HQ. revert E E'. induction p as [a|e|X op k IH]; intros E E' HE; cbn [leaves]; eauto.
  intros H r. eapply IH; [|apply H]. cbn beta. intros e [?|?]; eauto.
Qed.

Lemma prog_leaves_bind {Op A B} (Q : A -> Prop) (Q' : B -> Prop) E (p : Prog Op A)
    (f : A -> Prog Op B) :
  leaves Q E p -> (forall a, Q a -> leaves Q' E (f a)) -> leaves Q' E (bind p f).
Proof.
  revert E. induction p as [a|e|X op k IH]; intros E Hp Hf; cbn [leaves bind] in *; eauto.
  intros r. apply IH; [apply Hp|]. intros a Ha.
  eapply prog_leaves_mono; [by intros ? H; apply H| |by apply Hf]. cbn beta. eauto.
Qed.

Lemma prog_leaves_await {Op : Type -> Type} {X} E (op : Op X) :
  leaves (fun _ => True) E (await op).
Proof. intros [x|e]; cbn; [done|by right]. Qed.

Lemma silent_bind {A} (p : Prog Op A) (f : A -> Prog Op bool) c :
  (forall a, false_is_silent true (f a)) ->
  (forall a, p = Done a -> false_is_silent c (f a)) ->
  false_is_silent c (bind p f).
Proof.
  intros Hf Hd. destruct p as [a|e|X op k]; cbn [bind false_is_silent]; [by apply Hd|done|].
  intros r. generalize (k r). clear -Hf. intros p.
  induction p as [a|e|X op k IH]; cbn [bind false_is_silent]; eauto.
Qed.

Lemma silent_after_await {X} (op : Op X) (f : X -> Prog Op bool) c :
  (forall x, false_is_silent true (f x)) -> false_is_silent c (bind (await op) f).
Proof. intros Hf. cbn. intros [x|e]; cbn; [apply Hf|done]. Qed.

Lemma leaves_handle cfg url :
  leaves (fun _ => True) (fun e => e = IndexError) (handle_non_video_content cfg url).
Proof.
  unfold handle_non_video_content.
  destruct (_ || _).
  { destruct (Py.search pattern_id url) as [m|] eqn:Em; [|exact I].
    destruct (int_group1_number _ _ _ Em) as (n & ->). cbn [mbind prog_bind bind].
    eapply prog_leaves_bind; [apply prog_leaves_await|]. intros [img_lst text] _.
    eapply prog_leaves_bind; [apply prog_leaves_await|]. intros _ _.
    eapply prog_leaves_bind with (Q := fun _ => True).
    - destruct img_lst; [exact I|]. eapply prog_leaves_bind; [apply prog_leaves_await|]. by intros.
    - intros segs _. eapply prog_leaves_bind; [apply prog_leaves_await|]. by intros.  }
  destruct (Py.contains "/live" url).
  { destruct (Py.search pattern_id url) as [m|] eqn:Em; [|exact I].
    destruct (int_group1_number _ _ _ Em) as (n & ->). cbn [mbind prog_bind bind].
    eapply prog_leaves_bind; [apply prog_leaves_await|]. intros [[title cover] keyframe] _.
    destruct (String.eqb title "").
    - eapply prog_leaves_bind; [apply prog_leaves_await|]. by intros.
    - eapply prog_leaves_bind with (Q := fun _ => True).
      { destruct (negb _); [|exact I]. eapply prog_leaves_bind; [apply prog_leaves_await|]. by intros. }
      intros res _. eapply prog_leaves_bind with (Q := fun _ => True).
      { destruct (negb _); [|exact I]. eapply prog_leaves_bind; [apply prog_leaves_await|]. by intros. }
      intros res' _. eapply prog_leaves_bind; [apply prog_leaves_await|]. by intros. }
  destruct (Py.contains "/read" url).
  { destruct (Py.search pattern_read url) as [m|] eqn:Em; [|exact I].
    destruct (int_group1_number _ _ _ Em) as (n & ->). cbn [mbind prog_bind bind].
    eapply prog_leaves_bind; [apply prog_leaves_await|]. intros [texts urls] _.
    eapply prog_leaves_bind; [apply prog_leaves_await|]. intros _ _.
    eapply prog_leaves_bind; [apply prog_leaves_await|]. intros paths _.
    rewrite read_loop_in_order. destruct (in_order texts paths) as [segs|]; [|reflexivity].
    cbn [app]. destruct segs; [exact I|].
    eapply prog_leaves_bind; [apply prog_leaves_await|]. by intros. }
  destruct (Py.contains "/favlist" url); [|exact I].
  destruct (Py.search pattern_favlist url) as [m|] eqn:Em; [|exact I].
  destruct (int_group1_number _ _ _ Em) as (n & ->). cbn [mbind prog_bind bind].
  eapply prog_leaves_bind; [apply prog_leaves_await|]. intros [texts urls] _.
  eapply prog_leaves_bind; [apply prog_leaves_await|]. intros _ _.
  eapply prog_leaves_bind; [apply prog_leaves_await|]. intros paths _.
  eapply prog_leaves_bind; [apply prog_leaves_await|]. by intros.
Qed.

Lemma silent_handle cfg url : false_is_silent false (handle_non_video_content cfg url).
Proof.
  assert (Hsend : forall X (op : Op X), false_is_silent true (await op ≫= fun _ => Done true)).
  { intros X op [x|e]; done. }
  unfold handle_non_video_content.
  destruct (_ || _).
  { destruct (Py.search pattern_id url) as [m|] eqn:Em; [|done].
    destruct (int_group1_number _ _ _ Em) as (n & ->). cbn [mbind prog_bind bind].
    apply silent_after_await. intros [img_lst text].
    apply silent_after_await. intros _.
    apply silent_bind; [intros; apply Hsend|].
    intros segs _. apply Hsend. }
  destruct (Py.contains "/live" url).
  { destruct (Py.search pattern_id url) as [m|] eqn:Em; [|done].
    destruct (int_group1_number _ _ _ Em) as (n & ->). cbn [mbind prog_bind bind].
    apply silent_after_await. intros [[title cover] keyframe].
    destruct (String.eqb title ""); [apply Hsend|].
    apply silent_bind; intros res; [|intros _];
      (apply silent_bind; intros res'; [|intros _]; apply Hsend). }
  destruct (Py.contains "/read" url).
  { destruct (Py.search pattern_read url) as [m|] eqn:Em; [|done].
    destruct (int_group1_number _ _ _ Em) as (n & ->). cbn [mbind prog_bind bind].
    apply silent_after_await. intros [texts urls].
    apply silent_after_await. intros _.
    apply silent_after_await. intros paths.
    destruct (read_loop _ _ _) as [e|[|seg segs]]; [done|done|apply Hsend]. }
  destruct (Py.contains "/favlist" url); [|done].
  destruct (Py.search pattern_favlist url) as [m|] eqn:Em; [|done].
  destruct (int_group1_number _ _ _ Em) as (n & ->). cbn [mbind prog_bind bind].
  apply silent_after_await. intros [texts urls].
  apply silent_after_await. intros _.
  apply silent_after_await. intros paths.
  apply Hsend.
Qed.

Lemma run_leaves {Op A} (w : World Op) (Q : A -> Prop) E (p : Prog Op A) n :
  leaves Q E p ->
  match (run w p n).2 with
  | inr a => Q a
  | inl e => E e \/ exists X (op : Op X), Awaited op (inr e) ∈ (run w p n).1
  end.
Proof.
  revert E n. induction p as [a|e|X op k IH]; intros E n Hp; cbn [leaves run] in *.
  - done.
  - by left.
  - specialize (IH _ _ (S n) (Hp (w X op n))).
    destruct (run w (k (w X op n)) (S n)) as [calls [e|a]]; cbn [fst snd] in *; [|done].
    destruct IH as [[HE|Hr]|(Y & op' & Hin)].
    + by left.
    + right. exists X, op. rewrite Hr. constructor.
    + right. exists Y, op'. by constructor.
Qed.

Lemma run_silent w c (p : Prog Op bool) n :
  false_is_silent c p ->
  forall b, (run w p n).2 = inr b ->
    b = c || match (run w p n).1 with [] => false | _ => true end.
Proof.
  revert c n. induction p as [a|e|X op k IH]; intros c n Hp b; cbn [false_is_silent run] in *.
  - intros [= <-]. by rewrite orb_false_r.
  - done.
  - specialize (IH _ true (S n) (Hp (w X op n)) b).
    destruct (run w (k (w X op n)) (S n)) as [calls result]; cbn [fst snd] in *.
    intros Hb. rewrite (IH Hb). by rewrite orb_true_r.
Qed.

(** X14. [handle_non_video_content] against any world: it returns [False]
    exactly when it has called nothing, so an unsupported url costs no
    request; and an exception that leaves it is one that an awaited
    coroutine raised, or the [IndexError] of [paths.pop()] in the loop of
    the article branch. The url is taken to be of at most 4300 characters:
    CPython refuses [int] of a longer string of digits, a limit the
    embedding of [int] leaves out, so that the proof does not use the
    bound. *)
Theorem non_video_outcomes cfg w url n :
  (String.length url <= 4300)%nat ->
  let r := run w (handle_non_video_content cfg url) n in
  match r.2 with
  | inr handled => handled = match r.1 with [] => false | _ => true end
  | inl e => e = IndexError \/ exists X (op : Op X), Awaited op (inr e) ∈ r.1
  end.
Proof.
  intros _. cbn zeta. pose proof (run_leaves w _ _ _ n (leaves_handle cfg url)) as Hl.
  pose proof (run_silent w _ _ n (silent_handle cfg url)) as Hs.
  destruct (run w (handle_non_video_content cfg url) n) as [calls [e|b]]; cbn [fst snd] in *.
  - done.
  - by apply Hs.
Qed.

Lemma non_video_outcomes_witness :
  let w : World Op := fun X op _ =>
    match op in Op X return X + Exn with
    | parse_opus _ => inl (["i1"; "i2"], "text")
    | parse_live _ => inl ("", "", "")
    | parse_read _ => inl ([], [])
    | parse_favlist _ => inl ([], [])
    | bilibili_send _ => inl tt
    | download_imgs_without_raise _ => inr (OtherException "DownloadException")
    | download_img _ => inl "p"
    | send_segments _ => inl tt
    end in
  let r := run w (handle_non_video_content Sample.cfg "https://t.bilibili.com/1029384756") 0 in
  OtherException "DownloadException" = IndexError \/
  exists X (op : Op X), Awaited op (inr (OtherException "DownloadException")) ∈ r.1.
Proof.
  intros w r.
  assert (H : (String.length "https://t.bilibili.com/1029384756" <= 4300)%nat)
    by (simpl; lia).
  exact (non_video_outcomes Sample.cfg w "https://t.bilibili.com/1029384756" 0 H).
Defined.

(** X15. The article branch of [handle_non_video_content], when the parser,
    the prefix message and the image download answer: the segments are the
    texts and the images in the order of the article, each image being the
    next path from the front of the downloaded list; with fewer paths than
    images [paths.pop()] raises [IndexError] before anything of the article
    is sent; with no segment nothing further is sent and the result is
    [True]. *)
Theorem read_article cfg w url n m read_id texts urls paths :
  let r := run w (handle_non_video_content cfg url) n in
  let prefix := bilibili_send [Text (pub_prefix cfg +:+ "专栏")] in
  let fetched := [Awaited (parse_read read_id) (inl (texts, urls));
                  Awaited prefix (inl tt);
                  Awaited (download_imgs_without_raise urls) (inl paths)] in
  Py.contains "t.bilibili.com" url || Py.contains "/opus" url = false ->
  Py.contains "/live" url = false ->
  Py.contains "/read" url = true ->
  Py.search pattern_read url = Some m ->
  Py.int (Py.str (Py.group1 m)) = Some read_id ->
  w _ (parse_read read_id) n = inl (texts, urls) ->
  w _ prefix (S n) = inl tt ->
  w _ (download_imgs_without_raise urls) (S (S n)) = inl paths ->
  match in_order texts paths with
  | None => r = (fetched, inl IndexError)
  | Some [] => r = (fetched, inr true)
  | Some segs =>
      let reply := w _ (send_segments segs) (S (S (S n))) in
      r = ((fetched ++ [Awaited (send_segments segs) reply])%list,
           match reply with inl _ => inr true | inr e => inl e end)
  end.
Proof.
  cbn zeta. intros Hopus Hlive Hread Hm Hid Hparse Hsend Hdl.
  unfold handle_non_video_content. rewrite Hopus, Hlive, Hread, Hm.
  unfold int_group1. rewrite Hid. cbn [mbind prog_bind bind await run].
  rewrite Hparse. cbn [bind run]. rewrite Hsend. cbn [bind run]. rewrite Hdl. cbn [bind run].
  rewrite read_loop_in_order. destruct (in_order texts paths) as [[|seg segs]|]; cbn [app run].
  - done.
  - cbn [mbind prog_bind bind await run].
    destruct (w unit (send_segments (seg :: segs)) (S (S (S n)))) as [[]|e];
      cbn [bind run app]; done.
  - done.
Qed.

Lemma read_article_witness :
  let w : World Op := fun X op _ =>
    match op in Op X return X + Exn with
    | parse_opus _ => inl ([], "")
    | parse_live _ => inl ("", "", "")
    | parse_read _ => inl (["one"; ""; "two"; ""], ["u1"; "u2"])
    | parse_favlist _ => inl ([], [])
    | bilibili_send _ => inl tt
    | download_imgs_without_raise _ => inl ["p1"]
    | download_img _ => inl "p"
    | send_segments _ => inl tt
    end in
  (run w (handle_non_video_content Sample.cfg "https://www.bilibili.com/read/cv123") 0).2
  = inl IndexError.
Proof.
  cbn zeta.
  refine (f_equal snd (read_article Sample.cfg _ "https://www.bilibili.com/read/cv123" 0
            {| Py.group0 := "read/cv123"; Py.group1 := Some "123"; Py.group2 := None |}
            123 ["one"; ""; "two"; ""] ["u1"; "u2"] ["p1"] _ _ _ _ _ _ _ _));
    reflexivity.
Defined.

End NonVideoFacts.

(** ** The command [bm] *)

Section MusicFacts.
Import Host Bilibili Coro Music.
Local Open Scope string_scope.

(** The matcher finds a match whenever the pattern denotes one whose
    continuation succeeds. *)
Lemma strip_prefix_app l rest : Py.strip_prefix l (l +:+ rest) = Some rest.
Proof.
  induction l as [|a l IH]; [done|]. rewrite append_cons. cbn [Py.strip_prefix].
  by rewrite Ascii.eqb_refl.
Qed.

Lemma rep_complete {R} cls min max pre rest (k : string -> option R) :
  Py.all_in cls pre = true ->
  (min <= String.length pre)%nat ->
  (forall m, max = Some m -> (String.length pre <= m)%nat) ->
  is_Some (k rest) ->
  is_Some (Py.rep cls min max (pre +:+ rest) k).
Proof.
  revert min max. induction pre as [|a pre IH]; intros min max Hall Hmin Hmax Hk.
  - cbn in Hmin. assert (min = 0%nat) as -> by lia. rewrite append_nil_l.
    destruct rest as [|b rest]; cbn [Py.rep Nat.eqb]; [done|].
    destruct (cls b && Py.more_allowed max); [|done].
    by destruct (Py.rep cls _ _ rest k).
  - rewrite append_cons. cbn [Py.rep]. cbn [Py.all_in] in Hall.
    apply andb_true_iff in Hall as [Ha Hall]. rewrite Ha. cbn [String.length] in *.
    assert (Py.more_allowed max = true) as ->.
    { destruct max as [[|m]|]; try done. specialize (Hmax _ eq_refl). lia. }
    cbn [andb].
    destruct (IH (Nat.pred min) (Nat.pred <$> max)) as [x ->]; try done; [lia|].
    intros m Hm. destruct max as [m'|]; [|done]. injection Hm as <-.
    specialize (Hmax _ eq_refl). lia.
Qed.

Lemma matches_caps r s rest c c' d :
  Py.matches r s rest c c' -> exists d', Py.matches r s rest d d'.
Proof.
  revert s rest c c' d.
  induction r as [l|cls min max|r1 IH1 r2 IH2|r1 IH1 r2 IH2|r1 IH1|i r1 IH1];
    intros s rest c c' d; cbn [Py.matches].
  - intros [-> _]. by exists d.
  - intros (pre & -> & ? & ? & ? & _). exists d, pre. done.
  - intros (mid & c1 & H1 & H2).
    destruct (IH1 _ _ _ _ d H1) as (d1 & Hd1).
    destruct (IH2 _ _ _ _ d1 H2) as (d2 & Hd2). exists d2, mid, d1. done.
  - intros [H|H].
    + destruct (IH1 _ _ _ _ d H) as (d' & Hd). exists d'. by left.
    + destruct (IH2 _ _ _ _ d H) as (d' & Hd). exists d'. by right.
  - intros [H|[-> _]].
    + destruct (IH1 _ _ _ _ d H) as (d' & Hd). exists d'. by left.
    + exists d. by right.
  - intros (c1 & H & _). destruct (IH1 _ _ _ _ d H) as (d' & Hd).
    eexists. exists d'. done.
Qed.

Lemma match_re_complete {R} r s rest c c' (k : string -> Py.caps -> option R) :
  Py.matches r s rest c c' ->
  (forall c'', is_Some (k rest c'')) ->
  is_Some (Py.match_re r s c k).
Proof.
  revert s rest c c' k.
  induction r as [l|cls min max|r1 IH1 r2 IH2|r1 IH1 r2 IH2|r1 IH1|i r1 IH1];
    intros s rest c c' k; cbn [Py.matches Py.match_re].
  - intros [-> _] Hk. rewrite strip_prefix_app. apply Hk.
  - intros (pre & -> & ? & ? & ? & _) Hk. by apply rep_complete.
  - intros (mid & c1 & H1 & H2) Hk. eapply IH1; [exact H1|].
    intros d. destruct (matches_caps _ _ _ _ _ d H2) as (d' & Hd). by eapply IH2.
  - intros H Hk. destruct (Py.match_re r1 s c k) eqn:E; [done|].
    destruct H as [H|H]; [|by eapply IH2].
    pose proof (IH1 _ _ _ _ k H Hk) as [x Hx]. congruence.
  - intros H Hk. destruct (Py.match_re r1 s c k) eqn:E; [done|].
    destruct H as [H|[-> _]]; [|apply Hk].
    pose proof (IH1 _ _ _ _ k H Hk) as [x Hx]. congruence.
  - intros (c1 & H & _) Hk. eapply IH1; [exact H|]. intros d. apply Hk.
Qed.

Lemma append_inj_length s s' t t' :
  s +:+ t = s' +:+ t' -> String.length s = String.length s' -> s = s' /\ t = t'.
Proof.
  revert s'. induction s as [|a s IH]; intros [|a' s'] H Hlen; try done.
  rewrite !append_cons in H. injection H as -> H. cbn in Hlen.
  destruct (IH s' H) as [-> ->]; [lia|done].
Qed.

Lemma space_not_digit a : Py.is_space a = true -> Py.is_digit a = true -> False.
Proof.
  unfold Py.is_space, Py.is_digit. cbv zeta.
  intros Hs [H1 H2]%andb_true_iff. apply Nat.leb_le in H1, H2.
  apply orb_true_iff in Hs as [[H3 H4]%andb_true_iff|[H3 H4]%andb_true_iff];
    apply Nat.leb_le in H3, H4; lia.
Qed.

Lemma rstrip_last s pre a : Py.rstrip s = pre +:+ String a "" -> Py.is_space a = false.
Proof.
  revert pre. induction s as [|b s IH]; intros pre; cbn [Py.rstrip].
  - by destruct pre.
  - destruct (Py.rstrip s) as [|c r] eqn:E.
    + destruct (Py.is_space b) eqn:Eb; [by destruct pre|].
      destruct pre as [|p pre]; [by intros [= <-]|].
      rewrite append_cons. intros [= _ H]. by destruct pre.
    + destruct pre as [|p pre]; [done|].
      rewrite append_cons. intros [= _ H]. by apply (IH pre).
Qed.

Lemma strip_last p pre a : Py.strip p = pre +:+ String a "" -> Py.is_space a = false.
Proof. apply rstrip_last. Qed.

Lemma is_bvid_elim s :
  is_bvid s = true ->
  exists x, s = "BV" +:+ x /\ String.length x = 10%nat /\ Py.all_in bv_char x = true.
Proof.
  unfold is_bvid. intros [[Hp Hl]%andb_true_iff Hall]%andb_true_iff.
  destruct s as [|b [|v x]]; try done.
  cbn [String.prefix] in Hp.
  destruct (ascii_dec "B" b) as [<-|]; [|done]. destruct (ascii_dec "V" v) as [<-|]; [|done].
  exists x. apply Nat.eqb_eq in Hl. cbn [String.length] in Hl.
  assert (Hx : String.length x = 10%nat) by lia.
  split; [done|]. split; [done|].
  cbn [String.substring] in Hall. by rewrite <- Hx, substring_all in Hall.
Qed.

Lemma page_suffix_exact s rest c c' :
  Py.matches page_suffix s rest c c' ->
  exists sep digits,
    s = sep +:+ digits +:+ rest /\
    (sep = "" \/ exists a, Py.is_space a = true /\ sep = String a "") /\
    Py.cap1 c' = Py.cap1 c /\
    ((digits = "" /\ Py.cap2 c' = Py.cap2 c) \/
     ((1 <= String.length digits <= 3)%nat /\ Py.all_in Py.is_digit digits = true /\
      Py.cap2 c' = Some digits)).
Proof.
  unfold page_suffix. cbn [Py.matches].
  intros (mid & c1 & H1 & H2).
  assert (exists sep, s = sep +:+ mid /\
            (sep = "" \/ exists a, Py.is_space a = true /\ sep = String a "") /\ c1 = c)
    as (sep & -> & Hsep & ->).
  { destruct H1 as [(sp & -> & Hall & Hmin & Hmax & ->)|[-> ->]]; [|by exists ""; auto].
    exists sp. split; [done|]. split; [|done]. right.
    specialize (Hmax _ eq_refl). destruct sp as [|a [|b sp]]; cbn in Hmin, Hmax; try lia.
    exists a. split; [|done]. cbn in Hall. by rewrite andb_true_r in Hall. }
  exists sep.
  destruct H2 as [(c2 & (d & -> & Hall & Hmin & Hmax & ->) & ->)|[-> ->]].
  - exists d. split; [done|]. split; [done|]. rewrite consumed_append.
    split; [by destruct c|]. right. specialize (Hmax _ eq_refl). split; [lia|]. by destruct c.
  - exists "". split; [done|]. split; [done|]. split; [done|]. by left.
Qed.

Lemma page_suffix_intro sep digits rest c :
  (sep = "" \/ exists a, Py.is_space a = true /\ sep = String a "") ->
  (String.length digits <= 3)%nat -> Py.all_in Py.is_digit digits = true ->
  exists c', Py.matches page_suffix (sep +:+ digits +:+ rest) rest c c'.
Proof.
  intros Hsep Hlen Hall. unfold page_suffix. cbn [Py.matches].
  assert (exists c', (exists c1,
            (exists pre, digits +:+ rest = pre +:+ rest /\ Py.all_in Py.is_digit pre = true /\
               (1 <= String.length pre)%nat /\
               (forall m, Some 3%nat = Some m -> (String.length pre <= m)%nat) /\ c1 = c) /\
            c' = Py.set_cap 2 (Py.consumed (digits +:+ rest) rest) c1) \/
          rest = digits +:+ rest /\ c' = c) as (c' & Hd).
  { destruct digits as [|d ds].
    - exists c. by right.
    - eexists. left. eexists. split; [|done]. exists (String d ds).
      split; [done|]. split; [done|]. split; [cbn; lia|]. split; [|done].
      by intros m [= <-]. }
  exists c', (digits +:+ rest), c. split; [|done].
  destruct Hsep as [->|(a & Ha & ->)]; [by right|]. left.
  exists (String a ""). split; [done|]. split; [by cbn; rewrite Ha|].
  split; [cbn; lia|]. split; [|done]. intros m [= <-]. cbn. lia.
Qed.

Lemma match_command_sound text m :
  match_command text = Some m ->
  exists x sep digits nl,
    text = ("BV" +:+ x) +:+ sep +:+ digits +:+ nl /\
    String.length x = 10%nat /\ Py.all_in bv_char x = true /\
    (sep = "" \/ exists a, Py.is_space a = true /\ sep = String a "") /\
    (nl = "" \/ nl = String "010" "") /\
    Py.group1 m = Some ("BV" +:+ x) /\
    ((digits = "" /\ Py.group2 m = None) \/
     ((1 <= String.length digits <= 3)%nat /\ Py.all_in Py.is_digit digits = true /\
      Py.group2 m = Some digits)).
Proof.
  unfold match_command. intros (rest & c' & H & Hk)%match_re_sound.
  unfold at_end in Hk. destruct (_ || _) eqn:Hend; [|done]. injection Hk as <-.
  unfold pattern_BV in H. cbn [Py.matches] in H. destruct H as (mid & c1 & H1 & H2).
  apply bv_body_sound in H1 as (x & -> & Hlen & Hall & ->).
  apply page_suffix_exact in H2 as (sep & digits & -> & Hsep & Hc1 & Hc2).
  exists x, sep, digits, rest. cbn [Py.group1 Py.group2].
  split; [done|]. split; [done|]. split; [done|]. split; [done|]. split.
  { apply orb_true_iff in Hend as [?%String.eqb_eq|?%String.eqb_eq]; auto. }
  split; [by rewrite Hc1|]. by destruct Hc2 as [[? ->]|(? & ? & ->)]; [left|right].
Qed.

Lemma match_command_complete text bvid page :
  argument text bvid page -> is_Some (match_command text).
Proof.
  intros [(x & -> & Hlen & Hall)%is_bvid_elim Htext]. unfold match_command.
  assert (exists sep digits, text = ("BV" +:+ x) +:+ sep +:+ digits +:+ "" /\
            (sep = "" \/ exists a, Py.is_space a = true /\ sep = String a "") /\
            (String.length digits <= 3)%nat /\ Py.all_in Py.is_digit digits = true)
    as (sep & digits & -> & Hsep & Hd & Hdall).
  { destruct Htext as [[-> _]|(sep & digits & -> & Hsep & Hd & Hdall & _)].
    - exists "", "". rewrite append_nil_r. split; [done|]. split; [by left|]. split; [cbn; lia|done].
    - exists sep, digits. rewrite append_nil_r. split; [done|]. split; [done|]. split; [lia|done]. }
  destruct (page_suffix_intro sep digits "" (Py.set_cap 1 ("BV" +:+ x)
              {| Py.cap1 := None; Py.cap2 := None |}) Hsep Hd Hdall) as (c' & Hc').
  eapply (match_re_complete pattern_BV _ "" _ c').
  - unfold pattern_BV. cbn [Py.matches]. eexists _, _. split; [|exact Hc'].
    eexists. split; [|by rewrite consumed_append].
    exists (x +:+ sep +:+ digits +:+ ""), {| Py.cap1 := None; Py.cap2 := None |}.
    split; [split; [by rewrite append_assoc|done]|].
    exists x. split; [done|]. split; [done|]. split; [lia|]. split; [|done].
    intros m [= <-]. lia.
  - intros c''. done.
Qed.

Lemma argument_unique text bvid page bvid' page' :
  argument text bvid page -> argument text bvid' page' -> bvid = bvid' /\ page = page'.
Proof.
  intros [Hb H] [Hb' H'].
  assert (Hlen : String.length bvid = String.length bvid').
  { apply is_bvid_elim in Hb as (x & -> & Hx & _), Hb' as (x' & -> & Hx' & _).
    rewrite !length_append. lia. }
  assert (Htail : exists t t', text = bvid +:+ t /\ text = bvid' +:+ t' /\
            ((t = "" /\ page = 1) \/
             exists sep digits, t = sep +:+ digits /\
               (sep = "" \/ exists a, Py.is_space a = true /\ sep = String a "") /\
               (1 <= String.length digits <= 3)%nat /\
               Py.all_in Py.is_digit digits = true /\ Py.int digits = Some page) /\
            ((t' = "" /\ page' = 1) \/
             exists sep digits, t' = sep +:+ digits /\
               (sep = "" \/ exists a, Py.is_space a = true /\ sep = String a "") /\
               (1 <= String.length digits <= 3)%nat /\
               Py.all_in Py.is_digit digits = true /\ Py.int digits = Some page')).
  { destruct H as [[-> ->]|(sep & digits & -> & H)];
      destruct H' as [[E ->]|(sep' & digits' & E & H')].
    - exists "", "". rewrite append_nil_r. split; [done|].
      split; [by rewrite append_nil_r|]. by split; left.
    - exists "", (sep' +:+ digits'). rewrite append_nil_r. split; [done|]. split; [done|].
      split; [by left|]. right. by exists sep', digits'.
    - exists (sep +:+ digits), "". split; [done|]. split; [by rewrite append_nil_r|].
      split; [|by left]. right. by exists sep, digits.
    - exists (sep +:+ digits), (sep' +:+ digits'). split; [done|]. split; [done|].
      split; right; [by exists sep, digits|by exists sep', digits']. }
  destruct Htail as (t & t' & -> & E & Ht & Ht').
  apply append_inj_length in E as [<- <-]; [|done]. split; [done|].
  destruct Ht as [[-> ->]|(sep & digits & -> & Hsep & Hlen1 & Hall & Hint)];
    destruct Ht' as [[E ->]|(sep' & digits' & E & Hsep' & Hlen' & Hall' & Hint')].
  - done.
  - exfalso. apply (f_equal String.length) in E. rewrite length_append in E. cbn in E. lia.
  - exfalso. apply (f_equal String.length) in E. rewrite length_append in E. cbn in E. lia.
  - assert (digits = digits') as <-; [|congruence].
    destruct Hsep as [->|(a & Ha & ->)]; destruct Hsep' as [->|(a' & Ha' & ->)];
      rewrite ?append_nil_l, ?append_cons in E.
    + done.
    + exfalso. subst digits. cbn in Hall. apply andb_true_iff in Hall as [Hd _].
      by apply (space_not_digit a').
    + exfalso. subst digits'. cbn in Hall'. apply andb_true_iff in Hall' as [Hd _].
      by apply (space_not_digit a).
    + by injection E.
Qed.

Lemma page_number_digits digits :
  (1 <= String.length digits)%nat -> Py.all_in Py.is_digit digits = true ->
  exists page, Py.int digits = Some page /\ page_number (Some digits) = Done page.
Proof.
  intros Hlen Hall.
  destruct (int_digits digits Hall) as (page & Hint & _); [by intros ->; cbn in Hlen; lia|].
  exists page. split; [done|]. unfold page_number. destruct digits; [cbn in Hlen; lia|].
  by rewrite Hint.
Qed.

Lemma match_command_stripped p m :
  match_command (Py.strip p) = Some m ->
  exists bvid page,
    argument (Py.strip p) bvid page /\ Py.group1 m = Some bvid /\
    page_number (Py.group2 m) = Done page.
Proof.
  intros (x & sep & digits & nl & Htext & Hlen & Hall & Hsep & Hnl & Hg1 & Hg2)%match_command_sound.
  destruct Hnl as [->| ->].
  2:{ exfalso. rewrite <- !append_assoc in Htext. by apply strip_last in Htext. }
  rewrite append_nil_r in Htext.
  exists ("BV" +:+ x). destruct Hg2 as [[-> Hg2]|(Hd & Hdall & Hg2)].
  - exists 1. rewrite append_nil_r in Htext. destruct Hsep as [->|(a & Ha & ->)].
    + rewrite append_nil_r in Htext. split; [|by rewrite Hg2].
      split; [by apply is_bvid_intro|]. by left.
    + exfalso. apply strip_last in Htext. congruence.
  - destruct (page_number_digits digits) as (page & Hint & Hpage); [lia|done|].
    exists page. split; [|by rewrite Hg2]. split; [by apply is_bvid_intro|]. right.
    exists sep, digits. done.
Qed.

Lemma handle_argument cfg need_upload keep message_id p bvid page :
  argument (Py.strip p) bvid page ->
  bili_music_handle cfg need_upload keep message_id p =
    (await (call_api_set_msg_emoji_like message_id "282");;
     video_info ← await (parse_video_info bvid page);
     send_audio cfg need_upload keep video_info).
Proof.
  intros Harg. unfold bili_music_handle. cbv zeta.
  destruct (match_command_complete _ _ _ Harg) as [m Hm]. rewrite Hm.
  destruct (match_command_stripped _ _ Hm) as (bvid' & page' & Harg' & Hg1 & Hpage).
  destruct (argument_unique _ _ _ _ _ Harg Harg') as [<- <-].
  by rewrite Hg1, Hpage.
Qed.

Lemma run_await_bind {Op : Type -> Type} {X A} (w : World Op) (op : Op X)
    (f : X -> Prog Op A) n :
  run w (await op ≫= f) n =
  match w _ op n with
  | inl x => (Awaited op (inl x) :: (run w (f x) (S n)).1, (run w (f x) (S n)).2)
  | inr e => ([Awaited op (inr e)], inl e)
  end.
Proof.
  unfold mbind, prog_bind. cbn [await bind run].
  destruct (w X op n) as [x|e]; cbn [bind run]; [|done].
  by destruct (run w (f x) (S n)).
Qed.


Lemma run_bind {Op : Type -> Type} {A B} (w : World Op) (p : Prog Op A)
    (f : A -> Prog Op B) n :
  run w (p ≫= f) n =
  match (run w p n).2 with
  | inr a =>
      let r2 := run w (f a) (n + length (run w p n).1) in
      (((run w p n).1 ++ r2.1)%list, r2.2)
  | inl e => ((run w p n).1, inl e)
  end.
Proof.
  unfold mbind, prog_bind. revert n.
  induction p as [a|e|X op k IH]; intros n; cbn [bind run fst snd length app].
  - rewrite Nat.add_0_r. by destruct (run w (f a) n).
  - done.
  - rewrite IH. destruct (run w (k (w X op n)) (S n)) as [calls [e|a]]; cbn [fst snd length].
    + done.
    + cbv zeta. by rewrite Nat.add_succ_r.
Qed.

(** X17. The audio of the command [bm], once the reaction and the parser
    have answered: without an audio stream [ParseException] is raised and
    nothing else is called; the cache file is named by the title of the
    video alone, neither the identifier nor the page takes part: when the
    file exists the audio is sent without a download, whatever video and
    page were asked for; otherwise [download_file_by_stream] is awaited on
    the audio stream under that name, then the audio is sent, and a failure
    of the download is raised before anything is sent. The file message
    follows the record message exactly when [NEED_UPLOAD] is set. *)
Theorem music_cache cfg need_upload keep message_id plain_text (w : World Op) n
    bvid page info :
  let r := run w (bili_music_handle cfg need_upload keep message_id plain_text) n in
  let reaction := call_api_set_msg_emoji_like message_id "282" in
  let audio_name := keep (title info) +:+ ".mp3" in
  let audio_path := plugin_cache_dir cfg +:+ "/" +:+ audio_name in
  let download := download_file_by_stream (audio_url info) audio_name in
  let sends m :=
    run w (await (send_record audio_path);;
           if need_upload then await (send_file audio_path) else Done tt) m in
  let asked found :=
    [Awaited reaction (inl tt); Awaited (parse_video_info bvid page) (inl info);
     Awaited (path_exists audio_path) (inl found)] in
  argument (Py.strip plain_text) bvid page ->
  w _ reaction n = inl tt ->
  w _ (parse_video_info bvid page) (S n) = inl info ->
  (audio_url info = "" ->
     r = ([Awaited reaction (inl tt); Awaited (parse_video_info bvid page) (inl info)],
          inl ParseException)) /\
  (audio_url info <> "" -> w _ (path_exists audio_path) (S (S n)) = inl true ->
     r = ((asked true ++ (sends (S (S (S n)))).1)%list, (sends (S (S (S n)))).2)) /\
  (audio_url info <> "" -> w _ (path_exists audio_path) (S (S n)) = inl false ->
     match w _ download (S (S (S n))) with
     | inl path =>
         r = ((asked false ++ Awaited download (inl path) :: (sends (S (S (S (S n))))).1)%list,
              (sends (S (S (S (S n))))).2)
     | inr e => r = ((asked false ++ [Awaited download (inr e)])%list, inl e)
     end).
Proof.
  cbv zeta. intros Harg Hreact Hparse. rewrite (handle_argument _ _ _ _ _ _ _ Harg).
  rewrite run_await_bind, Hreact. cbv beta. rewrite run_await_bind, Hparse.
  unfold send_audio. split; [|split].
  - intros ->. done.
  - intros Hurl Hfound. apply String.eqb_neq in Hurl. rewrite Hurl.
    rewrite run_await_bind, Hfound. cbn [fst snd app]. done.
  - intros Hurl Hfound. apply String.eqb_neq in Hurl. rewrite Hurl.
    rewrite run_await_bind, Hfound. cbn [fst snd app].
    rewrite run_bind, run_await_bind.
    destruct (w string _ (S (S (S n)))) as [path|e]; cbn [run fst snd length app]; [|done].
    cbv zeta. by replace (S (S (S n)) + 1)%nat with (S (S (S (S n)))) by lia.
Qed.

Lemma argument_sample : argument (Py.strip " BV1xx411c7mD 2 ") "BV1xx411c7mD" 2.
Proof.
  split; [reflexivity|]. right. exists " ", "2". split; [reflexivity|].
  split; [right; exists " "%char; split; reflexivity|].
  split; [simpl; lia|]. split; reflexivity.
Qed.


Lemma music_cache_witness :
  let w : World Op := fun X op _ =>
    match op in Op X return X + Exn with
    | finish _ => inl tt
    | call_api_set_msg_emoji_like _ _ => inl tt
    | parse_video_info _ _ => inl (Sample.info 200)
    | path_exists _ => inl true
    | download_file_by_stream _ _ => inl "p"
    | send_record _ => inl tt
    | send_file _ => inl tt
    end in
  Forall (fun c => is_download c = false)
    (run w (bili_music_handle Sample.cfg true (fun s => s) 5 " BV1xx411c7mD 2 ") 0).1.
Proof.
  intros w.
  assert (Hurl : audio_url (Sample.info 200) <> "") by (vm_compute; discriminate).
  rewrite (proj1 (proj2 (music_cache Sample.cfg true (fun s => s) 5 " BV1xx411c7mD 2 " w 0
                           "BV1xx411c7mD" 2 (Sample.info 200)
                           argument_sample eq_refl eq_refl)) Hurl eq_refl).
  vm_compute. repeat constructor.
Defined.

End MusicFacts.

(** ** The rules and the command handlers of the filter *)

Section FilterCommandFacts.
Import Host Filter.
Local Open Scope string_scope.

Lemma with_filter_dict_id s : with_filter_dict (filter_dict (filter_config s)) s = s.
Proof. by destruct s as [g []]. Qed.


(** The alias lists are disjoint: the first list with the alias is the
    only one. *)
Lemma alias_loop_source (s : State) event alias source :
  alias ∈ SOURCE_ALIASES_get source ->
  alias_loop s event alias SOURCE_ALIASES = is_not_in_disabled_groups_by_source s event source.
Proof.
  intros Hin. destruct source; cbn in Hin;
    repeat (apply elem_of_cons in Hin as [->|Hin]); try (by apply elem_of_nil in Hin);
    reflexivity.
Qed.

(** The [if]/[elif] chain of the two handlers selects the source of the
    alias, and the global set for any other text. *)
Lemma select_alias {A} alias source (f : SourceType -> A) (d : A) :
  alias ∈ SOURCE_ALIASES_get source ->
  (if bool_decide (alias ∈ SOURCE_ALIASES_get bilibili) then f bilibili
   else if bool_decide (alias ∈ SOURCE_ALIASES_get douyin) then f douyin
   else if bool_decide (alias ∈ SOURCE_ALIASES_get ytb) then f ytb
   else d) = f source.
Proof.
  intros Hin. destruct source; cbn in Hin;
    repeat (apply elem_of_cons in Hin as [->|Hin]); try (by apply elem_of_nil in Hin);
    reflexivity.
Qed.

Lemma select_other {A} alias (f : SourceType -> A) (d : A) :
  (forall source, alias ∉ SOURCE_ALIASES_get source) ->
  (if bool_decide (alias ∈ SOURCE_ALIASES_get bilibili) then f bilibili
   else if bool_decide (alias ∈ SOURCE_ALIASES_get douyin) then f douyin
   else if bool_decide (alias ∈ SOURCE_ALIASES_get ytb) then f ytb
   else d) = d.
Proof. intros Hout. by rewrite !bool_decide_eq_false_2 by apply Hout. Qed.

Lemma disable_alias gid alias source s st :
  alias ∈ SOURCE_ALIASES_get source ->
  disable gid alias s st =
  let s1 := with_filter_dict (setdefault source FilterItem_default (filter_dict (filter_config s))) s in
  if negb (target_contains gid (TheList source) s1) then
    let s2 := target_add gid (TheList source) s1 in
    {| message := "解析已关闭"; state := s2; store := save_disabled_groups s2 st |}
  else {| message := "解析已关闭，无需重复关闭"; state := s1; store := st |}.
Proof.
  intros Hin. unfold disable.
  pose proof (select_alias alias source (fun src => item_list_setdefault src s) (s, TheSet) Hin) as H.
  cbv beta in H. rewrite H. reflexivity.
Qed.

Lemma disable_other gid text s st :
  (forall source, text ∉ SOURCE_ALIASES_get source) ->
  disable gid text s st =
  if negb (target_contains gid TheSet s) then
    let s2 := target_add gid TheSet s in
    {| message := "解析已关闭"; state := s2; store := save_disabled_groups s2 st |}
  else {| message := "解析已关闭，无需重复关闭"; state := s; store := st |}.
Proof.
  intros Hout. unfold disable.
  pose proof (select_other text (fun src => item_list_setdefault src s) (s, TheSet) Hout) as H.
  cbv beta in H. rewrite H. reflexivity.
Qed.

Lemma enable_alias gid alias source s st :
  alias ∈ SOURCE_ALIASES_get source ->
  enable gid alias s st =
  match item_list source s with
  | inl e => inl e
  | inr target_source =>
      if target_contains gid target_source s then
        let s := target_remove gid target_source s in
        inr {| message := "解析已开启"; state := s; store := save_disabled_groups s st |}
      else
        inr {| message := "解析已开启，无需重复开启"; state := s; store := st |}
  end.
Proof.
  intros Hin. unfold enable.
  pose proof (select_alias alias source (fun src => item_list src s) (inr TheSet) Hin) as H.
  cbv beta in H. rewrite H. reflexivity.
Qed.

Lemma enable_other gid text s st :
  (forall source, text ∉ SOURCE_ALIASES_get source) ->
  enable gid text s st =
  if target_contains gid TheSet s then
    let s := target_remove gid TheSet s in
    inr {| message := "解析已开启"; state := s; store := save_disabled_groups s st |}
  else
    inr {| message := "解析已开启，无需重复开启"; state := s; store := st |}.
Proof.
  intros Hout. unfold enable.
  pose proof (select_other text (fun src => item_list src s) (inr TheSet) Hout) as H.
  cbv beta in H. rewrite H. reflexivity.
Qed.

(** The list of a source after the list of a source has been replaced. *)
Lemma disabled_groups_of_insert s source l source' :
  disabled_groups_of
    (filter_config (with_filter_dict
       (<[source := {| disabled_groups := l |}]> (filter_dict (filter_config s))) s)) source' =
  if decide (source = source') then l else disabled_groups_of (filter_config s) source'.
Proof.
  unfold disabled_groups_of. cbn. rewrite lookup_insert. by case_decide.
Qed.

Lemma disabled_groups_of_setdefault s source source' :
  disabled_groups_of
    (filter_config (with_filter_dict
       (setdefault source FilterItem_default (filter_dict (filter_config s))) s)) source' =
  disabled_groups_of (filter_config s) source'.
Proof.
  unfold disabled_groups_of. cbn. rewrite lookup_setdefault.
  destruct (filter_dict (filter_config s) !! source'); [done|]. by case_decide.
Qed.

(** X20. After the command "关闭解析" in a group, the rule of the chosen
    list rejects the events of that group: with an alias of a source as
    its text, [is_not_in_disabled_groups_by_source] for that source and
    [is_not_in_disabled_groups_by_source_alias] for the alias answer
    [False]; with any other text, [is_not_in_disabled_groups] does. *)
Theorem disable_rejects gid u plain_text s st :
  let f := disable gid plain_text s st in
  let event := GroupMessageEvent gid u in
  (forall source, plain_text ∈ SOURCE_ALIASES_get source ->
     is_not_in_disabled_groups_by_source (state f) event source = false /\
     is_not_in_disabled_groups_by_source_alias (state f) event plain_text = inr false) /\
  ((forall source, plain_text ∉ SOURCE_ALIASES_get source) ->
     is_not_in_disabled_groups (state f) event = false).
Proof.
  cbn zeta. split.
  - intros source Hin. unfold is_not_in_disabled_groups_by_source_alias.
    rewrite (alias_loop_source _ _ _ source Hin).
    enough (is_not_in_disabled_groups_by_source (state (disable gid plain_text s st))
              (GroupMessageEvent gid u) source = false) as -> by done.
    rewrite (disable_alias _ _ source) by done. cbn zeta.
    unfold target_contains, target_add, is_not_in_disabled_groups_by_source.
    rewrite disabled_groups_of_setdefault.
    destruct (bool_decide (gid ∈ disabled_groups_of (filter_config s) source)) eqn:E; cbn [negb state].
    + by rewrite disabled_groups_of_setdefault, E.
    + rewrite disabled_groups_of_insert, decide_True by done.
      rewrite bool_decide_eq_true_2; [done|]. apply elem_of_app. right. constructor.
  - intros Hout. rewrite disable_other by done. unfold target_contains, target_add.
    destruct (bool_decide (gid ∈ disabled_group_set s)) eqn:E; cbn [negb state].
    + unfold is_not_in_disabled_groups. by rewrite E.
    + unfold is_not_in_disabled_groups. cbn.
      rewrite bool_decide_eq_true_2; [done|]. set_solver.
Qed.

Lemma setdefault_present source (s : State) :
  is_Some (filter_dict (filter_config s) !! source) ->
  with_filter_dict (setdefault source FilterItem_default (filter_dict (filter_config s))) s = s.
Proof. intros [x Hx]. unfold setdefault. rewrite Hx. apply with_filter_dict_id. Qed.

Lemma alias_cases (text : string) :
  (exists source, text ∈ SOURCE_ALIASES_get source) \/
  (forall source, text ∉ SOURCE_ALIASES_get source).
Proof.
  destruct (decide (text ∈ SOURCE_ALIASES_get bilibili)); [left; by exists bilibili|].
  destruct (decide (text ∈ SOURCE_ALIASES_get douyin)); [left; by exists douyin|].
  destruct (decide (text ∈ SOURCE_ALIASES_get ytb)); [left; by exists ytb|].
  right. by intros [].
Qed.

Lemma disable_alias_again gid alias source s st :
  alias ∈ SOURCE_ALIASES_get source ->
  is_Some (filter_dict (filter_config s) !! source) ->
  gid ∈ disabled_groups_of (filter_config s) source ->
  disable gid alias s st =
  {| message := "解析已关闭，无需重复关闭"; state := s; store := st |}.
Proof.
  intros Hin Hsome Hgid. rewrite (disable_alias _ _ source) by done. cbn zeta.
  rewrite setdefault_present by done. unfold target_contains.
  by rewrite bool_decide_eq_true_2.
Qed.

Lemma disable_alias_state gid alias source s st :
  alias ∈ SOURCE_ALIASES_get source ->
  let s' := state (disable gid alias s st) in
  is_Some (filter_dict (filter_config s') !! source) /\
  gid ∈ disabled_groups_of (filter_config s') source.
Proof.
  intros Hin. cbn zeta. rewrite (disable_alias _ _ source) by done. cbn zeta.
  unfold target_contains, target_add. rewrite !disabled_groups_of_setdefault.
  destruct (bool_decide (gid ∈ disabled_groups_of (filter_config s) source)) eqn:E;
    cbn [negb state].
  - rewrite disabled_groups_of_setdefault. split; [|by apply bool_decide_eq_true in E].
    cbn. rewrite lookup_setdefault.
    destruct (filter_dict (filter_config s) !! source); [done|]. by rewrite decide_True.
  - rewrite disabled_groups_of_insert, decide_True by done. split.
    + cbn. by rewrite lookup_insert_eq.
    + apply elem_of_app. right. constructor.
Qed.

(** X21. The command "关闭解析" repeated with the same text in the same
    group finishes with "解析已关闭，无需重复关闭" and changes neither the
    globals nor the files. *)
Theorem disable_twice gid plain_text s st :
  let f := disable gid plain_text s st in
  disable gid plain_text (state f) (store f) =
  {| message := "解析已关闭，无需重复关闭"; state := state f; store := store f |}.
Proof.
  cbn zeta. destruct (alias_cases plain_text) as [[source Hin]|Hout].
  - destruct (disable_alias_state gid plain_text source s st Hin) as [Hsome Hgid].
    by apply (disable_alias_again _ _ source).
  - rewrite !disable_other by done. unfold target_contains, target_add.
    destruct (bool_decide (gid ∈ disabled_group_set s)) eqn:E; cbn [negb state store].
    + by rewrite E.
    + cbn. rewrite bool_decide_eq_true_2 by set_solver. done.
Qed.

(** [list.remove] *)
Lemma list_remove_first (x : Z) l1 l2 :
  x ∉ l1 -> list_remove x (l1 ++ x :: l2) = (l1 ++ l2)%list.
Proof.
  induction l1 as [|y l1 IH]; intros Hx; cbn.
  - by rewrite decide_True.
  - rewrite decide_False by (intros ->; apply Hx; constructor).
    rewrite IH; [done|]. intros ?. apply Hx. by constructor.
Qed.

Lemma elem_of_list_remove (x y : Z) l : y ∈ list_remove x l -> y ∈ l.
Proof.
  induction l as [|z l IH]; cbn; [done|]. case_decide.
  - intros ?. by constructor.
  - intros [->|?]%elem_of_cons; [constructor|]. constructor. by apply IH.
Qed.

Lemma elem_of_list_remove_ne (x y : Z) l : x <> y -> y ∈ l -> y ∈ list_remove x l.
Proof.
  intros Hne. induction l as [|z l IH]; cbn; [done|]. case_decide.
  - subst. by intros [->|?]%elem_of_cons.
  - intros [->|?]%elem_of_cons; [constructor|]. constructor. by apply IH.
Qed.

Lemma NoDup_list_remove (x : Z) l : NoDup l -> NoDup (list_remove x l).
Proof.
  induction 1 as [|y l Hy Hl IH]; cbn; [constructor|]. case_decide; [done|].
  constructor; [|done]. intros ?%elem_of_list_remove. done.
Qed.

Lemma not_elem_of_list_remove (x : Z) l : NoDup l -> x ∉ list_remove x l.
Proof.
  induction 1 as [|y l Hy Hl IH]; cbn; [apply not_elem_of_nil|]. case_decide.
  - by subst.
  - intros [->|?]%elem_of_cons; done.
Qed.

(** X22. The command "开启解析" with an alias of a source, in a group that
    the list of the source names, finishes with "解析已开启", rewrites the
    files, and removes the first occurrence of the group from the list
    and no other: the rule of the source accepts the group afterwards
    exactly when the list did not name it a second time. *)
Theorem enable_removes_first gid u alias source item l1 l2 s st :
  alias ∈ SOURCE_ALIASES_get source ->
  filter_dict (filter_config s) !! source = Some item ->
  disabled_groups item = (l1 ++ gid :: l2)%list ->
  gid ∉ l1 ->
  exists f,
    enable gid alias s st = inr f /\
    message f = "解析已开启" /\
    store f = save_disabled_groups (state f) st /\
    disabled_groups_of (filter_config (state f)) source = (l1 ++ l2)%list /\
    is_not_in_disabled_groups_by_source (state f) (GroupMessageEvent gid u) source =
      negb (bool_decide (gid ∈ l2)).
Proof.
  intros Hin Hitem Hl Hl1. rewrite (enable_alias _ _ source) by done.
  unfold item_list. rewrite Hitem. unfold target_contains.
  assert (disabled_groups_of (filter_config s) source = (l1 ++ gid :: l2)%list) as Hof.
  { unfold disabled_groups_of. by rewrite Hitem. }
  rewrite Hof. rewrite bool_decide_eq_true_2 by (apply elem_of_app; right; constructor).
  eexists. split; [reflexivity|]. cbn [message state store]. split; [done|]. split; [done|].
  unfold target_remove, is_not_in_disabled_groups_by_source.
  rewrite disabled_groups_of_insert, decide_True by done.
  rewrite Hof, list_remove_first by done. split; [done|].
  f_equal. apply bool_decide_ext. rewrite elem_of_app. split; [by intros [?|?]|by right].
Qed.

(** X23. When no list names a group twice, the rule of the chosen list
    accepts the events of a group after the command "开启解析" in that
    group, whether the handler removed the group or found nothing to
    remove. *)
Theorem enable_passes gid u plain_text s st f :
  no_duplicates s ->
  enable gid plain_text s st = inr f ->
  let event := GroupMessageEvent gid u in
  (forall source, plain_text ∈ SOURCE_ALIASES_get source ->
     is_not_in_disabled_groups_by_source (state f) event source = true /\
     is_not_in_disabled_groups_by_source_alias (state f) event plain_text = inr true) /\
  ((forall source, plain_text ∉ SOURCE_ALIASES_get source) ->
     is_not_in_disabled_groups (state f) event = true).
Proof.
  intros [Hnd _] Hf. cbn zeta. split.
  - intros source Hin. unfold is_not_in_disabled_groups_by_source_alias.
    rewrite (alias_loop_source _ _ _ source Hin).
    enough (is_not_in_disabled_groups_by_source (state f) (GroupMessageEvent gid u) source
            = true) as -> by done.
    rewrite (enable_alias _ _ source) in Hf by done. unfold item_list in Hf.
    destruct (filter_dict (filter_config s) !! source) eqn:Hitem; [|done].
    unfold target_contains in Hf.
    destruct (bool_decide (gid ∈ disabled_groups_of (filter_config s) source)) eqn:E;
      injection Hf as <-; cbn [state]; unfold is_not_in_disabled_groups_by_source.
    + unfold target_remove. rewrite disabled_groups_of_insert, decide_True by done.
      rewrite bool_decide_eq_false_2; [done|]. by apply not_elem_of_list_remove.
    + by rewrite E.
  - intros Hout. rewrite enable_other in Hf by done. unfold target_contains in Hf.
    destruct (bool_decide (gid ∈ disabled_group_set s)) eqn:E;
      injection Hf as <-; cbn [state]; unfold is_not_in_disabled_groups.
    + cbn. rewrite bool_decide_eq_false_2; [done|].
      rewrite elem_of_difference, elem_of_singleton. by intros [_ ?].
    + by rewrite E.
Qed.

(** *** What every handler keeps *)

Lemma complete_with_filter_dict d s :
  (forall source, is_Some (d !! source)) -> complete (with_filter_dict d s).
Proof. intros H source. apply H. Qed.

Lemma complete_insert s source item :
  complete s ->
  complete (with_filter_dict (<[source := item]> (filter_dict (filter_config s))) s).
Proof.
  intros Hc. apply complete_with_filter_dict. intros source'.
  rewrite lookup_insert. case_decide; [done|apply Hc].
Qed.

Lemma handle_complete c s st f : complete s -> handle c s st = inr f -> complete (state f).
Proof.
  intros Hc Hf. destruct c as [|gid_list|gid text|gid text|gid|gid|gid|gid]; cbn in Hf.
  - by injection Hf as <-.
  - by injection Hf as <-.
  - unfold enable in Hf.
    destruct (if bool_decide (text ∈ SOURCE_ALIASES_get bilibili) then _ else _)
      as [e|target]; [done|].
    destruct (target_contains gid target s); injection Hf as <-; cbn [state]; [|done].
    destruct target; cbn; [done|]. by apply complete_insert.
  - injection Hf as <-. destruct (alias_cases text) as [[source Hin]|Hout].
    + rewrite (disable_alias _ _ source) by done. cbn zeta.
      rewrite setdefault_present by apply Hc.
      destruct (negb _); cbn [state]; [|done]. by apply complete_insert.
    + rewrite disable_other by done. by destruct (negb _).
  - injection Hf as <-. unfold disable_download. by case_bool_decide.
  - injection Hf as <-. unfold enable_download. by destruct (negb _).
  - injection Hf as <-. unfold enable_bili_auto_download. by case_bool_decide.
  - injection Hf as <-. unfold disable_bili_auto_download. by destruct (negb _).
Qed.

Lemma NoDup_snoc (l : list Z) x : NoDup l -> x ∉ l -> NoDup (l ++ [x])%list.
Proof.
  intros Hl Hx. apply NoDup_app. split; [done|]. split; [|apply NoDup_singleton].
  intros y Hy ->%list_elem_of_singleton. done.
Qed.

Lemma no_duplicates_insert s source l :
  no_duplicates s -> NoDup l ->
  no_duplicates (with_filter_dict
    (<[source := {| disabled_groups := l |}]> (filter_dict (filter_config s))) s).
Proof.
  intros (H1 & H2 & H3) Hl. split; [|done]. intros source'.
  rewrite disabled_groups_of_insert. by case_decide.
Qed.

Lemma handle_no_duplicates c s st f :
  no_duplicates s -> handle c s st = inr f -> no_duplicates (state f).
Proof.
  intros Hnd Hf. pose proof Hnd as (H1 & H2 & H3).
  destruct c as [|gid_list|gid text|gid text|gid|gid|gid|gid]; cbn in Hf.
  - by injection Hf as <-.
  - by injection Hf as <-.
  - unfold enable in Hf.
    destruct (if bool_decide (text ∈ SOURCE_ALIASES_get bilibili) then _ else _)
      as [e|target]; [done|].
    destruct (target_contains gid target s); injection Hf as <-; cbn [state]; [|done].
    destruct target; cbn [target_remove]; [done|].
    apply no_duplicates_insert; [done|]. by apply NoDup_list_remove.
  - injection Hf as <-. destruct (alias_cases text) as [[source Hin]|Hout].
    + rewrite (disable_alias _ _ source) by done. cbn zeta.
      assert (no_duplicates (with_filter_dict
                (setdefault source FilterItem_default (filter_dict (filter_config s))) s)) as Hnd'.
      { split; [|done]. intros source'. by rewrite disabled_groups_of_setdefault. }
      unfold target_contains. rewrite disabled_groups_of_setdefault.
      case_bool_decide as Hg; cbn [negb state]; [done|]. unfold target_add.
      apply no_duplicates_insert; [done|]. rewrite disabled_groups_of_setdefault.
      by apply NoDup_snoc.
    + rewrite disable_other by done. by destruct (negb _).
  - injection Hf as <-. unfold disable_download. case_bool_decide; [done|]. cbn [state].
    split; [done|]. split; [|done]. by apply NoDup_snoc.
  - injection Hf as <-. unfold enable_download. destruct (negb _); [done|]. cbn [state].
    split; [done|]. split; [|done]. by apply NoDup_list_remove.
  - injection Hf as <-. unfold enable_bili_auto_download. case_bool_decide; [done|]. cbn [state].
    split; [done|]. split; [done|]. by apply NoDup_snoc.
  - injection Hf as <-. unfold disable_bili_auto_download. destruct (negb _); [done|].
    cbn [state]. split; [done|]. split; [done|]. by apply NoDup_list_remove.
Qed.

(** A restart after a save. *)
Lemma import_saved s st :
  complete s ->
  import_module (save_disabled_groups s st) = inr (s, save_disabled_groups s st).
Proof.
  intros Hc. unfold import_module, save_disabled_groups, load_or_initialize_set, load_filter_config.
  cbn [DISABLED_GROUPS FILTER_CONFIG_FILE mbind option_bind].
  rewrite as_int_list_dump. cbn [FILTER_CONFIG_FILE]. rewrite FilterConfig_round_trip.
  rewrite setdefaults_id by apply Hc. rewrite list_to_set_elements_L.
  by destruct s as [g []].
Qed.

Lemma setdefaults_complete (d : gmap SourceType FilterItem) source :
  is_Some (foldl (fun d source => setdefault source FilterItem_default d) d SOURCE_TYPES
           !! source).
Proof.
  cbn [foldl SOURCE_TYPES]. rewrite !lookup_setdefault.
  destruct (d !! source); [done|]. by destruct source.
Qed.

Lemma load_filter_config_complete st source :
  is_Some (filter_dict (load_filter_config st).1 !! source).
Proof.
  unfold load_filter_config. destruct (FILTER_CONFIG_FILE st) as [text|]; cbn [fst].
  - cbn [filter_dict]. apply setdefaults_complete.
  - by destruct source.
Qed.

Lemma import_module_complete st s st' : import_module st = inr (s, st') -> complete s.
Proof.
  unfold import_module. destruct (load_or_initialize_set st) as [[e|g] st1]; [done|].
  destruct (load_filter_config st1) as [config st2] eqn:E. intros [= <- <-] source.
  cbn [filter_config]. change config with (config, st2).1. rewrite <- E.
  apply load_filter_config_complete.
Qed.

Lemma import_module_again st s st' :
  import_module st = inr (s, st') -> import_module st' = inr (s, st').
Proof.
  intros H. pose proof (import_module_complete _ _ _ H) as Hc. revert H.
  unfold import_module, load_or_initialize_set.
  destruct st as [[set_file|] config_file]; cbn [DISABLED_GROUPS FILTER_CONFIG_FILE mbind option_bind].
  - destruct (Json.as_int_list set_file) as [l|] eqn:El; [|done].
    unfold load_filter_config at 1. cbn [FILTER_CONFIG_FILE DISABLED_GROUPS].
    destruct config_file as [text|].
    + intros [= <- <-]. cbn [DISABLED_GROUPS mbind option_bind]. rewrite El.
      reflexivity.
    + intros [= <- <-]. cbn [DISABLED_GROUPS mbind option_bind]. rewrite El.
      unfold load_filter_config. cbn [FILTER_CONFIG_FILE]. rewrite FilterConfig_round_trip.
      rewrite setdefaults_id by (intros []; done). reflexivity.
  - cbn [Json.as_int_list mapM]. unfold load_filter_config at 1. cbn [FILTER_CONFIG_FILE DISABLED_GROUPS].
    destruct config_file as [text|].
    + intros [= <- <-]. reflexivity.
    + intros [= <- <-]. cbn [DISABLED_GROUPS mbind option_bind Json.as_int_list mapM mret option_ret].
      unfold load_filter_config. cbn [FILTER_CONFIG_FILE]. rewrite FilterConfig_round_trip.
      rewrite setdefaults_id by (intros []; done). reflexivity.
Qed.

(** A handler either leaves the globals and the files as they are, or
    rewrites both files from the new globals. *)
Lemma handle_store c s st f :
  complete s -> handle c s st = inr f ->
  (state f = s /\ store f = st) \/ store f = save_disabled_groups (state f) st.
Proof.
  intros Hc Hf. destruct c as [|gid_list|gid text|gid text|gid|gid|gid|gid]; cbn in Hf.
  - injection Hf as <-. by right.
  - injection Hf as <-. by right.
  - unfold enable in Hf.
    destruct (if bool_decide (text ∈ SOURCE_ALIASES_get bilibili) then _ else _)
      as [e|target]; [done|].
    destruct (target_contains gid target s); injection Hf as <-; [by right|by left].
  - injection Hf as <-. destruct (alias_cases text) as [[source Hin]|Hout].
    + rewrite (disable_alias _ _ source) by done. cbn zeta.
      rewrite setdefault_present by apply Hc.
      destruct (negb _); [by right|by left].
    + rewrite disable_other by done. destruct (negb _); [by right|by left].
  - injection Hf as <-. unfold disable_download. case_bool_decide; [by left|by right].
  - injection Hf as <-. unfold enable_download. destruct (negb _); [by left|by right].
  - injection Hf as <-. unfold enable_bili_auto_download. case_bool_decide; [by left|by right].
  - injection Hf as <-. unfold disable_bili_auto_download. destruct (negb _); [by left|by right].
Qed.

Lemma handle_returns c s st : complete s -> exists f, handle c s st = inr f.
Proof.
  intros Hc. destruct c as [|gid_list|gid text|gid text|gid|gid|gid|gid]; cbn; eauto.
  destruct (alias_cases text) as [[source Hin]|Hout].
  - rewrite (enable_alias _ _ source) by done. unfold item_list.
    destruct (Hc source) as [item ->]. destruct (target_contains _ _ _); eauto.
  - rewrite enable_other by done. destruct (target_contains _ _ _); eauto.
Qed.

Lemma session_inv (P : State -> Store -> Prop) cs s st :
  (forall c s st f, P s st -> handle c s st = inr f -> P (state f) (store f)) ->
  P s st -> P (session cs s st).1 (session cs s st).2.
Proof.
  intros Hstep. revert s st. induction cs as [|c cs IH]; intros s st HP; cbn [session]; [done|].
  destruct (handle c s st) as [e|f] eqn:Hf; [by apply IH|].
  apply IH. by eapply Hstep.
Qed.

Lemma session_complete_restorable cs s st :
  complete s -> import_module st = inr (s, st) ->
  let r := session cs s st in
  complete r.1 /\ import_module r.2 = inr r.
Proof.
  intros Hc Hr. cbn zeta.
  pose proof (session_inv (fun s st => complete s /\ import_module st = inr (s, st)) cs s st) as H.
  cbn beta in H. destruct (session cs s st) as [s' st'] eqn:E. cbn [fst snd] in *. apply H; [|done].
  clear. intros c s st f [Hc Hr] Hf. split; [by eapply handle_complete|].
  destruct (handle_store c s st f Hc Hf) as [[Hs Hst] | Hst]; [by rewrite Hs, Hst|]. rewrite Hst.
  apply import_saved. by eapply handle_complete.
Qed.

(** X25. After the import of the module and any session of commands, a
    restart finds in the two files exactly the globals of the running
    module, and writes nothing. *)
Theorem restart_restores st0 s0 st1 cs :
  import_module st0 = inr (s0, st1) ->
  let r := session cs s0 st1 in
  import_module r.2 = inr r.
Proof.
  intros H. apply session_complete_restorable.
  - by eapply import_module_complete.
  - by eapply import_module_again.
Qed.

(** X26. After the import of the newer module and any session of
    commands, the handler of every command reaches its [finish] and raises
    nothing of its own: the subscript [filter_config.filter_dict[source]]
    of "开启解析" never raises. (The calls of the bot API, which can fail,
    are not part of the model: the list of "关闭所有解析" is the one
    [get_group_list] returned.) *)
Theorem session_never_raises st0 s0 st1 cs c :
  import_module st0 = inr (s0, st1) ->
  let r := session cs s0 st1 in
  exists f, handle c r.1 r.2 = inr f.
Proof.
  intros H. cbn zeta. apply handle_returns.
  apply session_complete_restorable; [by eapply import_module_complete|by eapply import_module_again].
Qed.

(** X24. The command handlers never make a list name a group twice:
    from globals whose lists are free of duplicates, the lists are free
    of duplicates after every session of commands. *)
Theorem session_no_duplicates cs s st :
  no_duplicates s -> no_duplicates (session cs s st).1.
Proof.
  intros H. apply (session_inv (fun s _ => no_duplicates s)); [|done].
  intros c s' st' f. apply handle_no_duplicates.
Qed.

Lemma load_or_initialize_set_config st :
  FILTER_CONFIG_FILE (load_or_initialize_set st).2 = FILTER_CONFIG_FILE st.
Proof.
  unfold load_or_initialize_set. cbv zeta.
  destruct (DISABLED_GROUPS st) as [j|] eqn:E.
  - by destruct (_ ≫= _).
  - done.
Qed.

(** X27. On an installation without a configuration file, the command
    "开启解析" with an alias of a source raises [KeyError] in the older
    generation, whose import leaves [filter_dict] empty, until "关闭解析"
    has created the item of the source; in the newer generation it
    finishes with "解析已开启，无需重复开启" and changes nothing. *)
Theorem enable_on_fresh_install st s_old st_old s_new st_new gid alias source :
  FILTER_CONFIG_FILE st = None ->
  FilterOld.import_module st = inr (s_old, st_old) ->
  import_module st = inr (s_new, st_new) ->
  alias ∈ SOURCE_ALIASES_get source ->
  enable gid alias s_old st_old = inl KeyError /\
  (let f := disable gid alias s_old st_old in
   exists f', enable gid alias (state f) (store f) = inr f' /\ message f' = "解析已开启") /\
  enable gid alias s_new st_new =
    inr {| message := "解析已开启，无需重复开启"; state := s_new; store := st_new |}.
Proof.
  intros Hnone Hold Hnew Hin.
  pose proof (load_or_initialize_set_config st) as Hcfg. rewrite Hnone in Hcfg.
  assert (filter_dict (filter_config s_old) = ∅) as Hempty.
  { revert Hold. unfold FilterOld.import_module.
    destruct (load_or_initialize_set st) as [[e|g] st1] eqn:E1; [done|]. cbn [snd] in Hcfg.
    unfold FilterOld.load_filter_config. rewrite Hcfg. cbn. by intros [= <- _]. }
  assert (filter_config s_new = FilterConfig_default) as Hdefault.
  { revert Hnew. unfold import_module.
    destruct (load_or_initialize_set st) as [[e|g] st1] eqn:E1; [done|]. cbn [snd] in Hcfg.
    unfold load_filter_config. rewrite Hcfg. by intros [= <- _]. }
  split; [|split].
  - rewrite (enable_alias _ _ source) by done. unfold item_list.
    by rewrite Hempty, lookup_empty.
  - cbn zeta. destruct (disable_alias_state gid alias source s_old st_old Hin) as [[item Hitem] Hgid].
    rewrite (enable_alias _ _ source) by done. unfold item_list. rewrite Hitem.
    unfold target_contains. rewrite bool_decide_eq_true_2 by done. eauto.
  - rewrite (enable_alias _ _ source) by done. unfold item_list, target_contains, disabled_groups_of.
    rewrite Hdefault. by destruct source.
Qed.

(** Membership in the lists after an append and after a removal. *)
Lemma bool_decide_snoc (x y : Z) l :
  x <> y -> bool_decide (y ∈ (l ++ [x])%list) = bool_decide (y ∈ l).
Proof.
  intros Hne. apply bool_decide_ext. rewrite elem_of_app, list_elem_of_singleton.
  split; [by intros [?|?]|by left].
Qed.

Lemma bool_decide_list_remove (x y : Z) l :
  x <> y -> bool_decide (y ∈ list_remove x l) = bool_decide (y ∈ l).
Proof.
  intros Hne. apply bool_decide_ext. split; [apply elem_of_list_remove|by apply elem_of_list_remove_ne].
Qed.

Lemma by_source_insert s source l event source' :
  (forall gid u, event = GroupMessageEvent gid u ->
     bool_decide (gid ∈ l) = bool_decide (gid ∈ disabled_groups_of (filter_config s) source)) ->
  is_not_in_disabled_groups_by_source
    (with_filter_dict (<[source := {| disabled_groups := l |}]> (filter_dict (filter_config s))) s)
    event source' =
  is_not_in_disabled_groups_by_source s event source'.
Proof.
  intros H. destruct event as [gid u|u]; [|done]. unfold is_not_in_disabled_groups_by_source.
  rewrite disabled_groups_of_insert. case_decide as Hd; [|done]. subst source'.
  by rewrite (H gid u).
Qed.

Lemma answers_insert s source l event :
  (forall gid u, event = GroupMessageEvent gid u ->
     bool_decide (gid ∈ l) = bool_decide (gid ∈ disabled_groups_of (filter_config s) source)) ->
  answers (with_filter_dict (<[source := {| disabled_groups := l |}]> (filter_dict (filter_config s))) s)
    event = answers s event.
Proof.
  intros H. unfold answers, is_not_in_disabled_groups_by_bilibili,
    is_not_in_disabled_groups_by_douyin, is_not_in_disabled_groups_by_ytb.
  by rewrite !by_source_insert.
Qed.

Lemma answers_setdefault s source event :
  answers (with_filter_dict (setdefault source FilterItem_default (filter_dict (filter_config s))) s)
    event = answers s event.
Proof.
  unfold answers, is_not_in_disabled_groups_by_bilibili,
    is_not_in_disabled_groups_by_douyin, is_not_in_disabled_groups_by_ytb.
  destruct event as [gid u|u]; [|done]. unfold is_not_in_disabled_groups_by_source.
  by rewrite !disabled_groups_of_setdefault.
Qed.

(** X28. A command sent in a group changes no rule's answer for the
    events of any other group. *)
Theorem handle_other_groups c s st f gid gid' u :
  Command_group c = Some gid -> gid <> gid' -> handle c s st = inr f ->
  answers (state f) (GroupMessageEvent gid' u) = answers s (GroupMessageEvent gid' u).
Proof.
  intros Hc Hne Hf.
  destruct c as [|gid_list|g text|g text|g|g|g|g]; cbn in Hc; try done;
    injection Hc as ->; cbn in Hf.
  - unfold enable in Hf.
    destruct (if bool_decide (text ∈ SOURCE_ALIASES_get bilibili) then _ else _)
      as [e|target]; [done|].
    destruct (target_contains gid target s); injection Hf as <-; cbn [state]; [|done].
    destruct target; cbn [target_remove].
    + unfold answers. cbn. f_equal. f_equal. apply bool_decide_ext.
      rewrite elem_of_difference, elem_of_singleton. split; [by intros [? _]|]. by split.
    + apply answers_insert. intros ? ? [= <- _]. by apply bool_decide_list_remove.
  - injection Hf as <-. destruct (alias_cases text) as [[source Hin]|Hout].
    + rewrite (disable_alias _ _ source) by done. cbn zeta.
      destruct (negb _); cbn [state]; [|apply answers_setdefault].
      unfold target_add. rewrite answers_insert; [apply answers_setdefault|].
      intros ? ? [= <- _]. by apply bool_decide_snoc.
    + rewrite disable_other by done. destruct (negb _); cbn [state]; [|done].
      unfold answers. cbn. f_equal. f_equal. apply bool_decide_ext.
      rewrite elem_of_union, elem_of_singleton. split; [by intros [?|?]|by left].
  - injection Hf as <-. unfold disable_download. case_bool_decide; [done|]. cbn [state].
    unfold answers. cbn. by rewrite bool_decide_snoc.
  - injection Hf as <-. unfold enable_download. destruct (negb _); [done|]. cbn [state].
    unfold answers. cbn. by rewrite bool_decide_list_remove.
  - injection Hf as <-. unfold enable_bili_auto_download. case_bool_decide; [done|]. cbn [state].
    unfold answers. cbn. by rewrite bool_decide_snoc.
  - injection Hf as <-. unfold disable_bili_auto_download. destruct (negb _); [done|]. cbn [state].
    unfold answers. cbn. by rewrite bool_decide_list_remove.
Qed.

(** X29. After "开启所有解析", [is_not_in_disabled_groups] accepts every
    event and the file of the set holds the empty list, while the rules of
    the sources answer as before; after "关闭所有解析",
    [is_not_in_disabled_groups] rejects exactly the groups of the bot's
    list and the groups it rejected before. *)
Theorem enable_all_and_disable_all s st gid_list :
  let f := enable_all s st in
  let g := disable_all gid_list s st in
  (forall event,
     is_not_in_disabled_groups (state f) event = true /\
     forall source, is_not_in_disabled_groups_by_source (state f) event source =
                    is_not_in_disabled_groups_by_source s event source) /\
  DISABLED_GROUPS (store f) = Some (Json.Arr []) /\
  (forall gid u,
     is_not_in_disabled_groups (state g) (GroupMessageEvent gid u) = false <->
     gid ∈ gid_list \/ is_not_in_disabled_groups s (GroupMessageEvent gid u) = false).
Proof.
  cbn zeta. split; [|split].
  - intros event. split; [|done]. destruct event as [gid u|u]; [|done].
    unfold is_not_in_disabled_groups. cbn. by rewrite bool_decide_eq_false_2.
  - unfold enable_all, save_disabled_groups. cbn. by rewrite elements_empty.
  - intros gid u. unfold is_not_in_disabled_groups. cbn.
    rewrite !negb_false_iff, !bool_decide_eq_true, elem_of_union, elem_of_list_to_set.
    tauto.
Qed.

Import Rules.

(** X18. The rules of the matchers [bilibili] and [bilibili_auto_download]
    never both hold for an event; [bili_auto_download_rule] never holds
    for a private message, and the rule of [bilibili] holds for a private
    message whenever a keyword is found. *)
Theorem matchers_exclusive s k1 k2 event :
  bilibili_rule s k1 event && bilibili_auto_download_rule s k2 event = false /\
  (forall u, bili_auto_download_rule s (PrivateMessageEvent u) = false) /\
  (forall u, bilibili_rule s k1 (PrivateMessageEvent u) = k1).
Proof.
  split; [|split].
  - unfold bilibili_rule, bilibili_auto_download_rule, bili_auto_download_rule.
    destruct (is_not_in_disabled_groups_by_bilibili s event); [|done].
    cbn [negb andb]. by rewrite andb_false_r.
  - done.
  - intros u. unfold bilibili_rule. cbn. by rewrite andb_true_r.
Qed.

Lemma enable_bili_auto_download_state gid s st :
  let s' := state (enable_bili_auto_download gid s st) in
  gid ∈ bili_auto_download_when_disabled_groups (filter_config s') /\
  disabled_group_set s' = disabled_group_set s /\
  filter_dict (filter_config s') = filter_dict (filter_config s) /\
  do_not_download_media_groups (filter_config s') = do_not_download_media_groups (filter_config s).
Proof.
  cbn zeta. unfold enable_bili_auto_download. case_bool_decide as Hauto; cbn [state]; [done|].
  split; [|done]. cbn. apply elem_of_app. right. constructor.
Qed.

(** X19. In a group that is neither in [disabled_group_set] nor in
    [do_not_download_media_groups], after "关闭解析" with an alias of
    bilibili and then "开启b站自动下载", a message with a keyword is refused
    by the rule of [bilibili] and accepted by the rule of
    [bilibili_auto_download]. *)
Theorem auto_download_switch gid u alias s st :
  let event := GroupMessageEvent gid u in
  let f1 := disable gid alias s st in
  let f2 := enable_bili_auto_download gid (state f1) (store f1) in
  alias ∈ SOURCE_ALIASES_get bilibili ->
  is_not_in_disabled_groups s event = true ->
  is_not_in_do_not_download_media_groups s event = true ->
  bilibili_rule (state f2) true event = false /\
  bilibili_auto_download_rule (state f2) true event = true.
Proof.
  cbn zeta. intros Hin Hset Hdl.
  destruct (disable_alias_state gid alias bilibili s st Hin) as [_ Hgid].
  assert (disabled_group_set (state (disable gid alias s st)) = disabled_group_set s /\
          do_not_download_media_groups (filter_config (state (disable gid alias s st))) =
          do_not_download_media_groups (filter_config s)) as [Hset1 Hdl1].
  { rewrite (disable_alias _ _ bilibili) by done. cbn zeta.
    destruct (negb _); cbn [state]; done. }
  set (f1 := disable gid alias s st) in *.
  destruct (enable_bili_auto_download_state gid (state f1) (store f1)) as (Hauto & E1 & E2 & E3).
  set (f2 := enable_bili_auto_download gid (state f1) (store f1)) in *.
  unfold bilibili_rule, bilibili_auto_download_rule, bili_auto_download_rule,
    is_not_in_disabled_groups_by_bilibili, is_not_in_disabled_groups_by_source,
    is_in_bili_auto_download_when_disabled_groups, is_not_in_disabled_groups,
    is_not_in_do_not_download_media_groups, disabled_groups_of in *.
  rewrite E1, E2, E3, Hset1, Hdl1, Hset, Hdl.
  rewrite (bool_decide_eq_true_2 _ Hgid), (bool_decide_eq_true_2 _ Hauto). done.
Qed.



Lemma disable_rejects_witness :
  is_not_in_disabled_groups_by_source_alias
    (state (disable 7 "b23" Sample.filter_state Sample.no_files))
    (GroupMessageEvent 7 42) "b23" = inr false.
Proof.
  refine (proj2 (proj1 (disable_rejects 7 42 "b23" Sample.filter_state Sample.no_files)
                   bilibili _)).
  vm_compute. repeat constructor.
Defined.

Lemma enable_removes_first_witness :
  exists f,
    enable 7 "B站" Sample.filter_state Sample.no_files = inr f /\
    message f = "解析已开启" /\
    store f = save_disabled_groups (state f) Sample.no_files /\
    disabled_groups_of (filter_config (state f)) bilibili = [9] /\
    is_not_in_disabled_groups_by_source (state f) (GroupMessageEvent 7 42) bilibili = true.
Proof.
  refine (enable_removes_first 7 42 "B站" bilibili {| disabled_groups := [7; 9] |} [] [9]
            Sample.filter_state Sample.no_files _ _ _ _).
  - vm_compute. repeat constructor.
  - reflexivity.
  - reflexivity.
  - apply not_elem_of_nil.
Defined.

Lemma no_duplicates_filter_state : no_duplicates Sample.filter_state.
Proof.
  split; [|split]; [intros []| |]; vm_compute; repeat constructor;
    intros H; repeat (apply elem_of_cons in H as [H|H]; [discriminate|]);
    by apply elem_of_nil in H.
Qed.

Lemma enable_passes_witness :
  is_not_in_disabled_groups
    (with_disabled_group_set ({[ 7; 8 ]} ∖ {[ 7 ]}) Sample.filter_state)
    (GroupMessageEvent 7 42) = true.
Proof.
  refine (proj2 (enable_passes 7 42 "" Sample.filter_state Sample.no_files
                   {| message := "解析已开启";
                      state := with_disabled_group_set ({[ 7; 8 ]} ∖ {[ 7 ]}) Sample.filter_state;
                      store := save_disabled_groups
                                 (with_disabled_group_set ({[ 7; 8 ]} ∖ {[ 7 ]}) Sample.filter_state)
                                 Sample.no_files |} _ _) _).
  - exact no_duplicates_filter_state.
  - reflexivity.
  - intros []; vm_compute; intros H;
      repeat (apply elem_of_cons in H as [H|H]; [discriminate|]); by apply elem_of_nil in H.
Defined.

Lemma restart_restores_witness :
  let r := session Sample.commands Sample.first_import.1 Sample.first_import.2 in
  import_module r.2 = inr r.
Proof.
  apply (restart_restores Sample.no_files Sample.first_import.1 Sample.first_import.2
           Sample.commands).
  reflexivity.
Defined.

Lemma session_never_raises_witness :
  let r := session Sample.commands Sample.first_import.1 Sample.first_import.2 in
  exists f, handle (Enable 7 "油管") r.1 r.2 = inr f.
Proof.
  apply (session_never_raises Sample.no_files Sample.first_import.1 Sample.first_import.2
           Sample.commands (Enable 7 "油管")).
  reflexivity.
Defined.

Lemma no_duplicates_first_import : no_duplicates Sample.first_import.1.
Proof.
  split; [|split]; [intros []| |]; vm_compute; constructor.
Qed.

Lemma session_no_duplicates_witness :
  no_duplicates (session Sample.commands Sample.first_import.1 Sample.first_import.2).1.
Proof.
  apply (session_no_duplicates Sample.commands Sample.first_import.1 Sample.first_import.2).
  exact no_duplicates_first_import.
Defined.

Lemma enable_on_fresh_install_witness :
  enable 7 "b站" Sample.first_import_old.1 Sample.first_import_old.2 = inl KeyError /\
  (let f := disable 7 "b站" Sample.first_import_old.1 Sample.first_import_old.2 in
   exists f', enable 7 "b站" (state f) (store f) = inr f' /\ message f' = "解析已开启") /\
  enable 7 "b站" Sample.first_import.1 Sample.first_import.2 =
    inr {| message := "解析已开启，无需重复开启";
           state := Sample.first_import.1; store := Sample.first_import.2 |}.
Proof.
  refine (enable_on_fresh_install Sample.no_files
            Sample.first_import_old.1 Sample.first_import_old.2
            Sample.first_import.1 Sample.first_import.2 7 "b站" bilibili _ _ _ _).
  - reflexivity.
  - reflexivity.
  - reflexivity.
  - vm_compute. repeat constructor.
Defined.

Lemma handle_other_groups_witness :
  answers (state (disable 7 "b站" Sample.filter_state Sample.no_files)) (GroupMessageEvent 9 42)
  = answers Sample.filter_state (GroupMessageEvent 9 42).
Proof.
  refine (handle_other_groups (Disable 7 "b站") Sample.filter_state Sample.no_files
            (disable 7 "b站" Sample.filter_state Sample.no_files) 7 9 42 _ _ _).
  - reflexivity.
  - lia.
  - reflexivity.
Defined.

Lemma auto_download_switch_witness :
  let f1 := disable 7 "bilibili" Sample.first_import.1 Sample.first_import.2 in
  let f2 := enable_bili_auto_download 7 (state f1) (store f1) in
  bilibili_rule (state f2) true (GroupMessageEvent 7 42) = false /\
  bilibili_auto_download_rule (state f2) true (GroupMessageEvent 7 42) = true.
Proof.
  refine (auto_download_switch 7 42 "bilibili" Sample.first_import.1 Sample.first_import.2 _ _ _).
  - vm_compute. repeat constructor.
  - reflexivity.
  - reflexivity.
Defined.


End FilterCommandFacts.
